(** * Query-range middleware of Loki: codec, limits and response merging

    A shallow embedding of [pkg/querier/queryrange/codec.go] and
    [pkg/querier/queryrange/limits.go], with the properties the
    specification states about them, and further properties of this code, of
    the pull windows of the Cloudflare target and of the validation of the
    root configuration in [pkg/loki/loki.go].

    Conventions.
    - Go's [int64], [int] and [time.Duration] are [Z]; where the source can
      overflow, the wrap-around is written out with [wrap64].
    - [uint32] is [N].
    - A [time.Time] is the [Z] of its [UnixNano()].
    - A Go function returning [(T, error)] returns an [outcome T]; a run-time
      panic (failed type assertion, integer division by zero) is the third
      constructor [Panic].
    - Go maps are stdpp [gmap]s, sets (maps to [struct{}]) are [gset]s. *)

From Stdlib Require Import ZArith String DecimalString DecimalZ DecimalPos.
From stdpp Require Import gmap strings list fin_maps sorting.

Open Scope Z_scope.

(** ** Outcomes and errors *)

(** Arguments of a format string, kept unevaluated in an error value. *)
Inductive fmtarg :=
| ArgInt (z : Z)
| ArgString (s : string)
| ArgDuration (d : Z).

(** Go [error] values built by this package. *)
Inductive error :=
| httpgrpc_Errorf (code : Z) (format : string) (args : list fmtarg)
| errors_New (msg : string).

Inductive outcome (A : Type) :=
| Ok (a : A)
| Err (e : error)
| Panic (msg : string).
Arguments Ok {A} a.
Arguments Err {A} e.
Arguments Panic {A} msg.

(** Sequencing: an error or a panic ends the computation. *)
Global Instance outcome_bind : MBind outcome := λ A B f x,
  match x with
  | Ok a => f a
  | Err e => Err e
  | Panic m => Panic m
  end.

Definition StatusBadRequest : Z := 400.
Definition StatusInternalServerError : Z := 500.
Definition StatusOK : Z := 200.

(** ** Machine integers and time *)

Definition int64_min : Z := - 2 ^ 63.
Definition int64_max : Z := 2 ^ 63 - 1.
Definition in_int64 (z : Z) : Prop := int64_min ≤ z ≤ int64_max.

Definition wrap64 (z : Z) : Z := (z + 2 ^ 63) mod 2 ^ 64 - 2 ^ 63.

(** Go's [/] on [int64]: truncates toward zero, panics on a zero divisor. *)
Definition int64_div (a b : Z) : outcome Z :=
  if decide (b = 0) then Panic "runtime error: integer divide by zero"
  else Ok (wrap64 (a ÷ b)).

Definition int64_mul (a b : Z) : Z := wrap64 (a * b).

(** [time.Nanosecond], [time.Millisecond], [time.Second]. *)
Definition Nanosecond : Z := 1.
Definition Millisecond : Z := 1000000.
Definition Second : Z := 1000000000.

(** [fmt.Sprintf("%d", z)]. *)
Definition fmt_d (z : Z) : string := NilZero.string_of_int (Z.to_int z).

(** ** Wire enumerations *)

(** [logproto.Direction]. *)
Inductive Direction := FORWARD | BACKWARD.

Global Instance Direction_eq_dec : EqDecision Direction.
Proof. solve_decision. Defined.

Definition Direction_String (d : Direction) : string :=
  match d with
  | FORWARD => "FORWARD"
  | BACKWARD => "BACKWARD"
  end.

(** ** Typed requests *)

Module LokiRequest.
Record t := mk {
  Query : string;
  Limit : N;
  Step : Z;
  StartTs : Z;
  EndTs : Z;
  Direction : Direction;
  Path : string;
  Shards : list string
}.

Definition GetEnd (r : t) : Z := EndTs r ÷ (Millisecond ÷ Nanosecond).
Definition GetStart (r : t) : Z := StartTs r ÷ (Millisecond ÷ Nanosecond).
Definition GetStep (r : t) : Z := Step r.
Definition GetQuery (r : t) : string := Query r.

Definition WithStartEnd (r : t) (s e : Z) : t :=
  mk (Query r) (Limit r) (Step r)
     (int64_mul s Millisecond) (int64_mul e Millisecond)
     (Direction r) (Path r) (Shards r).

Definition WithQuery (r : t) (query : string) : t :=
  mk query (Limit r) (Step r) (StartTs r) (EndTs r)
     (Direction r) (Path r) (Shards r).
End LokiRequest.

Module LokiInstantRequest.
Record t := mk {
  Query : string;
  Limit : N;
  TimeTs : Z;
  Direction : Direction;
  Path : string;
  Shards : list string
}.

Definition GetStep (r : t) : Z := 0.
Definition GetEnd (r : t) : Z := TimeTs r ÷ (Millisecond ÷ Nanosecond).
Definition GetStart (r : t) : Z := TimeTs r ÷ (Millisecond ÷ Nanosecond).
Definition GetQuery (r : t) : string := Query r.

Definition WithStartEnd (r : t) (s e : Z) : t :=
  mk (Query r) (Limit r) (int64_mul s Millisecond)
     (Direction r) (Path r) (Shards r).

Definition WithQuery (r : t) (query : string) : t :=
  mk query (Limit r) (TimeTs r) (Direction r) (Path r) (Shards r).
End LokiInstantRequest.

Module LokiSeriesRequest.
Record t := mk {
  Match : list string;
  StartTs : Z;
  EndTs : Z;
  Path : string;
  Shards : list string
}.

Definition GetEnd (r : t) : Z := EndTs r ÷ (Millisecond ÷ Nanosecond).
Definition GetStart (r : t) : Z := StartTs r ÷ (Millisecond ÷ Nanosecond).
Definition GetQuery (r : t) : string := EmptyString.
Definition GetStep (r : t) : Z := 0.

Definition WithStartEnd (r : t) (s e : Z) : t :=
  mk (Match r) (int64_mul s Millisecond) (int64_mul e Millisecond)
     (Path r) (Shards r).

Definition WithQuery (r : t) (query : string) : t := r.
End LokiSeriesRequest.

Module LokiLabelNamesRequest.
Record t := mk {
  StartTs : Z;
  EndTs : Z;
  Path : string
}.

Definition GetEnd (r : t) : Z := EndTs r ÷ (Millisecond ÷ Nanosecond).
Definition GetStart (r : t) : Z := StartTs r ÷ (Millisecond ÷ Nanosecond).
Definition GetQuery (r : t) : string := EmptyString.
Definition GetStep (r : t) : Z := 0.

Definition WithStartEnd (r : t) (s e : Z) : t :=
  mk (int64_mul s Millisecond) (int64_mul e Millisecond) (Path r).

Definition WithQuery (r : t) (query : string) : t := r.
End LokiLabelNamesRequest.

(** The dynamic type behind a [queryrange.Request] interface value. *)
Inductive Request :=
| RangeQuery (r : LokiRequest.t)
| InstantQuery (r : LokiInstantRequest.t)
| SeriesQuery (r : LokiSeriesRequest.t)
| LabelNamesQuery (r : LokiLabelNamesRequest.t).

Definition GetStart (r : Request) : Z :=
  match r with
  | RangeQuery q => LokiRequest.GetStart q
  | InstantQuery q => LokiInstantRequest.GetStart q
  | SeriesQuery q => LokiSeriesRequest.GetStart q
  | LabelNamesQuery q => LokiLabelNamesRequest.GetStart q
  end.

Definition GetEnd (r : Request) : Z :=
  match r with
  | RangeQuery q => LokiRequest.GetEnd q
  | InstantQuery q => LokiInstantRequest.GetEnd q
  | SeriesQuery q => LokiSeriesRequest.GetEnd q
  | LabelNamesQuery q => LokiLabelNamesRequest.GetEnd q
  end.

Definition GetStep (r : Request) : Z :=
  match r with
  | RangeQuery q => LokiRequest.GetStep q
  | InstantQuery q => LokiInstantRequest.GetStep q
  | SeriesQuery q => LokiSeriesRequest.GetStep q
  | LabelNamesQuery q => LokiLabelNamesRequest.GetStep q
  end.

Definition GetQuery (r : Request) : string :=
  match r with
  | RangeQuery q => LokiRequest.GetQuery q
  | InstantQuery q => LokiInstantRequest.GetQuery q
  | SeriesQuery q => LokiSeriesRequest.GetQuery q
  | LabelNamesQuery q => LokiLabelNamesRequest.GetQuery q
  end.

Definition WithStartEnd (r : Request) (s e : Z) : Request :=
  match r with
  | RangeQuery q => RangeQuery (LokiRequest.WithStartEnd q s e)
  | InstantQuery q => InstantQuery (LokiInstantRequest.WithStartEnd q s e)
  | SeriesQuery q => SeriesQuery (LokiSeriesRequest.WithStartEnd q s e)
  | LabelNamesQuery q => LabelNamesQuery (LokiLabelNamesRequest.WithStartEnd q s e)
  end.

(** ** Per-tenant limits *)

(** The methods of the [Limits] interface that this package calls. *)
Record Limits := mkLimits {
  MaxQueryLookback : string → Z;
  MaxQueryLength : string → Z;
  MaxQueryParallelism : string → Z;
  QuerySplitDuration : string → Z;
  MaxQuerySeries : string → Z;
  MaxEntriesLimitPerQuery : string → Z;
  MinShardingLookback : string → Z
}.

Module limits.
Record t := mk {
  Limits_ : Limits;
  splitDuration : Z;
  overrides : bool
}.

Definition QuerySplitDuration (l : t) (user : string) : Z :=
  if negb (overrides l) then splitDuration l
  else
    let dur := QuerySplitDuration (Limits_ l) user in
    if decide (dur = 0) then splitDuration l else dur.

(** The [limits] struct seen through the [Limits] interface: the embedded
    methods are promoted, [QuerySplitDuration] is overridden. *)
Definition as_Limits (l : t) : Limits :=
  let i := Limits_ l in
  mkLimits (MaxQueryLookback i) (MaxQueryLength i) (MaxQueryParallelism i)
           (QuerySplitDuration l) (MaxQuerySeries i)
           (MaxEntriesLimitPerQuery i) (MinShardingLookback i).
End limits.

(** [WithDefaultLimits]; [splitQueriesByInterval] is
    [conf.SplitQueriesByInterval]. A zero interval leaves the zero default. *)
Definition WithDefaultLimits (l : Limits) (splitQueriesByInterval : Z) : Limits :=
  limits.as_Limits
    (limits.mk l
       (if decide (splitQueriesByInterval ≠ 0) then splitQueriesByInterval else 0)
       true).

Definition WithSplitByLimits (l : Limits) (splitBy : Z) : Limits :=
  limits.as_Limits (limits.mk l splitBy false).

(** ** Cache keys *)

Local Open Scope string_scope.

(** [cacheKeyLimits.GenerateCacheKey]; the receiver embeds a [Limits]. *)
Definition GenerateCacheKey (l : Limits) (userID : string) (r : Request)
  : outcome string :=
  let split := QuerySplitDuration l userID in
  currentInterval ← int64_div (GetStart r) (split ÷ Millisecond);
  Ok (userID +:+ ":" +:+ GetQuery r +:+ ":" +:+ fmt_d (GetStep r) +:+ ":"
        +:+ fmt_d currentInterval +:+ ":" +:+ fmt_d split).

Local Close Scope string_scope.

(** ** Collaborators outside this package *)

(** Types of other packages that this package only passes around. *)
Class Opaque := {
  (** [stats.Result] *)
  stats_Result : Type;
  (** [float64] *)
  float64 : Type;
  (** [logql.Expr] *)
  Expr : Type
}.

(** ** Log streams and typed responses *)

Module Entry.
(** [logproto.Entry]; the timestamp is kept as its [UnixNano()]. *)
Record t := mk {
  Timestamp : Z;
  Line : string
}.
End Entry.

Module Stream.
(** [logproto.Stream] *)
Record t := mk {
  Labels : string;
  Entries : list Entry.t
}.
End Stream.

Module SeriesIdentifier.
(** [logproto.SeriesIdentifier] *)
Record t := mk {
  Labels : gmap string string
}.
End SeriesIdentifier.

Module Sample.
(** [cortexpb.Sample] *)
Record t {opq : Opaque} := mk {
  Value : float64;
  TimestampMs : Z
}.
Arguments mk {_} _ _.
End Sample.

Module SampleStream.
(** [queryrange.SampleStream]; a label is a name/value pair. *)
Record t {opq : Opaque} := mk {
  Labels : list (string * string);
  Samples : list Sample.t
}.
Arguments mk {_} _ _.
End SampleStream.

Module PrometheusResponseHeader.
Record t := mk {
  Name : string;
  Values : list string
}.
End PrometheusResponseHeader.

Module PrometheusData.
Record t {opq : Opaque} := mk {
  ResultType : string;
  Result : list SampleStream.t
}.
Arguments mk {_} _ _.
End PrometheusData.

Module PrometheusResponse.
(** [queryrange.PrometheusResponse] of Cortex. *)
Record t {opq : Opaque} := mk {
  Status : string;
  Data : PrometheusData.t;
  ErrorType : string;
  Error : string;
  Headers : list PrometheusResponseHeader.t
}.
Arguments mk {_} _ _ _ _ _.
End PrometheusResponse.

Module LokiData.
Record t := mk {
  ResultType : string;
  Result : list Stream.t
}.
End LokiData.

Module LokiResponse.
Record t {opq : Opaque} := mk {
  Status : string;
  Data : LokiData.t;
  Statistics : stats_Result;
  Direction : Direction;
  Limit : N;
  Version : N;
  ErrorType : string;
  Error : string;
  Headers : list PrometheusResponseHeader.t
}.
Arguments mk {_} _ _ _ _ _ _ _ _ _.
End LokiResponse.

Module LokiPromResponse.
(** [Response] is a pointer in the source: [None] is [nil]. *)
Record t {opq : Opaque} := mk {
  Response : option PrometheusResponse.t;
  Statistics : stats_Result
}.
Arguments mk {_} _ _.
End LokiPromResponse.

Module LokiSeriesResponse.
Record t := mk {
  Status : string;
  Data : list SeriesIdentifier.t;
  Version : N;
  Headers : list PrometheusResponseHeader.t
}.
End LokiSeriesResponse.

Module LokiLabelNamesResponse.
Record t := mk {
  Status : string;
  Data : list string;
  Version : N;
  Headers : list PrometheusResponseHeader.t
}.
End LokiLabelNamesResponse.

(** The dynamic type behind a [queryrange.Response] interface value. The
    interface is open: [OtherResponse] stands for any value that is none of
    the four response types of this package ([nil] included). *)
Inductive Response {opq : Opaque} :=
| MetricResponse (r : LokiPromResponse.t)
| LogStreamResponse (r : LokiResponse.t)
| SeriesResponse (r : LokiSeriesResponse.t)
| LabelNamesResponse (r : LokiLabelNamesResponse.t)
| OtherResponse (dynamicType : string).
Arguments MetricResponse {_} r.
Arguments LogStreamResponse {_} r.
Arguments SeriesResponse {_} r.
Arguments LabelNamesResponse {_} r.
Arguments OtherResponse {_} dynamicType.

(** The response types, as tags. *)
Inductive Variant := VMetric | VLogStream | VSeries | VLabelNames | VOther.

Global Instance Variant_eq_dec : EqDecision Variant.
Proof. solve_decision. Defined.

Definition responseVariant {opq : Opaque} (res : Response) : Variant :=
  match res with
  | MetricResponse _ => VMetric
  | LogStreamResponse _ => VLogStream
  | SeriesResponse _ => VSeries
  | LabelNamesResponse _ => VLabelNames
  | OtherResponse _ => VOther
  end.

(** Functions of other packages that this package calls. *)
Class Collaborators {opq : Opaque} := {
  (** the zero [stats.Result] *)
  stats_Result_zero : stats_Result;
  (** [stats.Result.Merge]: the receiver after merging the argument *)
  stats_Result_Merge : stats_Result → stats_Result → stats_Result;
  (** [logql.ParseExpr]: the expression, or the text of the parse error *)
  ParseExpr : string → string + Expr;
  (** the type test [expr.(logql.SampleExpr)] *)
  isSampleExpr : Expr → bool;
  (** [loghttp.GetVersion] *)
  GetVersion : string → N;
  (** [logproto.SeriesIdentifier.String] *)
  SeriesIdentifier_String : SeriesIdentifier.t → string;
  (** [labels.Labels.HashWithoutLabels] called with no label name *)
  HashWithoutLabels : list (string * string) → N;
  (** [queryrange.PrometheusCodec.MergeResponse] of Cortex *)
  PrometheusCodec_MergeResponse :
    list (option PrometheusResponse.t) → outcome PrometheusResponse.t;
  (** [fmt.Sprintf("%f", float64(step)/float64(1e3))]: a step in
      milliseconds written as a floating-point number of seconds *)
  Sprintf_f_seconds : Z → string;
  (** the reading of the [step] parameter, a floating-point number of
      seconds, as a [time.Duration]; or the text of the error *)
  parseStepSeconds : string → string + Z
}.

Definition QueryStatusSuccess : string := "success".
Definition ResultTypeStream : string := "streams".
Definition ResultTypeVector : string := "vector".
Definition ResultTypeMatrix : string := "matrix".

(** ** Merging log streams *)

Module byDir.
Record t := mk {
  markers : list (list Entry.t);
  direction : Direction;
  labels : string
}.

(** Modelled from the spec: [entries.start], the timestamp that keys a
    marker run, is not in the sources at hand. A run is keyed by its first
    entry; a run without entries is keyed 0 and adds nothing to the merge. *)
Definition start (m : list Entry.t) : Z :=
  match m with
  | [] => 0
  | e :: _ => Entry.Timestamp e
  end.

(** Modelled from the spec: the order of marker runs, "by timestamp,
    direction-respecting". *)
Definition before (d : Direction) (x y : list Entry.t) : bool :=
  match d with
  | BACKWARD => bool_decide (start y ≤ start x)
  | FORWARD => bool_decide (start x ≤ start y)
  end.

(** Modelled from the spec: the place of a run among runs already in order,
    before the first run that it does not come after. *)
Fixpoint insert (d : Direction) (m : list Entry.t)
    (sorted : list (list Entry.t)) : list (list Entry.t) :=
  match sorted with
  | [] => [m]
  | m' :: rest =>
      if before d m m' then m :: m' :: rest else m' :: insert d m rest
  end.

(** Modelled from the spec: the "stable tie-break on insertion order".
    Among runs with equal keys the one inserted into [markers] first stays
    first. *)
Definition sort (d : Direction) (ms : list (list Entry.t))
  : list (list Entry.t) :=
  foldr (insert d) [] ms.

(** Modelled from the spec: [byDir.merge] is not in the sources at hand.
    Section 4.6.1 merges the marker runs of a label "by timestamp,
    direction-respecting, with a stable tie-break on insertion order", and
    the comment of [mergeOrderedNonOverlappingStreams] says matching
    streams are concatenated: the runs are put in order and appended. *)
Definition merge (a : t) : list Entry.t :=
  concat (sort (direction a) (markers a)).
End byDir.

Module priorityqueue.
Record t := mk {
  streams : list Stream.t;
  direction : Direction
}.

(** Modelled from the spec: [priorityqueue.Len], not in the sources at
    hand; the number of streams in the queue. *)
Definition Len (pq : t) : nat := length (streams pq).

(** Modelled from the spec: the comparator of the queue is not in the
    sources at hand. It is "direction-respecting over (timestamp, label)":
    the head entries are compared by time in the direction of the query,
    and equal times by label. A stream without entries never enters the
    queue; it is keyed 0 here. *)
Definition Less (d : Direction) (x y : Stream.t) : bool :=
  let tx := byDir.start (Stream.Entries x) in
  let ty := byDir.start (Stream.Entries y) in
  if decide (tx = ty) then
    bool_decide (String.le (Stream.Labels x) (Stream.Labels y))
  else
    match d with
    | FORWARD => bool_decide (tx < ty)
    | BACKWARD => bool_decide (ty < tx)
    end.

(** Modelled from the spec: the choice of the stream to pop. The first
    stream of [s :: rest] that no other one precedes, and the others in
    their order. *)
Fixpoint extract_min (d : Direction) (s : Stream.t) (rest : list Stream.t)
  : Stream.t * list Stream.t :=
  match rest with
  | [] => (s, [])
  | s' :: rest' =>
      let '(m, others) := extract_min d s' rest' in
      if Less d s m then (s, s' :: rest') else (m, s :: others)
  end.

(** Modelled from the spec: [heap.Pop] on the queue is not in the sources
    at hand. It takes the head entry of the stream that comes first,
    returns it as a stream of one entry under the same labels, and keeps
    the rest of that stream in the queue when entries remain. *)
Definition Pop (pq : t) : option (Stream.t * t) :=
  match streams pq with
  | [] => None
  | s :: rest =>
      let '(m, others) := extract_min (direction pq) s rest in
      match Stream.Entries m with
      | [] => Some (Stream.mk (Stream.Labels m) [], mk others (direction pq))
      | e :: [] =>
          Some (Stream.mk (Stream.Labels m) [e], mk others (direction pq))
      | e :: remaining =>
          Some (Stream.mk (Stream.Labels m) [e],
                mk (others ++ [Stream.mk (Stream.Labels m) remaining])
                   (direction pq))
      end
  end.
End priorityqueue.

(** [sort.Strings] and [sort.Sort(sort.Reverse(sort.StringSlice(keys)))]:
    Go compares strings byte by byte. *)
Definition sort_Strings (keys : list string) : list string :=
  merge_sort String.le keys.
Definition sort_Reverse_Strings (keys : list string) : list string :=
  merge_sort (flip String.le) keys.

Section merge_streams.
Context {opq : Opaque}.

(** The body of the inner loop: one stream of one response. *)
Definition addStream (direction : Direction)
    (acc : gmap string byDir.t * Z) (stream : Stream.t)
  : gmap string byDir.t * Z :=
  let '(groups, total) := acc in
  let s := match groups !! Stream.Labels stream with
           | Some s => s
           | None => byDir.mk [] direction (Stream.Labels stream)
           end in
  (<[Stream.Labels stream :=
       byDir.mk (byDir.markers s ++ [Stream.Entries stream])
                (byDir.direction s) (byDir.labels s)]> groups,
   total + Z.of_nat (length (Stream.Entries stream))).

(** The outer loop, left as soon as [total >= int(limit)]. *)
Fixpoint groupStreams (direction : Direction) (limit : N)
    (resps : list LokiResponse.t) (acc : gmap string byDir.t * Z)
  : gmap string byDir.t * Z :=
  match resps with
  | [] => acc
  | resp :: rest =>
      let acc' := foldl (addStream direction) acc
                        (LokiData.Result (LokiResponse.Data resp)) in
      if decide (Z.of_N limit ≤ acc'.2) then acc'
      else groupStreams direction limit rest acc'
  end.

Definition sortedKeys (direction : Direction) (groups : gmap string byDir.t)
  : list string :=
  let keys := (map_to_list groups).*1 in
  if decide (direction = BACKWARD) then sort_Reverse_Strings keys
  else sort_Strings keys.

Definition mergedEntries (groups : gmap string byDir.t) (key : string)
  : list Entry.t :=
  match groups !! key with
  | Some g => byDir.merge g
  | None => []
  end.

(** The loop [for i := 0; i < int(limit) && pq.Len() > 0; i++]; [n] is
    the number of rounds left. The capacity given to [make] for a new
    result stream has no effect on its contents. *)
Fixpoint popEntries (n : nat) (pq : priorityqueue.t)
    (resultDict : gmap string Stream.t) : gmap string Stream.t :=
  match n with
  | O => resultDict
  | S n' =>
      match priorityqueue.Pop pq with
      | None => resultDict
      | Some (next, pq') =>
          let s := match resultDict !! Stream.Labels next with
                   | Some s => s
                   | None => Stream.mk (Stream.Labels next) []
                   end in
          popEntries n' pq'
            (<[Stream.Labels next :=
                 Stream.mk (Stream.Labels s)
                           (Stream.Entries s ++ Stream.Entries next)]>
               resultDict)
      end
  end.

Definition mergeOrderedNonOverlappingStreams (resps : list LokiResponse.t)
    (limit : N) (direction : Direction) : list Stream.t :=
  let '(groups, total) := groupStreams direction limit resps (∅, 0) in
  let keys := sortedKeys direction groups in
  if decide (total ≤ Z.of_N limit) then
    (λ key, Stream.mk key (mergedEntries groups key)) <$> keys
  else
    let pq :=
      priorityqueue.mk
        (filter (λ stream, 0 < length (Stream.Entries stream))%nat
                ((λ key, Stream.mk key (mergedEntries groups key)) <$> keys))
        direction in
    let resultDict := popEntries (N.to_nat limit) pq ∅ in
    omap (λ key, resultDict !! key) keys.

(** [LokiResponse.Count] *)
Definition Count (streams : list Stream.t) : Z :=
  foldl (λ result s, result + Z.of_nat (length (Stream.Entries s))) 0 streams.
End merge_streams.

(** ** Merging typed responses *)

Section merge_response.
Context {opq : Opaque} {col : Collaborators}.

Definition dynamicTypeOf (res : Response) : string :=
  match res with
  | MetricResponse _ => "*queryrange.LokiPromResponse"
  | LogStreamResponse _ => "*queryrange.LokiResponse"
  | SeriesResponse _ => "*queryrange.LokiSeriesResponse"
  | LabelNamesResponse _ => "*queryrange.LokiLabelNamesResponse"
  | OtherResponse ty => ty
  end.

(** What the run time does when a type assertion [res.(T)] without the
    comma-ok form meets another dynamic type. *)
Definition conversionPanic {A} (res : Response) (want : string) : outcome A :=
  Panic ("interface conversion: queryrange.Response is "
           +:+ dynamicTypeOf res +:+ ", not " +:+ want).

(** The type assertion of [res] to [*LokiPromResponse]. *)
Definition assertLokiPromResponse (res : Response) : outcome LokiPromResponse.t :=
  match res with
  | MetricResponse r => Ok r
  | _ => conversionPanic res "*queryrange.LokiPromResponse"
  end.

(** The type assertion of [res] to [*LokiResponse]. *)
Definition assertLokiResponse (res : Response) : outcome LokiResponse.t :=
  match res with
  | LogStreamResponse r => Ok r
  | _ => conversionPanic res "*queryrange.LokiResponse"
  end.

(** The type assertion of [res] to [*LokiSeriesResponse]. *)
Definition assertLokiSeriesResponse (res : Response)
  : outcome LokiSeriesResponse.t :=
  match res with
  | SeriesResponse r => Ok r
  | _ => conversionPanic res "*queryrange.LokiSeriesResponse"
  end.

(** The type assertion of [res] to [*LokiLabelNamesResponse]. *)
Definition assertLokiLabelNamesResponse (res : Response)
  : outcome LokiLabelNamesResponse.t :=
  match res with
  | LabelNamesResponse r => Ok r
  | _ => conversionPanic res "*queryrange.LokiLabelNamesResponse"
  end.

(** The loop of the [*LokiPromResponse] case. *)
Fixpoint mergePromLoop (responses : list Response)
    (mergedStats : stats_Result)
    (promResponses : list (option PrometheusResponse.t))
  : outcome (stats_Result * list (option PrometheusResponse.t)) :=
  match responses with
  | [] => Ok (mergedStats, promResponses)
  | res :: rest =>
      r ← assertLokiPromResponse res;
      mergePromLoop rest
        (stats_Result_Merge mergedStats (LokiPromResponse.Statistics r))
        (promResponses ++ [LokiPromResponse.Response r])
  end.

(** The loop of the [*LokiResponse] case. *)
Fixpoint mergeLokiLoop (responses : list Response)
    (mergedStats : stats_Result) (lokiResponses : list LokiResponse.t)
  : outcome (stats_Result * list LokiResponse.t) :=
  match responses with
  | [] => Ok (mergedStats, lokiResponses)
  | res :: rest =>
      lokiResult ← assertLokiResponse res;
      mergeLokiLoop rest
        (stats_Result_Merge mergedStats (LokiResponse.Statistics lokiResult))
        (lokiResponses ++ [lokiResult])
  end.

(** The inner loop of the [*LokiSeriesResponse] case: a series is kept
    when its string form has not been seen. *)
Definition addSeries
    (acc : list SeriesIdentifier.t * gset string)
    (series : SeriesIdentifier.t) : list SeriesIdentifier.t * gset string :=
  let '(lokiSeriesData, uniqueSeries) := acc in
  if decide (SeriesIdentifier_String series ∈ uniqueSeries) then acc
  else (lokiSeriesData ++ [series],
        {[SeriesIdentifier_String series]} ∪ uniqueSeries).

Fixpoint mergeSeriesLoop (responses : list Response)
    (acc : list SeriesIdentifier.t * gset string)
  : outcome (list SeriesIdentifier.t * gset string) :=
  match responses with
  | [] => Ok acc
  | res :: rest =>
      lokiResult ← assertLokiSeriesResponse res;
      mergeSeriesLoop rest
        (foldl addSeries acc (LokiSeriesResponse.Data lokiResult))
  end.

(** The inner loop of the [*LokiLabelNamesResponse] case. *)
Definition addName (acc : list string * gset string) (labelName : string)
  : list string * gset string :=
  let '(names, uniqueNames) := acc in
  if decide (labelName ∈ uniqueNames) then acc
  else (names ++ [labelName], {[labelName]} ∪ uniqueNames).

Fixpoint mergeNamesLoop (responses : list Response)
    (acc : list string * gset string) : outcome (list string * gset string) :=
  match responses with
  | [] => Ok acc
  | res :: rest =>
      lokiResult ← assertLokiLabelNamesResponse res;
      mergeNamesLoop rest
        (foldl addName acc (LokiLabelNamesResponse.Data lokiResult))
  end.

Definition mergeMetric (responses : list Response) : outcome Response :=
  '(mergedStats, promResponses) ← mergePromLoop responses stats_Result_zero [];
  promRes ← PrometheusCodec_MergeResponse promResponses;
  Ok (MetricResponse (LokiPromResponse.mk (Some promRes) mergedStats)).

Definition mergeLogStream (lokiRes : LokiResponse.t)
    (responses : list Response) : outcome Response :=
  '(mergedStats, lokiResponses) ← mergeLokiLoop responses stats_Result_zero [];
  Ok (LogStreamResponse
        (LokiResponse.mk
           QueryStatusSuccess
           (LokiData.mk ResultTypeStream
              (mergeOrderedNonOverlappingStreams lokiResponses
                 (LokiResponse.Limit lokiRes) (LokiResponse.Direction lokiRes)))
           mergedStats
           (LokiResponse.Direction lokiRes)
           (LokiResponse.Limit lokiRes)
           (LokiResponse.Version lokiRes)
           (LokiResponse.ErrorType lokiRes)
           (LokiResponse.Error lokiRes)
           [])).

Definition mergeSeries (lokiSeriesRes : LokiSeriesResponse.t)
    (responses : list Response) : outcome Response :=
  '(lokiSeriesData, _) ← mergeSeriesLoop responses ([], ∅);
  Ok (SeriesResponse
        (LokiSeriesResponse.mk (LokiSeriesResponse.Status lokiSeriesRes)
           lokiSeriesData (LokiSeriesResponse.Version lokiSeriesRes) [])).

Definition mergeLabelNames (labelNameRes : LokiLabelNamesResponse.t)
    (responses : list Response) : outcome Response :=
  '(names, _) ← mergeNamesLoop responses ([], ∅);
  Ok (LabelNamesResponse
        (LokiLabelNamesResponse.mk (LokiLabelNamesResponse.Status labelNameRes)
           names (LokiLabelNamesResponse.Version labelNameRes) [])).

(** [Codec.MergeResponse] *)
Definition MergeResponse (responses : list Response) : outcome Response :=
  match responses with
  | [] => Err (errors_New "merging responses requires at least one response")
  | first :: _ =>
      match first with
      | MetricResponse _ => mergeMetric responses
      | LogStreamResponse lokiRes => mergeLogStream lokiRes responses
      | SeriesResponse lokiSeriesRes => mergeSeries lokiSeriesRes responses
      | LabelNamesResponse labelNameRes => mergeLabelNames labelNameRes responses
      | OtherResponse _ => Err (errors_New "unknown response in merging responses")
      end
  end.
End merge_response.

(** The specification of the union of series and of label names, in its
    words: no duplicates, order of first appearance. The element at position
    [i] of [l] is kept when no earlier position holds an element with the
    same key. *)
Definition firstAppearances {A} (key : A → string) (l : list A) : list A :=
  omap (λ i, x ← l !! i;
             if decide (key x ∈ key <$> take i l) then None else Some x)
       (seq 0 (length l)).

(** ** Handlers and the calling context *)

(** What this package reads from a [context.Context]. *)
Module RequestContext.
Record t := mk {
  (** [tenant.TenantIDs(ctx)]: the tenants, or the text of the error *)
  TenantIDs : string + list string;
  (** [getQueryTags(ctx)] *)
  QueryTags : string
}.
End RequestContext.

(** The world behind the next handler: the state [S] of whatever serves the
    requests, and the requests handed to it so far, oldest first. *)
Module World.
Record t (S : Type) := mk {
  state : S;
  calls : list Request
}.
Arguments mk {S} state calls.
Arguments state {S} _.
Arguments calls {S} _.
End World.

Section handlers.
Context {opq : Opaque}.

(** A [queryrange.Handler]: it answers a request and may change its state. *)
Definition Handler (S : Type) : Type := Request → S → outcome Response * S.

(** [next.Do(ctx, r)] *)
Definition dispatch {S} (next : Handler S) (r : Request) (w : World.t S)
  : outcome Response * World.t S :=
  let '(res, s') := next r (World.state w) in
  (res, World.mk s' (World.calls w ++ [r])).
End handlers.

(** ** The limits middleware *)

(** [validation.SmallestPositiveNonZeroDurationPerTenant] of Cortex: the
    smallest strictly positive value of [f] over the tenants, 0 without
    one. *)
Definition SmallestPositiveNonZeroDurationPerTenant
    (tenantIDs : list string) (f : string → Z) : Z :=
  let result :=
    foldl (λ (result : option Z) tenantID,
             let v := f tenantID in
             match result with
             | None => if decide (0 < v) then Some v else result
             | Some cur => if decide (0 < v ∧ v < cur) then Some v else result
             end)
          None tenantIDs in
  default 0 result.

(** [util.TimeToMillis] of Cortex. *)
Definition TimeToMillis (t : Z) : Z := t ÷ (Millisecond ÷ Nanosecond).

(** [timestamp.Time] of Prometheus: the instant of a millisecond stamp. *)
Definition timestamp_Time (ms : Z) : Z := ms * Millisecond.

(** [time.Time.Sub]: the difference, kept within the range of a
    [time.Duration]. *)
Definition time_Sub (t u : Z) : Z :=
  let d := t - u in
  if decide (d < int64_min) then int64_min
  else if decide (int64_max < d) then int64_max
  else d.

(** [validation.ErrQueryTooLong] of Cortex. *)
Definition ErrQueryTooLong : string :=
  "the query time range exceeds the limit (query length: %s, limit: %s)".

Definition limitErrTmpl : string :=
  "maximum of series (%d) reached for a single query".

Section limits_middleware.
Context {opq : Opaque} {col : Collaborators}.

(** [queryrange.NewEmptyPrometheusResponse] of Cortex. *)
Definition NewEmptyPrometheusResponse : PrometheusResponse.t :=
  PrometheusResponse.mk QueryStatusSuccess
    (PrometheusData.mk ResultTypeMatrix []) EmptyString EmptyString [].

Definition NewEmptyResponse (r : Request) : outcome Response :=
  match r with
  | SeriesQuery req =>
      Ok (SeriesResponse
            (LokiSeriesResponse.mk QueryStatusSuccess []
               (GetVersion (LokiSeriesRequest.Path req)) []))
  | LabelNamesQuery req =>
      Ok (LabelNamesResponse
            (LokiLabelNamesResponse.mk QueryStatusSuccess []
               (GetVersion (LokiLabelNamesRequest.Path req)) []))
  | InstantQuery _ =>
      Ok (MetricResponse
            (LokiPromResponse.mk
               (Some (PrometheusResponse.mk QueryStatusSuccess
                        (PrometheusData.mk ResultTypeVector []) EmptyString EmptyString []))
               stats_Result_zero))
  | RangeQuery req =>
      match ParseExpr (LokiRequest.Query req) with
      | inl err => Err (httpgrpc_Errorf StatusBadRequest err [])
      | inr expr =>
          if isSampleExpr expr then
            Ok (MetricResponse
                  (LokiPromResponse.mk (Some NewEmptyPrometheusResponse)
                     stats_Result_zero))
          else
            Ok (LogStreamResponse
                  (LokiResponse.mk QueryStatusSuccess
                     (LokiData.mk ResultTypeStream [])
                     stats_Result_zero
                     (LokiRequest.Direction req)
                     (LokiRequest.Limit req)
                     (GetVersion (LokiRequest.Path req))
                     EmptyString EmptyString []))
      end
  end.

(** The block of [limitsMiddleware.Do] that clamps the time range: the
    response to return at once, or the request to go on with. *)
Definition clampLookback (maxQueryLookback now : Z) (r : Request)
  : outcome Response + Request :=
  if decide (0 < maxQueryLookback) then
    let minStartTime := TimeToMillis (now + - maxQueryLookback) in
    if decide (GetEnd r < minStartTime) then inl (NewEmptyResponse r)
    else if decide (GetStart r < minStartTime) then
      inr (WithStartEnd r minStartTime (GetEnd r))
    else inr r
  else inr r.

(** [queryLen] of [limitsMiddleware.Do]. *)
Definition queryLen (r : Request) : Z :=
  time_Sub (timestamp_Time (GetEnd r)) (timestamp_Time (GetStart r)).

(** [limitsMiddleware.Do]; [now] is what [time.Now()] returns. *)
Definition limitsMiddleware_Do {S} (l : Limits) (next : Handler S)
    (now : Z) (ctx : RequestContext.t) (r : Request) (w : World.t S)
  : outcome Response * World.t S :=
  match RequestContext.TenantIDs ctx with
  | inl err => (Err (httpgrpc_Errorf StatusBadRequest err []), w)
  | inr tenantIDs =>
      let maxQueryLookback :=
        SmallestPositiveNonZeroDurationPerTenant tenantIDs (MaxQueryLookback l) in
      match clampLookback maxQueryLookback now r with
      | inl empty => (empty, w)
      | inr r =>
          let maxQueryLength :=
            SmallestPositiveNonZeroDurationPerTenant tenantIDs (MaxQueryLength l) in
          if decide (0 < maxQueryLength ∧ maxQueryLength < queryLen r) then
            (Err (httpgrpc_Errorf StatusBadRequest ErrQueryTooLong
                    [ArgDuration (queryLen r); ArgDuration maxQueryLength]), w)
          else dispatch next r w
      end
  end.
End limits_middleware.

(** ** The series limiter *)

Module seriesLimiter.
(** The mutex and the hashing buffer carry no information; [next] is
    given to [Do]. *)
Record t := mk {
  hashes : gset N;
  maxSeries : Z
}.

(** [seriesLimiterMiddleware.Wrap] *)
Definition Wrap (slm : Z) : t := mk ∅ slm.

Definition isLimitReached (sl : t) : bool :=
  bool_decide (maxSeries sl < Z.of_nat (size (hashes sl))).

Section Do.
Context {opq : Opaque} {col : Collaborators}.

(** The loop over [promResponse.Response.Data.Result]. *)
Definition addHashes (sl : t) (result : list SampleStream.t) : t :=
  foldl (λ sl s,
           mk ({[HashWithoutLabels (SampleStream.Labels s)]} ∪ hashes sl)
              (maxSeries sl))
        sl result.

Definition limitError (sl : t) : error :=
  httpgrpc_Errorf StatusBadRequest limitErrTmpl [ArgInt (maxSeries sl)].

Definition Do {S} (next : Handler S) (sl : t) (req : Request)
    (w : World.t S) : outcome Response * t * World.t S :=
  if isLimitReached sl then (Err (limitError sl), sl, w)
  else
    let '(res, w') := dispatch next req w in
    match res with
    | Ok (MetricResponse promResponse) =>
        match LokiPromResponse.Response promResponse with
        | None => (res, sl, w')
        | Some response =>
            let sl' :=
              addHashes sl
                (PrometheusData.Result (PrometheusResponse.Data response)) in
            if isLimitReached sl' then (Err (limitError sl'), sl', w')
            else (res, sl', w')
        end
    | _ => (res, sl, w')
    end.

(** The sub-requests of one outer request, one after the other. *)
Fixpoint DoAll {S} (next : Handler S) (sl : t) (reqs : list Request)
    (w : World.t S) : list (outcome Response) * t * World.t S :=
  match reqs with
  | [] => ([], sl, w)
  | req :: rest =>
      let '(res, sl', w') := Do next sl req w in
      let '(ress, sl'', w'') := DoAll next sl' rest w' in
      (res :: ress, sl'', w'')
  end.
End Do.
End seriesLimiter.

(** ** The request codec *)

(** [url.Values] *)
Abbreviation Values := (gmap string (list string)).

(** [url.Values.Get]: the first value of a key, the empty string without one. *)
Definition Values_Get (v : Values) (key : string) : string :=
  match v !! key with
  | Some (x :: _) => x
  | _ => EmptyString
  end.

(** [url.Values.Encode] followed by the parsing of the query string it
    writes. The query string itself is not modelled: it is kept as the values
    it parses to, which are the encoded ones without the keys that have no
    value. *)
Definition Values_Encode (v : Values) : Values :=
  filter (λ kv, kv.2 ≠ []) v.

Module http_Request.
(** The fields of an [http.Request] that the codec reads or writes.
    [URL_RawQuery] is [None] for a query string that does not parse. *)
Record t := mk {
  Method : string;
  URL_Path : string;
  URL_RawQuery : option Values;
  Header : gmap string (list string)
}.

(** [r.ParseForm()] then [r.Form], for a request without a body, as the
    GET requests that [EncodeRequest] writes: the form is the parsed query
    string. The method, the Content-Type header and the body, which
    [ParseForm] reads for a POST, PUT or PATCH, are not part of the
    model. *)
Definition ParseForm (r : t) : string + Values :=
  match URL_RawQuery r with
  | None => inl "invalid URL escape"
  | Some form => inr form
  end.
End http_Request.

Definition QueryTagsHTTPHeader : string := "X-Query-Tags".

Inductive Operation :=
| QueryRangeOp | InstantQueryOp | SeriesOp | LabelNamesOp | UnknownOp.

(** [strings.HasSuffix] *)
Definition HasSuffix (s suffix : string) : bool :=
  String.prefix (String.rev suffix) (String.rev s).

(** Modelled from the spec: [getOperation] is not in the sources at hand.
    Section 4.1 dispatches on the suffix of the URL path. *)
Definition getOperation (path : string) : Operation :=
  if HasSuffix path "/query_range" then QueryRangeOp
  else if HasSuffix path "/query" then InstantQueryOp
  else if HasSuffix path "/series" then SeriesOp
  else if HasSuffix path "/labels" then LabelNamesOp
  else UnknownOp.

(** The reading of a decimal integer. *)
Definition parse_d (s : string) : option Z :=
  Z.of_int <$> NilZero.int_of_string s.

Module loghttp.
(** The parsers of package [loghttp] and [logql.ParseAndValidateSeriesQuery]
    are not in the sources at hand. Section 4.1 of the specification gives
    the wire parameters: [start], [end] and [time] are nanoseconds, [step]
    is a floating-point number of seconds, [limit] an integer, [direction]
    is FORWARD or BACKWARD, [shards] and [match[]] are repeated. The
    parameters that [EncodeRequest] always writes are required here; what
    the parsers do without them is not specified. *)

(** Modelled from the spec: the reading of [start], [end] and [time], a
    count of nanoseconds that fits [int64]. *)
Definition parseTimestamp (value : string) : string + Z :=
  match parse_d value with
  | Some ns =>
      if decide (int64_min ≤ ns ≤ int64_max) then inr ns
      else inl "invalid time"
  | None => inl "invalid time"
  end.

(** Modelled from the spec: the reading of [limit], an integer that fits
    [uint32]. *)
Definition parseLimit (value : string) : string + N :=
  match parse_d value with
  | Some l =>
      if decide (0 ≤ l < 2 ^ 32) then inr (Z.to_N l)
      else inl "invalid limit"
  | None => inl "invalid limit"
  end.

(** Modelled from the spec: the reading of [direction], FORWARD or
    BACKWARD in either case. *)
Definition parseDirection (value : string) : string + Direction :=
  if decide (value = "FORWARD" ∨ value = "forward") then inr FORWARD
  else if decide (value = "BACKWARD" ∨ value = "backward") then inr BACKWARD
  else inl "invalid direction".

(** Modelled from the spec: the repeated parameter [shards]. *)
Definition shards (form : Values) : list string :=
  default [] (form !! "shards").

(** Modelled from the spec: the results of the parsers, with the fields
    that [DecodeRequest] reads. *)
Record RangeQuery := mkRangeQuery {
  RangeQuery_Start : Z;
  RangeQuery_End : Z;
  RangeQuery_Step : Z;
  RangeQuery_Query : string;
  RangeQuery_Direction : Direction;
  RangeQuery_Limit : N;
  RangeQuery_Shards : list string
}.

Record InstantQuery := mkInstantQuery {
  InstantQuery_Ts : Z;
  InstantQuery_Query : string;
  InstantQuery_Direction : Direction;
  InstantQuery_Limit : N;
  InstantQuery_Shards : list string
}.

Record SeriesQuery := mkSeriesQuery {
  SeriesQuery_Start : Z;
  SeriesQuery_End : Z;
  SeriesQuery_Groups : list string;
  SeriesQuery_Shards : list string
}.

(** [Start] and [End] are pointers in the source: [None] is [nil]. *)
Record LabelRequest := mkLabelRequest {
  LabelRequest_Start : option Z;
  LabelRequest_End : option Z
}.

(** Sequencing of parsers: the first error ends the parsing. *)
Definition sbind {A B} (x : string + A) (f : A → string + B) : string + B :=
  match x with
  | inl err => inl err
  | inr a => f a
  end.

Section parsers.
Context {opq : Opaque} {col : Collaborators}.

(** Modelled from the spec: [loghttp.ParseRangeQuery]. *)
Definition ParseRangeQuery (form : Values) : string + RangeQuery :=
  sbind (parseTimestamp (Values_Get form "start")) (λ start,
  sbind (parseTimestamp (Values_Get form "end")) (λ end_,
  sbind (parseLimit (Values_Get form "limit")) (λ limit,
  sbind (parseDirection (Values_Get form "direction")) (λ direction,
  sbind (parseStepSeconds (Values_Get form "step")) (λ step,
  inr (mkRangeQuery start end_ step (Values_Get form "query") direction
         limit (shards form))))))).

(** Modelled from the spec: [loghttp.ParseInstantQuery]. *)
Definition ParseInstantQuery (form : Values) : string + InstantQuery :=
  sbind (parseTimestamp (Values_Get form "time")) (λ ts,
  sbind (parseLimit (Values_Get form "limit")) (λ limit,
  sbind (parseDirection (Values_Get form "direction")) (λ direction,
  inr (mkInstantQuery ts (Values_Get form "query") direction limit
         (shards form))))).

(** Modelled from the spec: [logql.ParseAndValidateSeriesQuery]. *)
Definition ParseAndValidateSeriesQuery (form : Values) : string + SeriesQuery :=
  sbind (parseTimestamp (Values_Get form "start")) (λ start,
  sbind (parseTimestamp (Values_Get form "end")) (λ end_,
  inr (mkSeriesQuery start end_ (default [] (form !! "match[]"))
         (shards form)))).

(** Modelled from the spec: [loghttp.ParseLabelQuery]. *)
Definition ParseLabelQuery (form : Values) : string + LabelRequest :=
  sbind (parseTimestamp (Values_Get form "start")) (λ start,
  sbind (parseTimestamp (Values_Get form "end")) (λ end_,
  inr (mkLabelRequest (Some start) (Some end_)))).
End parsers.
End loghttp.

Section codec.
Context {opq : Opaque} {col : Collaborators}.

Definition badRequest {A} (err : string) : outcome A :=
  Err (httpgrpc_Errorf StatusBadRequest err []).

(** The dereference of a pointer. *)
Definition deref {A} (p : option A) : outcome A :=
  match p with
  | Some a => Ok a
  | None => Panic "runtime error: invalid memory address or nil pointer dereference"
  end.

(** [Codec.DecodeRequest]; no header is forwarded. *)
Definition DecodeRequest (r : http_Request.t) : outcome Request :=
  match http_Request.ParseForm r with
  | inl err => badRequest err
  | inr form =>
      let path := http_Request.URL_Path r in
      match getOperation path with
      | QueryRangeOp =>
          match loghttp.ParseRangeQuery form with
          | inl err => badRequest err
          | inr req =>
              Ok (RangeQuery
                    (LokiRequest.mk
                       (loghttp.RangeQuery_Query req)
                       (loghttp.RangeQuery_Limit req)
                       (loghttp.RangeQuery_Step req ÷ 1000000)
                       (loghttp.RangeQuery_Start req)
                       (loghttp.RangeQuery_End req)
                       (loghttp.RangeQuery_Direction req)
                       path
                       (loghttp.RangeQuery_Shards req)))
          end
      | InstantQueryOp =>
          match loghttp.ParseInstantQuery form with
          | inl err => badRequest err
          | inr req =>
              Ok (InstantQuery
                    (LokiInstantRequest.mk
                       (loghttp.InstantQuery_Query req)
                       (loghttp.InstantQuery_Limit req)
                       (loghttp.InstantQuery_Ts req)
                       (loghttp.InstantQuery_Direction req)
                       path
                       (loghttp.InstantQuery_Shards req)))
          end
      | SeriesOp =>
          match loghttp.ParseAndValidateSeriesQuery form with
          | inl err => badRequest err
          | inr req =>
              Ok (SeriesQuery
                    (LokiSeriesRequest.mk
                       (loghttp.SeriesQuery_Groups req)
                       (loghttp.SeriesQuery_Start req)
                       (loghttp.SeriesQuery_End req)
                       path
                       (loghttp.SeriesQuery_Shards req)))
          end
      | LabelNamesOp =>
          match loghttp.ParseLabelQuery form with
          | inl err => badRequest err
          | inr req =>
              start ← deref (loghttp.LabelRequest_Start req);
              end_ ← deref (loghttp.LabelRequest_End req);
              Ok (LabelNamesQuery (LokiLabelNamesRequest.mk start end_ path))
          end
      | UnknownOp => badRequest ("unknown request path: " +:+ path)
      end
  end.

Definition encodeHeader (ctx : RequestContext.t) : gmap string (list string) :=
  let queryTags := RequestContext.QueryTags ctx in
  if decide (queryTags ≠ EmptyString) then {[QueryTagsHTTPHeader := [queryTags]]}
  else ∅.

(** [Codec.EncodeRequest]. Every value of [Request] is one of the four
    request types, so the [default] case of the source has no counterpart. *)
Definition EncodeRequest (ctx : RequestContext.t) (r : Request)
  : outcome http_Request.t :=
  let header := encodeHeader ctx in
  match r with
  | RangeQuery request =>
      let params : Values :=
        {[ "start" := [fmt_d (LokiRequest.StartTs request)];
           "end" := [fmt_d (LokiRequest.EndTs request)];
           "query" := [LokiRequest.Query request];
           "direction" := [Direction_String (LokiRequest.Direction request)];
           "limit" := [fmt_d (Z.of_N (LokiRequest.Limit request))] ]} in
      let params :=
        if decide (0 < length (LokiRequest.Shards request))%nat
        then <["shards" := LokiRequest.Shards request]> params else params in
      let params :=
        if decide (LokiRequest.Step request ≠ 0)
        then <["step" := [Sprintf_f_seconds (LokiRequest.Step request)]]> params
        else params in
      Ok (http_Request.mk "GET" "/loki/api/v1/query_range"
            (Some (Values_Encode params)) header)
  | SeriesQuery request =>
      let params : Values :=
        {[ "start" := [fmt_d (LokiSeriesRequest.StartTs request)];
           "end" := [fmt_d (LokiSeriesRequest.EndTs request)];
           "match[]" := LokiSeriesRequest.Match request ]} in
      let params :=
        if decide (0 < length (LokiSeriesRequest.Shards request))%nat
        then <["shards" := LokiSeriesRequest.Shards request]> params
        else params in
      Ok (http_Request.mk "GET" "/loki/api/v1/series"
            (Some (Values_Encode params)) header)
  | LabelNamesQuery request =>
      let params : Values :=
        {[ "start" := [fmt_d (LokiLabelNamesRequest.StartTs request)];
           "end" := [fmt_d (LokiLabelNamesRequest.EndTs request)] ]} in
      Ok (http_Request.mk "GET" "/loki/api/v1/labels"
            (Some (Values_Encode params)) header)
  | InstantQuery request =>
      let params : Values :=
        {[ "query" := [LokiInstantRequest.Query request];
           "direction" := [Direction_String (LokiInstantRequest.Direction request)];
           "limit" := [fmt_d (Z.of_N (LokiInstantRequest.Limit request))];
           "time" := [fmt_d (LokiInstantRequest.TimeTs request)] ]} in
      let params :=
        if decide (0 < length (LokiInstantRequest.Shards request))%nat
        then <["shards" := LokiInstantRequest.Shards request]> params
        else params in
      Ok (http_Request.mk "GET" "/loki/api/v1/query"
            (Some (Values_Encode params)) header)
  end.
End codec.

(** ** Notions of the specification *)

(** The time stamps a request carries. A [time.Time] stands for its
    [UnixNano()], which Go defines when it fits 64 bits. *)
Definition requestTimes (r : Request) : list Z :=
  match r with
  | RangeQuery q => [LokiRequest.StartTs q; LokiRequest.EndTs q]
  | InstantQuery q => [LokiInstantRequest.TimeTs q]
  | SeriesQuery q => [LokiSeriesRequest.StartTs q; LokiSeriesRequest.EndTs q]
  | LabelNamesQuery q =>
      [LokiLabelNamesRequest.StartTs q; LokiLabelNamesRequest.EndTs q]
  end.

Definition timesInRange (r : Request) : Prop := Forall in_int64 (requestTimes r).

(** An empty typed response of the shape that answers [r]: no series for a
    series query, no names for a label-names query, a metric response
    without sample streams for an instant query, and for a range query a
    metric response without sample streams or a log-stream response without
    streams. *)
Definition emptyResponseFor {opq : Opaque} (r : Request) (res : Response) : Prop :=
  match r, res with
  | SeriesQuery _, SeriesResponse s => LokiSeriesResponse.Data s = []
  | LabelNamesQuery _, LabelNamesResponse n => LokiLabelNamesResponse.Data n = []
  | InstantQuery _, MetricResponse p
  | RangeQuery _, MetricResponse p =>
      ∃ prom, LokiPromResponse.Response p = Some prom
              ∧ PrometheusData.Result (PrometheusResponse.Data prom) = []
  | RangeQuery _, LogStreamResponse s =>
      LokiData.Result (LokiResponse.Data s) = []
  | _, _ => False
  end.

(** [x] does not come after [y] in the direction of the query. *)
Definition entryBefore (d : Direction) (x y : Entry.t) : Prop :=
  match d with
  | FORWARD => Entry.Timestamp x ≤ Entry.Timestamp y
  | BACKWARD => Entry.Timestamp y ≤ Entry.Timestamp x
  end.

(** [x] comes strictly before [y] in the direction of the query. *)
Definition entryStrictlyBefore (d : Direction) (x y : Entry.t) : Prop :=
  match d with
  | FORWARD => Entry.Timestamp x < Entry.Timestamp y
  | BACKWARD => Entry.Timestamp y < Entry.Timestamp x
  end.

Global Instance entryBefore_dec (d : Direction) : RelDecision (entryBefore d).
Proof. intros x y. destruct d; simpl; apply _. Defined.

Global Instance entryStrictlyBefore_dec (d : Direction) :
  RelDecision (entryStrictlyBefore d).
Proof. intros x y. destruct d; simpl; apply _. Defined.

(** Entries sorted by the direction: no entry comes after a later one. *)
Definition sortedEntries (d : Direction) (es : list Entry.t) : Prop :=
  StronglySorted (entryBefore d) es.

(** Two runs of entries do not overlap in time: one of them lies entirely
    before the other. *)
Definition nonOverlapping (d : Direction) (a b : list Entry.t) : Prop :=
  (∀ x y, x ∈ a → y ∈ b → entryStrictlyBefore d x y)
  ∨ (∀ x y, x ∈ a → y ∈ b → entryStrictlyBefore d y x).

(** [R] holds between any two elements of [l] at distinct positions, the
    earlier one first. *)
Definition pairwise {A} (R : relation A) (l : list A) : Prop :=
  ∀ i j x y, (i < j)%nat → l !! i = Some x → l !! j = Some y → R x y.

Section stream_notions.
Context {opq : Opaque}.

(** The streams of the responses, in sequence. *)
Definition allStreams (resps : list LokiResponse.t) : list Stream.t :=
  concat ((λ resp, LokiData.Result (LokiResponse.Data resp)) <$> resps).

(** The precondition of the merge: every stream is sorted by the
    direction, and two streams with the same labels do not overlap. *)
Definition orderedNonOverlapping (d : Direction)
    (resps : list LokiResponse.t) : Prop :=
  Forall (λ s, sortedEntries d (Stream.Entries s)) (allStreams resps)
  ∧ pairwise (λ s1 s2, Stream.Labels s1 = Stream.Labels s2 →
                       nonOverlapping d (Stream.Entries s1) (Stream.Entries s2))
             (allStreams resps).
End stream_notions.

(** The path [EncodeRequest] writes for each request type. *)
Definition canonicalPath (r : Request) : string :=
  match r with
  | RangeQuery _ => "/loki/api/v1/query_range"
  | InstantQuery _ => "/loki/api/v1/query"
  | SeriesQuery _ => "/loki/api/v1/series"
  | LabelNamesQuery _ => "/loki/api/v1/labels"
  end.

Definition requestPath (r : Request) : string :=
  match r with
  | RangeQuery q => LokiRequest.Path q
  | InstantQuery q => LokiInstantRequest.Path q
  | SeriesQuery q => LokiSeriesRequest.Path q
  | LabelNamesQuery q => LokiLabelNamesRequest.Path q
  end.

(** [r'] is of the type of [r] and has its query, times, limit, direction,
    shards and matchers. *)
Definition sameQuery (r r' : Request) : Prop :=
  match r, r' with
  | RangeQuery q, RangeQuery q' =>
      LokiRequest.Query q' = LokiRequest.Query q
      ∧ LokiRequest.StartTs q' = LokiRequest.StartTs q
      ∧ LokiRequest.EndTs q' = LokiRequest.EndTs q
      ∧ LokiRequest.Limit q' = LokiRequest.Limit q
      ∧ LokiRequest.Direction q' = LokiRequest.Direction q
      ∧ LokiRequest.Shards q' = LokiRequest.Shards q
  | InstantQuery q, InstantQuery q' =>
      LokiInstantRequest.Query q' = LokiInstantRequest.Query q
      ∧ LokiInstantRequest.TimeTs q' = LokiInstantRequest.TimeTs q
      ∧ LokiInstantRequest.Limit q' = LokiInstantRequest.Limit q
      ∧ LokiInstantRequest.Direction q' = LokiInstantRequest.Direction q
      ∧ LokiInstantRequest.Shards q' = LokiInstantRequest.Shards q
  | SeriesQuery q, SeriesQuery q' =>
      LokiSeriesRequest.Match q' = LokiSeriesRequest.Match q
      ∧ LokiSeriesRequest.StartTs q' = LokiSeriesRequest.StartTs q
      ∧ LokiSeriesRequest.EndTs q' = LokiSeriesRequest.EndTs q
      ∧ LokiSeriesRequest.Shards q' = LokiSeriesRequest.Shards q
  | LabelNamesQuery q, LabelNamesQuery q' =>
      LokiLabelNamesRequest.StartTs q' = LokiLabelNamesRequest.StartTs q
      ∧ LokiLabelNamesRequest.EndTs q' = LokiLabelNamesRequest.EndTs q
  | _, _ => False
  end.

(** The limit of a request as a [uint32]. *)
Definition limitInRange (r : Request) : Prop :=
  match r with
  | RangeQuery q => (LokiRequest.Limit q < 2 ^ 32)%N
  | InstantQuery q => (LokiInstantRequest.Limit q < 2 ^ 32)%N
  | _ => True
  end.

(** The [step] parameter that [EncodeRequest] writes for a range query, as
    [Values.Get] reads it back. *)
Definition stepParameter {opq : Opaque} {col : Collaborators}
    (q : LokiRequest.t) : string :=
  if decide (LokiRequest.Step q ≠ 0) then Sprintf_f_seconds (LokiRequest.Step q)
  else EmptyString.


(** ** Notions used in the proofs *)

(** Both unions run the same loop body, up to the key. *)
Definition addKeyed {A} (key : A → string) (acc : list A * gset string)
    (x : A) : list A * gset string :=
  if decide (key x ∈ acc.2) then acc else (acc.1 ++ [x], {[key x]} ∪ acc.2).

Section proof_notions.
Variable d : Direction.

(** The first run does not start after the second, in the direction [d]. *)
Definition startBefore (x y : list Entry.t) : Prop := byDir.before d x y = true.

(** Every entry of the first run is at or before every entry of the second. *)
Definition precedes (a b : list Entry.t) : Prop :=
  ∀ x y, x ∈ a → y ∈ b → entryBefore d x y.

(** The runs of entries under the labels [k], in order. *)
Definition runsOf (k : string) (streams : list Stream.t) : list (list Entry.t) :=
  Stream.Entries <$> filter (λ s, Stream.Labels s = k) streams.

Definition markersIn (groups : gmap string byDir.t) (k : string)
  : list (list Entry.t) :=
  match groups !! k with
  | Some g => byDir.markers g
  | None => []
  end.

Definition countEntries (streams : list Stream.t) : nat :=
  sum_list_with (λ s, length (Stream.Entries s)) streams.

(** What the loops have built once [streams] have been taken in. *)
Definition grouped (streams : list Stream.t)
    (acc : gmap string byDir.t * Z) : Prop :=
  (∀ k g, acc.1 !! k = Some g → byDir.direction g = d)
  ∧ acc.2 = Z.of_nat (countEntries streams)
  ∧ (∀ k, markersIn acc.1 k = runsOf k streams)
  ∧ (∀ k, is_Some (acc.1 !! k) ↔ k ∈ Stream.Labels <$> streams).

Definition rdEntries (resultDict : gmap string Stream.t) (k : string)
  : list Entry.t :=
  match resultDict !! k with
  | Some s => Stream.Entries s
  | None => []
  end.

Definition pqEntries (k : string) (streams : list Stream.t) : list Entry.t :=
  concat (runsOf k streams).
End proof_notions.

Section queue_notions.
(** The keys, and the merged entries of each key. *)
Variable keys : list string.
Variable merged : string → list Entry.t.

(** The queue holds one stream per labels, none of them empty, and for
    every labels the entries popped so far followed by the entries still
    queued are the merged entries. *)
Definition queueInv (pq : priorityqueue.t)
    (resultDict : gmap string Stream.t) : Prop :=
  NoDup (Stream.Labels <$> priorityqueue.streams pq)
  ∧ Forall (λ s, Stream.Entries s ≠ []) (priorityqueue.streams pq)
  ∧ Forall (λ s, Stream.Labels s ∈ keys) (priorityqueue.streams pq)
  ∧ (∀ k, rdEntries resultDict k ++ pqEntries k (priorityqueue.streams pq)
          = merged k)
  ∧ (∀ k s, resultDict !! k = Some s → Stream.Labels s = k).
End queue_notions.

(** ** Further notions used in the properties *)

(** [queryrange.Request.WithQuery] on the dynamic type of the request. *)
Definition WithQuery (r : Request) (query : string) : Request :=
  match r with
  | RangeQuery q => RangeQuery (LokiRequest.WithQuery q query)
  | InstantQuery q => InstantQuery (LokiInstantRequest.WithQuery q query)
  | SeriesQuery q => SeriesQuery (LokiSeriesRequest.WithQuery q query)
  | LabelNamesQuery q => LabelNamesQuery (LokiLabelNamesRequest.WithQuery q query)
  end.

(** The colon, character 58. *)
Definition colon : Ascii.ascii :=
  Ascii.Ascii false true false true true true false false.

(** No character of the string is a colon. *)
Fixpoint noColon (s : string) : Prop :=
  match s with
  | EmptyString => True
  | String c s' => c ≠ colon ∧ noColon s'
  end.

(** The order of the labels in a merged log-stream response: going up for
    a forward query and down for a backward one, compared byte by byte, and
    never twice the same. *)
Definition labelsBefore (d : Direction) (a b : string) : Prop :=
  a ≠ b
  ∧ match d with
    | FORWARD => String.le a b
    | BACKWARD => String.le b a
    end.

(** ** The Cloudflare target *)

Module cloudflare.
(** [time.Minute] and the constant [minDelay]: the newest window that may
    be pulled ends one minute ago. *)
Definition Minute : Z := 60 * Second.
Definition minDelay : Z := Minute.

(** The fields of [scrapeconfig.CloudflareConfig] that this package reads;
    [Workers] is an [int], [PullRange] a [model.Duration]. *)
Record CloudflareConfig := mkCloudflareConfig {
  APIToken : string;
  ZoneID : string;
  Workers : Z;
  PullRange : Z;
  FieldsType : string
}.

(** [pullRequest]; a [time.Time] is kept as its [UnixNano()]. *)
Record pullRequest := mkPullRequest {
  pullRequest_start : Z;
  pullRequest_end : Z
}.

(** [splitRequests]. The division panics for no worker; the loop does not
    run for a negative number of workers. *)
Definition splitRequests (start end_ : Z) (workers : Z)
  : outcome (list pullRequest) :=
  perWorker ← int64_div (time_Sub end_ start) workers;
  Ok ((λ i : nat,
         let r_start := start + int64_mul (Z.of_nat i) perWorker in
         let r_end := start + int64_mul (Z.of_nat i + 1) perWorker in
         mkPullRequest r_start
           (if decide (Z.of_nat i = workers - 1 ∧ r_end ≠ end_) then end_
            else r_end))
        <$> seq 0 (Z.to_nat workers)).

Section validate.
(** The constant [FieldsTypeDefault] is declared in another file of the
    package. *)
Variable FieldsTypeDefault : string.

(** [validateConfig]: the error, or [None] for [nil], and the configuration
    as the call leaves it behind the pointer. *)
Definition validateConfig (cfg : CloudflareConfig)
  : option error * CloudflareConfig :=
  let cfg :=
    if decide (FieldsType cfg = EmptyString)
    then mkCloudflareConfig (APIToken cfg) (ZoneID cfg) (Workers cfg)
           (PullRange cfg) FieldsTypeDefault
    else cfg in
  if decide (APIToken cfg = EmptyString)
  then (Some (errors_New "cloudflare api token is required"), cfg)
  else if decide (ZoneID cfg = EmptyString)
  then (Some (errors_New "cloudflare zone id is required"), cfg)
  else
    let cfg :=
      if decide (PullRange cfg = 0)
      then mkCloudflareConfig (APIToken cfg) (ZoneID cfg) (Workers cfg)
             Minute (FieldsType cfg)
      else cfg in
    let cfg :=
      if decide (Workers cfg = 0)
      then mkCloudflareConfig (APIToken cfg) (ZoneID cfg) 3
             (PullRange cfg) (FieldsType cfg)
      else cfg in
    (None, cfg).
End validate.

(** The head of the loop of [Target.start]: the window to pull when the
    end of the next interval is [to] and the clock shows [now], for the
    pull range of the configuration. *)
Definition pullWindow (to now pullRange : Z) : Z * Z :=
  let end_ := to in
  let maxEnd := now + - minDelay in
  let end_ := if decide (maxEnd < end_) then maxEnd else end_ in
  let start := end_ + wrap64 (- pullRange) in
  (start, end_).

(** The end of the next interval, set after a window has been pulled. *)
Definition nextTo (end_ pullRange : Z) : Z := end_ + pullRange.

(** The time the loop sleeps before the next window, when the clock shows
    [now] after the pull. *)
Definition sleepBeforeNext (to now : Z) : Z :=
  let diff := time_Sub to (now + - minDelay) in
  if decide (0 < diff) then diff else 0.
End cloudflare.

(** ** Decoding responses *)

(** Types and functions of other packages that the decoding of a response
    passes through. *)
Class Wire {opq : Opaque} := {
  (** [loghttp.LabelSet] *)
  LabelSet : Type;
  (** [loghttp.LabelSet.Map] *)
  LabelSet_Map : LabelSet → gmap string string;
  (** [model.Metric] of Prometheus *)
  Metric : Type;
  (** [cortexpb.FromMetricsToLabelAdapters] *)
  FromMetricsToLabelAdapters : Metric → list (string * string);
  (** [loghttp.Streams] *)
  Streams : Type;
  (** [loghttp.Streams.ToProto] *)
  Streams_ToProto : Streams → list Stream.t;
  (** [convertPrometheusResponseHeadersToPointers], declared in another file
      of the package *)
  convertPrometheusResponseHeadersToPointers :
    list PrometheusResponseHeader.t → list PrometheusResponseHeader.t;
  (** the order in which a [range] loop visits an [http.Header], which the
      language leaves open: every key is visited once *)
  rangeHeader : gmap string (list string) → list (string * list string);
  rangeHeader_Permutation : ∀ h, rangeHeader h ≡ₚ map_to_list h
}.

Module wire.
(** [model.SamplePair], [model.SampleStream] and [model.Sample] of
    Prometheus; a [model.Time] is a count of milliseconds. *)
Record SamplePair {opq : Opaque} := mkSamplePair {
  SamplePair_Timestamp : Z;
  SamplePair_Value : float64
}.
Arguments mkSamplePair {_} _ _.

Record SampleStream {opq : Opaque} {wr : Wire} := mkSampleStream {
  SampleStream_Metric : Metric;
  SampleStream_Values : list SamplePair
}.
Arguments mkSampleStream {_ _} _ _.

Record Sample {opq : Opaque} {wr : Wire} := mkSample {
  Sample_Metric : Metric;
  Sample_Value : float64;
  Sample_Timestamp : Z
}.
Arguments mkSample {_ _} _ _ _.

(** The dynamic type behind a [loghttp.ResultValue]. *)
Inductive ResultValue {opq : Opaque} {wr : Wire} :=
| StreamsValue (s : Streams)
| MatrixValue (m : list SampleStream)
| VectorValue (v : list Sample)
| OtherValue (dynamicType : string).
Arguments StreamsValue {_ _} s.
Arguments MatrixValue {_ _} m.
Arguments VectorValue {_ _} v.
Arguments OtherValue {_ _} dynamicType.

(** [loghttp.QueryResponse], [loghttp.SeriesResponse] and
    [loghttp.LabelResponse], with the fields that [DecodeResponse] reads. *)
Record QueryResponse {opq : Opaque} {wr : Wire} := mkQueryResponse {
  QueryResponse_Status : string;
  QueryResponse_ResultType : string;
  QueryResponse_Result : ResultValue;
  QueryResponse_Statistics : stats_Result
}.
Arguments mkQueryResponse {_ _} _ _ _ _.

Record SeriesResponse {opq : Opaque} {wr : Wire} := mkSeriesResponse {
  SeriesResponse_Status : string;
  SeriesResponse_Data : list LabelSet
}.
Arguments mkSeriesResponse {_ _} _ _.

Record LabelResponse := mkLabelResponse {
  LabelResponse_Status : string;
  LabelResponse_Data : list string
}.
End wire.

(** The JSON readers: the value read, or the text of the error. *)
Class Unmarshal {opq : Opaque} {wr : Wire} := {
  (** [json.Unmarshal] into a [loghttp.SeriesResponse] *)
  Unmarshal_SeriesResponse : string → string + wire.SeriesResponse;
  (** [json.Unmarshal] into a [loghttp.LabelResponse] *)
  Unmarshal_LabelResponse : string → string + wire.LabelResponse;
  (** [loghttp.QueryResponse.UnmarshalJSON] *)
  QueryResponse_UnmarshalJSON : string → string + wire.QueryResponse
}.

Module http_Response.
(** What the codec reads of an [http.Response]. *)
Record t := mk {
  StatusCode : Z;
  (** [ioutil.ReadAll(r.Body)]: the bytes read, and the error if any *)
  Body_ReadAll : string * option string;
  (** [Bytes()] of a body that implements [Buffer]; [None] for a body that
      does not *)
  Body_Bytes : option string;
  Header : gmap string (list string)
}.
End http_Response.

(** The values behind a [logql.Params] made by [paramsFromRequest]. *)
Module Params.
Record t := mk {
  Query : string;
  Start : Z;
  End_ : Z;
  Step : Z;
  Interval : Z;
  Direction : Direction;
  Limit : N;
  Shards : list string
}.
End Params.

Definition paramsRangeWrapper (r : LokiRequest.t) : Params.t :=
  Params.mk (LokiRequest.GetQuery r) (LokiRequest.StartTs r)
    (LokiRequest.EndTs r) (int64_mul (LokiRequest.GetStep r) 1000000) 0
    (LokiRequest.Direction r) (LokiRequest.Limit r) (LokiRequest.Shards r).

Definition paramsInstantWrapper (r : LokiInstantRequest.t) : Params.t :=
  Params.mk (LokiInstantRequest.GetQuery r) (LokiInstantRequest.TimeTs r)
    (LokiInstantRequest.TimeTs r)
    (int64_mul (LokiInstantRequest.GetStep r) 1000000) 0
    (LokiInstantRequest.Direction r) (LokiInstantRequest.Limit r)
    (LokiInstantRequest.Shards r).

(** The name of the dynamic type of a request, as [%T] prints it. *)
Definition requestTypeName (req : Request) : string :=
  match req with
  | RangeQuery _ => "*queryrange.LokiRequest"
  | InstantQuery _ => "*queryrange.LokiInstantRequest"
  | SeriesQuery _ => "*queryrange.LokiSeriesRequest"
  | LabelNamesQuery _ => "*queryrange.LokiLabelNamesRequest"
  end.

(** [paramsFromRequest]; [fmt.Errorf] without [%w] gives a plain error. *)
Definition paramsFromRequest (req : Request) : outcome Params.t :=
  match req with
  | RangeQuery r => Ok (paramsRangeWrapper r)
  | InstantQuery r => Ok (paramsInstantWrapper r)
  | _ =>
      Err (errors_New
             ("expected *LokiRequest or *LokiInstantRequest, got ("
                +:+ requestTypeName req +:+ ")"))
  end.

Section decode_response.
Context {opq : Opaque} {col : Collaborators} {wr : Wire} {um : Unmarshal}.

Definition httpResponseHeadersToPromResponseHeaders
    (httpHeaders : gmap string (list string))
  : list PrometheusResponseHeader.t :=
  (λ hv, PrometheusResponseHeader.mk hv.1 hv.2) <$> rangeHeader httpHeaders.

Definition toProtoMatrix (m : list wire.SampleStream)
  : list SampleStream.t :=
  (λ stream,
     SampleStream.mk
       (FromMetricsToLabelAdapters (wire.SampleStream_Metric stream))
       ((λ s, Sample.mk (wire.SamplePair_Value s) (wire.SamplePair_Timestamp s))
          <$> wire.SampleStream_Values stream))
    <$> m.

Definition toProtoVector (v : list wire.Sample) : list SampleStream.t :=
  (λ s,
     SampleStream.mk
       (FromMetricsToLabelAdapters (wire.Sample_Metric s))
       [Sample.mk (wire.Sample_Value s) (wire.Sample_Timestamp s)])
    <$> v.

Definition resultTypeName (v : wire.ResultValue) : string :=
  match v with
  | wire.StreamsValue _ => "loghttp.Streams"
  | wire.MatrixValue _ => "loghttp.Matrix"
  | wire.VectorValue _ => "loghttp.Vector"
  | wire.OtherValue ty => ty
  end.

(** What the run time does when the type assertion of a result value meets
    another dynamic type. *)
Definition resultPanic {A} (v : wire.ResultValue) (want : string) : outcome A :=
  Panic ("interface conversion: loghttp.ResultValue is "
           +:+ resultTypeName v +:+ ", not " +:+ want).

Definition decodingError (err : string) : error :=
  httpgrpc_Errorf StatusInternalServerError "error decoding response: %v"
    [ArgString err].

(** The bytes of the body of a response with a status 2xx. *)
Definition readBody (r : http_Response.t) : outcome string :=
  match http_Response.Body_Bytes r with
  | Some buf => Ok buf
  | None =>
      match http_Response.Body_ReadAll r with
      | (buf, None) => Ok buf
      | (_, Some err) => Err (decodingError err)
      end
  end.

(** [Codec.DecodeResponse]. Every value of [Request] is one of the four
    request types, so a request that is no series and no label-names
    request is a range or an instant request. *)
Definition DecodeResponse (r : http_Response.t) (req : Request)
  : outcome Response :=
  if decide (http_Response.StatusCode r ÷ 100 ≠ 2) then
    Err (httpgrpc_Errorf (http_Response.StatusCode r)
           (http_Response.Body_ReadAll r).1 [])
  else
    buf ← readBody r;
    match req with
    | SeriesQuery req =>
        match Unmarshal_SeriesResponse buf with
        | inl err => Err (decodingError err)
        | inr resp =>
            Ok (SeriesResponse
                  (LokiSeriesResponse.mk
                     (wire.SeriesResponse_Status resp)
                     ((λ label, SeriesIdentifier.mk (LabelSet_Map label))
                        <$> wire.SeriesResponse_Data resp)
                     (GetVersion (LokiSeriesRequest.Path req))
                     (httpResponseHeadersToPromResponseHeaders
                        (http_Response.Header r))))
        end
    | LabelNamesQuery req =>
        match Unmarshal_LabelResponse buf with
        | inl err => Err (decodingError err)
        | inr resp =>
            Ok (LabelNamesResponse
                  (LokiLabelNamesResponse.mk
                     (wire.LabelResponse_Status resp)
                     (wire.LabelResponse_Data resp)
                     (GetVersion (LokiLabelNamesRequest.Path req))
                     (httpResponseHeadersToPromResponseHeaders
                        (http_Response.Header r))))
        end
    | _ =>
        match QueryResponse_UnmarshalJSON buf with
        | inl err => Err (decodingError err)
        | inr resp =>
            let resultType := wire.QueryResponse_ResultType resp in
            let result := wire.QueryResponse_Result resp in
            if decide (resultType = ResultTypeMatrix) then
              m ← match result with
                  | wire.MatrixValue m => Ok m
                  | _ => resultPanic result "loghttp.Matrix"
                  end;
              Ok (MetricResponse
                    (LokiPromResponse.mk
                       (Some (PrometheusResponse.mk
                                (wire.QueryResponse_Status resp)
                                (PrometheusData.mk ResultTypeMatrix
                                   (toProtoMatrix m))
                                EmptyString EmptyString
                                (convertPrometheusResponseHeadersToPointers
                                   (httpResponseHeadersToPromResponseHeaders
                                      (http_Response.Header r)))))
                       (wire.QueryResponse_Statistics resp)))
            else if decide (resultType = ResultTypeStream) then
              params ← paramsFromRequest req;
              path ← match req with
                     | RangeQuery r => Ok (LokiRequest.Path r)
                     | InstantQuery r => Ok (LokiInstantRequest.Path r)
                     | _ =>
                         Err (errors_New
                                ("expected *LokiRequest or *LokiInstantRequest, got ("
                                   +:+ requestTypeName req +:+ ")"))
                     end;
              s ← match result with
                  | wire.StreamsValue s => Ok s
                  | _ => resultPanic result "loghttp.Streams"
                  end;
              Ok (LogStreamResponse
                    (LokiResponse.mk
                       (wire.QueryResponse_Status resp)
                       (LokiData.mk ResultTypeStream (Streams_ToProto s))
                       (wire.QueryResponse_Statistics resp)
                       (Params.Direction params)
                       (Params.Limit params)
                       (GetVersion path)
                       EmptyString EmptyString
                       (httpResponseHeadersToPromResponseHeaders
                          (http_Response.Header r))))
            else if decide (resultType = ResultTypeVector) then
              v ← match result with
                  | wire.VectorValue v => Ok v
                  | _ => resultPanic result "loghttp.Vector"
                  end;
              Ok (MetricResponse
                    (LokiPromResponse.mk
                       (Some (PrometheusResponse.mk
                                (wire.QueryResponse_Status resp)
                                (PrometheusData.mk ResultTypeVector
                                   (toProtoVector v))
                                EmptyString EmptyString
                                (convertPrometheusResponseHeadersToPointers
                                   (httpResponseHeadersToPromResponseHeaders
                                      (http_Response.Header r)))))
                       (wire.QueryResponse_Statistics resp)))
            else
              Err (httpgrpc_Errorf StatusInternalServerError
                     "unsupported response type, got (%s)"
                     [ArgString resultType])
        end
    end.
End decode_response.

(** ** The root configuration *)

(** The parts of the configuration that belong to other packages. A part
    that [Config.Validate] only hands to its own validation is a type; of a
    part that it also reads or writes, the remaining fields are a type. *)
Class ConfigParts := {
  QueryRangeConfig : Type;
  TableManagerConfig : Type;
  RulerConfig : Type;
  WorkerConfig : Type;
  CompactorConfig : Type;
  BoltDBShipperConfig : Type;
  PeriodConfigRest : Type;
  SchemaConfigRest : Type;
  StorageConfigRest : Type;
  IngesterConfigRest : Type;
  LimitsConfigRest : Type;
  ChunkStoreConfigRest : Type
}.

Module loki.
Section config.
Context {parts : ConfigParts}.

(** [chunk.PeriodConfig]; [RowShards] is a [uint32]. *)
Record PeriodConfig := mkPeriodConfig {
  RowShards : N;
  PeriodConfig_rest : PeriodConfigRest
}.

Record SchemaConfig := mkSchemaConfig {
  Configs : list PeriodConfig;
  SchemaConfig_rest : SchemaConfigRest
}.

Record StorageConfig := mkStorageConfig {
  BoltDBShipper : BoltDBShipperConfig;
  StorageConfig_rest : StorageConfigRest
}.

Record IngesterConfig := mkIngesterConfig {
  IndexShards : Z;
  IngesterConfig_rest : IngesterConfigRest
}.

Record LimitsConfig := mkLimitsConfig {
  LimitsConfig_MaxQueryLookback : Z;
  LimitsConfig_rest : LimitsConfigRest
}.

Record ChunkStoreConfig := mkChunkStoreConfig {
  MaxLookBackPeriod : Z;
  ChunkStoreConfig_rest : ChunkStoreConfigRest
}.

(** The fields of [Config] that [Validate] reads or writes. *)
Record Config := mkConfig {
  Schema : SchemaConfig;
  Storage : StorageConfig;
  QueryRange : QueryRangeConfig;
  TableManager : TableManagerConfig;
  Ruler : RulerConfig;
  Ingester : IngesterConfig;
  Limits_ : LimitsConfig;
  Worker : WorkerConfig;
  Compactor : CompactorConfig;
  ChunkStore : ChunkStoreConfig
}.

(** The errors of [Validate]: [errors.Wrap] around the error of a part,
    kept as its text, or the error made by [fmt.Errorf]. *)
Inductive error :=
| errors_Wrap (cause : string) (message : string)
| fmt_Errorf (format : string) (args : list fmtarg).

(** The validations of the parts. Each one may change its part, which it
    reaches through a pointer: it returns the text of its error, or [None]
    for [nil], and the part as it leaves it. *)
Class Validators := {
  SchemaConfig_Validate : SchemaConfig → option string * SchemaConfig;
  StorageConfig_Validate : StorageConfig → option string * StorageConfig;
  QueryRange_Validate : QueryRangeConfig → option string * QueryRangeConfig;
  TableManager_Validate :
    TableManagerConfig → option string * TableManagerConfig;
  Ruler_Validate : RulerConfig → option string * RulerConfig;
  Ingester_Validate : IngesterConfig → option string * IngesterConfig;
  LimitsConfig_Validate : LimitsConfig → option string * LimitsConfig;
  Worker_Validate : WorkerConfig → option string * WorkerConfig;
  BoltDBShipperConfig_Validate :
    BoltDBShipperConfig → option string * BoltDBShipperConfig;
  CompactorConfig_Validate : CompactorConfig → option string * CompactorConfig;
  ChunkStoreConfig_Validate :
    ChunkStoreConfig → option string * ChunkStoreConfig
}.

Context {validators : Validators}.

(** A step of the validation: the error with which it returns, or [None]
    to go on, and the configuration as it leaves it. *)
Definition Step : Type := Config → option error * Config.

(** One block [if err := part.Validate(); err != nil { return
    errors.Wrap(err, message) }]. *)
Definition check {T} (get : Config → T) (set : T → Config → Config)
    (validate : T → option string * T) (message : string) : Step :=
  λ c,
    let '(err, part) := validate (get c) in
    (match err with
     | Some cause => Some (errors_Wrap cause message)
     | None => None
     end,
     set part c).

(** One statement after the other, up to the first [return]. *)
Definition andThen (first : Step) (rest : Step) : Step :=
  λ c,
    let '(err, c') := first c in
    match err with
    | Some e => (Some e, c')
    | None => rest c'
    end.

(** The eleven validations of [Validate], in their order. *)
Definition validations : list Step :=
  [ check Schema
      (λ p c, mkConfig p (Storage c) (QueryRange c) (TableManager c) (Ruler c)
                (Ingester c) (Limits_ c) (Worker c) (Compactor c) (ChunkStore c))
      SchemaConfig_Validate "invalid schema config";
    check Storage
      (λ p c, mkConfig (Schema c) p (QueryRange c) (TableManager c) (Ruler c)
                (Ingester c) (Limits_ c) (Worker c) (Compactor c) (ChunkStore c))
      StorageConfig_Validate "invalid storage config";
    check QueryRange
      (λ p c, mkConfig (Schema c) (Storage c) p (TableManager c) (Ruler c)
                (Ingester c) (Limits_ c) (Worker c) (Compactor c) (ChunkStore c))
      QueryRange_Validate "invalid queryrange config";
    check TableManager
      (λ p c, mkConfig (Schema c) (Storage c) (QueryRange c) p (Ruler c)
                (Ingester c) (Limits_ c) (Worker c) (Compactor c) (ChunkStore c))
      TableManager_Validate "invalid tablemanager config";
    check Ruler
      (λ p c, mkConfig (Schema c) (Storage c) (QueryRange c) (TableManager c) p
                (Ingester c) (Limits_ c) (Worker c) (Compactor c) (ChunkStore c))
      Ruler_Validate "invalid ruler config";
    check Ingester
      (λ p c, mkConfig (Schema c) (Storage c) (QueryRange c) (TableManager c)
                (Ruler c) p (Limits_ c) (Worker c) (Compactor c) (ChunkStore c))
      Ingester_Validate "invalid ingester config";
    check Limits_
      (λ p c, mkConfig (Schema c) (Storage c) (QueryRange c) (TableManager c)
                (Ruler c) (Ingester c) p (Worker c) (Compactor c) (ChunkStore c))
      LimitsConfig_Validate "invalid limits config";
    check Worker
      (λ p c, mkConfig (Schema c) (Storage c) (QueryRange c) (TableManager c)
                (Ruler c) (Ingester c) (Limits_ c) p (Compactor c) (ChunkStore c))
      Worker_Validate "invalid storage config";
    check (λ c, BoltDBShipper (Storage c))
      (λ p c, mkConfig (Schema c)
                (mkStorageConfig p (StorageConfig_rest (Storage c)))
                (QueryRange c) (TableManager c) (Ruler c) (Ingester c)
                (Limits_ c) (Worker c) (Compactor c) (ChunkStore c))
      BoltDBShipperConfig_Validate "invalid boltdb-shipper config";
    check Compactor
      (λ p c, mkConfig (Schema c) (Storage c) (QueryRange c) (TableManager c)
                (Ruler c) (Ingester c) (Limits_ c) (Worker c) p (ChunkStore c))
      CompactorConfig_Validate "invalid compactor config";
    check ChunkStore
      (λ p c, mkConfig (Schema c) (Storage c) (QueryRange c) (TableManager c)
                (Ruler c) (Ingester c) (Limits_ c) (Worker c) (Compactor c) p)
      ChunkStoreConfig_Validate "invalid chunk store config" ].

(** The copy of the deprecated look-back period into the limits. *)
Definition copyMaxLookBackPeriod (c : Config) : Config :=
  if decide (0 < MaxLookBackPeriod (ChunkStore c)) then
    mkConfig (Schema c) (Storage c) (QueryRange c) (TableManager c) (Ruler c)
      (Ingester c)
      (mkLimitsConfig (MaxLookBackPeriod (ChunkStore c))
         (LimitsConfig_rest (Limits_ c)))
      (Worker c) (Compactor c) (ChunkStore c)
  else c.

Definition incompatibleShards : string :=
  "incompatible ingester index shards (%d) and period config row shard factor (%d) for period config at index (%d). The ingester factor must be evenly divisible by all period config factors".

(** The loop over the period configurations, from index [i] on; Go's [%]
    takes the sign of the dividend. *)
Fixpoint checkRowShards (indexShards : Z) (i : nat)
    (configs : list PeriodConfig) : option error :=
  match configs with
  | [] => None
  | sc :: rest =>
      if decide ((0 < RowShards sc)%N
                 ∧ 0 < Z.rem indexShards (Z.of_N (RowShards sc)))
      then
        Some (fmt_Errorf incompatibleShards
                [ArgInt indexShards; ArgInt (Z.of_N (RowShards sc));
                 ArgInt (Z.of_nat i)])
      else checkRowShards indexShards (S i) rest
  end.

(** What follows the validations of the parts. *)
Definition finish : Step :=
  λ c,
    let c := copyMaxLookBackPeriod c in
    (checkRowShards (IndexShards (Ingester c)) 0 (Configs (Schema c)), c).

(** [Config.Validate]: the error, or [None] for [nil], and the configuration
    as the call leaves it. *)
Definition Validate : Step := foldr andThen finish validations.
End config.
End loki.

(** ** Concrete collaborators and inputs for the examples *)

Definition noLimits : Limits :=
  mkLimits (λ _, 0) (λ _, 0) (λ _, 0) (λ _, 0) (λ _, 0) (λ _, 0) (λ _, 0).

Definition exampleOpaque : Opaque :=
  {| stats_Result := nat; float64 := Z; Expr := bool |}.

(** Statistics count the merged responses; a query that starts with [rate]
    or [sum] is a sample expression, the empty query does not parse; a path
    under [/api/prom] has the legacy version 0. *)
Definition exampleCollaborators : @Collaborators exampleOpaque :=
  {| stats_Result_zero := 0%nat : @stats_Result exampleOpaque;
     stats_Result_Merge := λ a b : nat, (a + b)%nat;
     ParseExpr := λ q,
       if decide (q = EmptyString) then inl "syntax error: unexpected $end"
       else inr (String.prefix "rate" q || String.prefix "sum" q);
     isSampleExpr := λ e : bool, e;
     GetVersion := λ p, if String.prefix "/api/prom" p then 0%N else 1%N;
     SeriesIdentifier_String := λ s,
       String.concat ","
         ((λ kv, kv.1 +:+ "=" +:+ kv.2)
            <$> merge_sort (λ a b, String.le a.1 b.1)
                  (map_to_list (SeriesIdentifier.Labels s)));
     HashWithoutLabels := λ l, N.of_nat (length l);
     PrometheusCodec_MergeResponse := λ l,
       match l with
       | Some r :: _ => Ok r
       | _ => Err (errors_New "no response")
       end;
     Sprintf_f_seconds := λ ms, fmt_d ms +:+ "e-3";
     parseStepSeconds := λ s,
       if decide (s = EmptyString) then inr Second
       else if decide (s = "15000e-3") then inr (15 * Second)
       else inl "invalid step" |}.

Definition exampleContext : RequestContext.t := RequestContext.mk (inr ["t"]) EmptyString.

Definition exampleRangeQuery : LokiRequest.t :=
  LokiRequest.mk "{a=1}" 100 15000 (60000 * Millisecond) (120000 * Millisecond)
    FORWARD "/loki/api/v1/query_range" [].

(** Scenario 3 of the specification: at second 1000 a query over seconds
    900 to 999. *)
Definition exampleNow : Z := 1000 * Second.

Definition exampleSeriesQuery : LokiSeriesRequest.t :=
  LokiSeriesRequest.mk ["{a=1}"] (900 * Second) (999 * Second)
    "/loki/api/v1/series" [].

Definition exampleLimits (maxLookback maxLength : Z) : Limits :=
  mkLimits (λ _, maxLookback) (λ _, maxLength)
           (λ _, 0) (λ _, 0) (λ _, 0) (λ _, 0) (λ _, 0).

(** A next handler that counts its calls and answers with no label name. *)
Definition exampleNext {opq : Opaque} : Handler nat :=
  λ _ n, (Ok (LabelNamesResponse
                (LokiLabelNamesResponse.mk QueryStatusSuccess [] 1 [])),
          S n).

Definition exampleWorld : World.t nat := World.mk 0%nat [].

Section example_values.
Local Existing Instance exampleOpaque.
Local Existing Instance exampleCollaborators.
Import seriesLimiter.

Definition exampleSeriesResponse : LokiSeriesResponse.t :=
  LokiSeriesResponse.mk QueryStatusSuccess
    [SeriesIdentifier.mk {["a" := "1"; "b" := "2"]}] 1 [].

Definition exampleLabelNamesResponse : LokiLabelNamesResponse.t :=
  LokiLabelNamesResponse.mk QueryStatusSuccess ["a"; "b"] 1 [].

Definition exampleClamped : Request :=
  SeriesQuery (LokiSeriesRequest.mk ["{a=1}"] (940 * Second) (999 * Second)
                 "/loki/api/v1/series" []).

Definition exampleAnswer : outcome Response :=
  Ok (LabelNamesResponse
        (LokiLabelNamesResponse.mk QueryStatusSuccess [] 1 [])).

(** A range query that came in on the legacy path. *)
Definition exampleLegacyRangeQuery : LokiRequest.t :=
  LokiRequest.mk "{a=1}" 100 15000 (60000 * Millisecond) (120000 * Millisecond)
    FORWARD "/api/prom/query_range" [].

(** A metric response with two series, of one and of two labels; the
    example hash tells them apart. *)
Definition exampleTwoSeries : list SampleStream.t :=
  [SampleStream.mk [("a", "1")] [];
   SampleStream.mk [("a", "1"); ("b", "2")] []].

Definition exampleMetricNext : Handler nat :=
  λ _ n,
    (Ok (MetricResponse
           (LokiPromResponse.mk
              (Some (PrometheusResponse.mk QueryStatusSuccess
                       (PrometheusData.mk ResultTypeMatrix exampleTwoSeries)
                       EmptyString EmptyString []))
              0%nat)),
     S n).

Definition exampleLimiter : t := Wrap 1.

Definition exampleLimiterAfter : t := addHashes exampleLimiter exampleTwoSeries.

Definition exampleWorldAfter : World.t nat := World.mk 1%nat [exampleClamped].

Definition exampleRejection : outcome Response := Err (limitError exampleLimiter).

(** A next handler that counts its calls and answers with the very error
    of the limiter, as a limiter further down would. *)
Definition exampleRejectingNext : Handler nat := λ _ n, (exampleRejection, S n).

Definition exampleLogResponse (streams : list Stream.t) : LokiResponse.t :=
  LokiResponse.mk QueryStatusSuccess (LokiData.mk ResultTypeStream streams)
    0%nat BACKWARD 3 1 EmptyString EmptyString [].

(** Scenario 1 of the specification. *)
Definition exampleResponseA : LokiResponse.t :=
  exampleLogResponse
    [Stream.mk "foo=1" [Entry.mk 10 "a"; Entry.mk 9 "b"]].

Definition exampleResponseB : LokiResponse.t :=
  exampleLogResponse
    [Stream.mk "foo=1" [Entry.mk 8 "c"; Entry.mk 7 "d"]].
End example_values.

(** A configuration of which every part is its validity, and validations
    that read it. *)
Definition exampleConfigParts : ConfigParts :=
  {| QueryRangeConfig := bool;
     TableManagerConfig := bool;
     RulerConfig := bool;
     WorkerConfig := bool;
     CompactorConfig := bool;
     BoltDBShipperConfig := bool;
     PeriodConfigRest := unit;
     SchemaConfigRest := bool;
     StorageConfigRest := bool;
     IngesterConfigRest := bool;
     LimitsConfigRest := bool;
     ChunkStoreConfigRest := bool |}.

Definition exampleValidate {T} (valid : T → bool) (name : string) (part : T)
  : option string * T :=
  (if valid part then None else Some name, part).

Section example_config.
Local Existing Instance exampleConfigParts.

Definition exampleValidators : loki.Validators :=
  {| loki.SchemaConfig_Validate :=
       exampleValidate loki.SchemaConfig_rest "schema";
     loki.StorageConfig_Validate :=
       exampleValidate loki.StorageConfig_rest "storage";
     loki.QueryRange_Validate := exampleValidate (λ b : bool, b) "queryrange";
     loki.TableManager_Validate := exampleValidate (λ b : bool, b) "tablemanager";
     loki.Ruler_Validate := exampleValidate (λ b : bool, b) "ruler";
     loki.Ingester_Validate :=
       exampleValidate loki.IngesterConfig_rest "ingester";
     loki.LimitsConfig_Validate :=
       exampleValidate loki.LimitsConfig_rest "limits";
     loki.Worker_Validate := exampleValidate (λ b : bool, b) "worker";
     loki.BoltDBShipperConfig_Validate :=
       exampleValidate (λ b : bool, b) "boltdb-shipper";
     loki.CompactorConfig_Validate := exampleValidate (λ b : bool, b) "compactor";
     loki.ChunkStoreConfig_Validate :=
       exampleValidate loki.ChunkStoreConfig_rest "chunk store" |}.

(** A configuration with period configurations of 16 shards, of none and
    of 7, for an ingester of [indexShards] shards and a deprecated look-back
    period of one hour; the worker is valid or not. *)
Definition exampleConfig (indexShards : Z) (worker : bool) : loki.Config :=
  loki.mkConfig
    (loki.mkSchemaConfig
       [loki.mkPeriodConfig 16 (); loki.mkPeriodConfig 0 ();
        loki.mkPeriodConfig 7 ()] true)
    (loki.mkStorageConfig true true)
    true true true
    (loki.mkIngesterConfig indexShards true)
    (loki.mkLimitsConfig 0 true)
    worker
    true
    (loki.mkChunkStoreConfig (3600 * Second) true).
End example_config.

(** Wire values that are what they decode to, and a reader for two bodies:
    [{}] holds a series response without series, [streams] a query response
    without streams. *)
Definition exampleWire : @Wire exampleOpaque :=
  {| LabelSet := gmap string string;
     LabelSet_Map := λ l, l;
     Metric := list (string * string);
     FromMetricsToLabelAdapters := λ m, m;
     Streams := list Stream.t;
     Streams_ToProto := λ s, s;
     convertPrometheusResponseHeadersToPointers := λ h, h;
     rangeHeader := map_to_list;
     rangeHeader_Permutation := λ h, reflexivity (map_to_list h) |}.

Section example_wire.
Local Existing Instance exampleOpaque.
Local Existing Instance exampleWire.

Definition exampleUnmarshal : Unmarshal :=
  {| Unmarshal_SeriesResponse := λ buf,
       if decide (buf = "{}") then inr (wire.mkSeriesResponse "success" [])
       else inl "unexpected end of JSON input";
     Unmarshal_LabelResponse := λ buf,
       if decide (buf = "{}") then inr (wire.mkLabelResponse "success" [])
       else inl "unexpected end of JSON input";
     QueryResponse_UnmarshalJSON := λ buf,
       if decide (buf = "streams")
       then inr (wire.mkQueryResponse "success" ResultTypeStream
                   (wire.StreamsValue []) 0%nat)
       else inl "unexpected end of JSON input" |}.

Definition exampleHttpResponse (body : string) : http_Response.t :=
  http_Response.mk 200 (body, None) None ∅.
End example_wire.

(** * Properties *)

(** ** Machine integers *)

Lemma wrap64_id (z : Z) : in_int64 z → wrap64 z = z.
Proof.
  unfold in_int64, int64_min, int64_max, wrap64. intros Hz.
  rewrite Z.mod_small; lia.
Qed.

Lemma quot_in_int64 (a b : Z) : in_int64 a → 0 < b → in_int64 (a ÷ b).
Proof.
  unfold in_int64, int64_min, int64_max. intros Ha Hb.
  destruct (decide (0 ≤ a)) as [Hpos|Hneg].
  - pose proof (Z.quot_pos a b Hpos Hb).
    pose proof (Z.quot_le_upper_bound a b a Hb). nia.
  - assert (Hq : a ÷ b = - ((- a) ÷ b)) by (rewrite Z.quot_opp_l; lia).
    pose proof (Z.quot_pos (- a) b ltac:(lia) Hb).
    pose proof (Z.quot_le_upper_bound (- a) b (- a) Hb). nia.
Qed.

Lemma int64_div_pos (a b : Z) :
  in_int64 a → 0 < b → int64_div a b = Ok (a ÷ b).
Proof.
  intros Ha Hb. unfold int64_div.
  destruct (decide (b = 0)) as [->|_]; [lia|].
  by rewrite wrap64_id by by apply quot_in_int64.
Qed.

(** ** Cache keys *)

Lemma split_millis_pos (split : Z) : Millisecond ≤ split → 0 < split ÷ Millisecond.
Proof.
  unfold Millisecond. intros Hs.
  pose proof (Z.quot_le_mono 1000000 split 1000000 ltac:(lia) Hs) as Hq.
  rewrite Z.quot_same in Hq by lia. lia.
Qed.

(** C2, as the code has it. For a split duration of at least one millisecond
    the key is the tenant, the query, the step in milliseconds, the start in
    milliseconds divided by the split in whole milliseconds, and the split
    duration as a count of nanoseconds, joined by colons. The quotient
    truncates toward zero and is the floor for a start that is not negative.
    A split of 30 s gives the last two fields 2 and 30000000000 for a start
    of 60000 ms, a split of 60 s gives 1 and 60000000000. *)
Theorem GenerateCacheKey_schema (l : Limits) (userID : string) (r : Request) :
  Millisecond ≤ QuerySplitDuration l userID →
  in_int64 (GetStart r) →
  (GenerateCacheKey l userID r =
     Ok (userID +:+ ":" +:+ GetQuery r +:+ ":" +:+ fmt_d (GetStep r) +:+ ":"
           +:+ fmt_d (GetStart r ÷ (QuerySplitDuration l userID ÷ Millisecond))
           +:+ ":" +:+ fmt_d (QuerySplitDuration l userID)))
  ∧ (0 ≤ GetStart r →
     GetStart r ÷ (QuerySplitDuration l userID ÷ Millisecond)
     = GetStart r `div` (QuerySplitDuration l userID `div` Millisecond))
  ∧ GenerateCacheKey (WithSplitByLimits noLimits (30 * Second)) "t"
      (RangeQuery exampleRangeQuery) = Ok "t:{a=1}:15000:2:30000000000"
  ∧ GenerateCacheKey (WithSplitByLimits noLimits (60 * Second)) "t"
      (RangeQuery exampleRangeQuery) = Ok "t:{a=1}:15000:1:60000000000".
Proof.
  intros Hsplit Hstart. split_and!.
  - unfold GenerateCacheKey.
    rewrite int64_div_pos by auto using split_millis_pos. done.
  - intros Hpos. pose proof (split_millis_pos _ Hsplit) as Hq.
    rewrite !Z.quot_div_nonneg; unfold Millisecond in *; lia.
  - vm_compute. reflexivity.
  - vm_compute. reflexivity.
Qed.

Lemma GenerateCacheKey_schema_witness :
  Millisecond ≤ QuerySplitDuration (WithSplitByLimits noLimits (30 * Second)) "t"
  ∧ in_int64 (GetStart (RangeQuery exampleRangeQuery))
  ∧ GenerateCacheKey (WithSplitByLimits noLimits (30 * Second)) "t"
      (RangeQuery exampleRangeQuery)
    = Ok ("t" +:+ ":" +:+ "{a=1}" +:+ ":" +:+ fmt_d 15000 +:+ ":"
            +:+ fmt_d (60000 ÷ (30 * Second ÷ Millisecond))
            +:+ ":" +:+ fmt_d (30 * Second)).
Proof.
  assert (Hsplit : Millisecond
                   ≤ QuerySplitDuration
                       (WithSplitByLimits noLimits (30 * Second)) "t")
    by discriminate.
  assert (Hstart : in_int64 (GetStart (RangeQuery exampleRangeQuery)))
    by (split; discriminate).
  split; [exact Hsplit|]. split; [exact Hstart|].
  exact (proj1 (GenerateCacheKey_schema
                  (WithSplitByLimits noLimits (30 * Second)) "t"
                  (RangeQuery exampleRangeQuery) Hsplit Hstart)).
Defined.

(** C2, as the specification words it, fails: the last field of the key is
    the split duration in nanoseconds, not in milliseconds. *)
Lemma GenerateCacheKey_split_not_in_millis :
  GenerateCacheKey (WithSplitByLimits noLimits (30 * Second)) "t"
    (RangeQuery exampleRangeQuery) ≠ Ok "t:{a=1}:15000:2:30000".
Proof. vm_compute. discriminate. Qed.

(** ** Union in order of first appearance *)

Section first_appearances.
Context {A : Type} (key : A → string).

Lemma firstAppearances_snoc (l : list A) (x : A) :
  firstAppearances key (l ++ [x])
  = firstAppearances key l
      ++ (if decide (key x ∈ key <$> l) then [] else [x]).
Proof.
  unfold firstAppearances.
  rewrite length_app, seq_app, omap_app. simpl. f_equal.
  - apply list_omap_ext, Forall_Forall2_diag, Forall_forall.
    intros i [_ Hi]%elem_of_seq. simpl in Hi.
    rewrite lookup_app_l by lia.
    rewrite take_app_le by lia. done.
  - rewrite list_lookup_middle by done. simpl.
    rewrite take_app_length. by destruct (decide _).
Qed.

Lemma firstAppearances_nil : firstAppearances key [] = [].
Proof. done. Qed.

(** The keys met are the keys kept. *)
Lemma firstAppearances_keys (l : list A) (k : string) :
  k ∈ key <$> firstAppearances key l ↔ k ∈ key <$> l.
Proof.
  induction l as [|x l IH] using rev_ind; [done|].
  rewrite firstAppearances_snoc, !fmap_app, !elem_of_app, IH.
  destruct (decide _) as [Hin|Hout]; simpl; [|done].
  rewrite elem_of_nil, list_elem_of_singleton. naive_solver.
Qed.

Lemma firstAppearances_NoDup (l : list A) :
  NoDup (key <$> firstAppearances key l).
Proof.
  induction l as [|x l IH] using rev_ind; [constructor|].
  rewrite firstAppearances_snoc, fmap_app.
  destruct (decide _) as [Hin|Hout]; simpl.
  - by rewrite app_nil_r.
  - apply NoDup_app. split_and!; [done| |apply NoDup_singleton].
    intros k Hk ->%list_elem_of_singleton.
    by apply Hout, firstAppearances_keys.
Qed.

Lemma firstAppearances_sublist (l : list A) :
  firstAppearances key l `sublist_of` l.
Proof.
  induction l as [|x l IH] using rev_ind; [done|].
  rewrite firstAppearances_snoc.
  destruct (decide _); simpl.
  - rewrite app_nil_r. by apply sublist_inserts_r.
  - by apply sublist_app.
Qed.
End first_appearances.

(** ** Merging typed responses *)

Section merge_response_facts.
Context {opq : Opaque} {col : Collaborators}.

Lemma addSeries_keyed acc series :
  addSeries acc series = addKeyed SeriesIdentifier_String acc series.
Proof. by destruct acc. Qed.

Lemma addName_keyed acc labelName :
  addName acc labelName = addKeyed id acc labelName.
Proof. by destruct acc. Qed.

Lemma foldl_addKeyed {A} (key : A → string) (seen l : list A) :
  foldl (addKeyed key)
        (firstAppearances key seen, list_to_set (key <$> seen)) l
  = (firstAppearances key (seen ++ l), list_to_set (key <$> (seen ++ l))).
Proof.
  revert seen. induction l as [|x l IH]; intros seen; simpl.
  - by rewrite app_nil_r.
  - replace (seen ++ x :: l) with ((seen ++ [x]) ++ l) by by rewrite <-app_assoc.
    rewrite <-IH. f_equal. unfold addKeyed. simpl.
    rewrite firstAppearances_snoc, fmap_app, list_to_set_app_L. simpl.
    destruct (decide (key x ∈ key <$> seen)) as [Hin|Hout].
    + rewrite decide_True by by apply elem_of_list_to_set.
      rewrite app_nil_r. f_equal.
      apply (elem_of_list_to_set (C:=gset string)) in Hin. set_solver.
    + rewrite decide_False by by rewrite elem_of_list_to_set.
      f_equal. set_solver.
Qed.

Lemma foldl_ext_eq {A B} (f g : A → B → A) (a : A) (l : list B) :
  (∀ a b, f a b = g a b) → foldl f a l = foldl g a l.
Proof. intros Hfg. revert a. induction l; simpl; intros; [done|]. by rewrite Hfg. Qed.

Lemma mergeSeriesLoop_series (rs : list LokiSeriesResponse.t) acc :
  mergeSeriesLoop (SeriesResponse <$> rs) acc
  = Ok (foldl addSeries acc (concat (LokiSeriesResponse.Data <$> rs))).
Proof.
  revert acc. induction rs as [|r rs IH]; intros acc; simpl; [done|].
  by rewrite IH, foldl_app.
Qed.

Lemma mergeNamesLoop_names (rs : list LokiLabelNamesResponse.t) acc :
  mergeNamesLoop (LabelNamesResponse <$> rs) acc
  = Ok (foldl addName acc (concat (LokiLabelNamesResponse.Data <$> rs))).
Proof.
  revert acc. induction rs as [|r rs IH]; intros acc; simpl; [done|].
  by rewrite IH, foldl_app.
Qed.

(** C6. Merging series responses, or label-names responses, gives the
    elements of the inputs taken in sequence, each kept at its first
    appearance and in that order, without duplicates: series are compared
    by their string form, names as strings. Only the empty list gives no
    merged response. *)
Theorem MergeResponse_union_first_appearance :
  (∀ rs : list LokiSeriesResponse.t,
     (rs = [] ∧ ∃ e, MergeResponse (SeriesResponse <$> rs) = Err e)
     ∨ ∃ merged,
         MergeResponse (SeriesResponse <$> rs) = Ok (SeriesResponse merged)
         ∧ NoDup (SeriesIdentifier_String <$> LokiSeriesResponse.Data merged)
         ∧ LokiSeriesResponse.Data merged
           = firstAppearances SeriesIdentifier_String
               (concat (LokiSeriesResponse.Data <$> rs)))
  ∧ (∀ rs : list LokiLabelNamesResponse.t,
       (rs = [] ∧ ∃ e, MergeResponse (LabelNamesResponse <$> rs) = Err e)
       ∨ ∃ merged,
           MergeResponse (LabelNamesResponse <$> rs)
           = Ok (LabelNamesResponse merged)
           ∧ NoDup (LokiLabelNamesResponse.Data merged)
           ∧ LokiLabelNamesResponse.Data merged
             = firstAppearances id
                 (concat (LokiLabelNamesResponse.Data <$> rs))).
Proof.
  split.
  - intros [|r rs]; [left; split; [done|by eexists]|right].
    pose proof (foldl_addKeyed SeriesIdentifier_String []
                  (concat (LokiSeriesResponse.Data <$> r :: rs))) as Hfold.
    rewrite <-(foldl_ext_eq _ _ _ _ addSeries_keyed) in Hfold.
    change (MergeResponse (SeriesResponse <$> r :: rs))
      with (mergeSeries r (SeriesResponse <$> r :: rs)).
    unfold mergeSeries. rewrite mergeSeriesLoop_series.
    change (firstAppearances SeriesIdentifier_String [], list_to_set
              (SeriesIdentifier_String <$> []))
      with (@nil SeriesIdentifier.t, ∅ : gset string) in Hfold.
    rewrite Hfold. simpl.
    eexists. split; [done|]. simpl. split; [|done].
    apply firstAppearances_NoDup.
  - intros [|r rs]; [left; split; [done|by eexists]|right].
    pose proof (foldl_addKeyed id []
                  (concat (LokiLabelNamesResponse.Data <$> r :: rs))) as Hfold.
    rewrite <-(foldl_ext_eq _ _ _ _ addName_keyed) in Hfold.
    change (MergeResponse (LabelNamesResponse <$> r :: rs))
      with (mergeLabelNames r (LabelNamesResponse <$> r :: rs)).
    unfold mergeLabelNames. rewrite mergeNamesLoop_names.
    change (firstAppearances id [], list_to_set (id <$> []))
      with (@nil string, ∅ : gset string) in Hfold.
    rewrite Hfold. simpl.
    eexists. split; [done|]. simpl. split; [|done].
    pose proof (firstAppearances_NoDup id
                  (LokiLabelNamesResponse.Data r
                     ++ concat (LokiLabelNamesResponse.Data <$> rs))) as Hnd.
    by rewrite list_fmap_id in Hnd.
Qed.
End merge_response_facts.

Section merge_response_dispatch.
Context {opq : Opaque} {col : Collaborators}.

(** C10. Without a response there is an error and no merged response;
    otherwise the type of the first response selects the merge, and a
    merged response has the type of the first response. *)
Theorem MergeResponse_dispatch :
  MergeResponse []
    = Err (errors_New "merging responses requires at least one response")
  ∧ (∀ first rest,
       MergeResponse (first :: rest)
       = match first with
         | MetricResponse _ => mergeMetric (first :: rest)
         | LogStreamResponse lokiRes => mergeLogStream lokiRes (first :: rest)
         | SeriesResponse lokiSeriesRes =>
             mergeSeries lokiSeriesRes (first :: rest)
         | LabelNamesResponse labelNameRes =>
             mergeLabelNames labelNameRes (first :: rest)
         | OtherResponse _ =>
             Err (errors_New "unknown response in merging responses")
         end)
  ∧ (∀ first rest merged,
       MergeResponse (first :: rest) = Ok merged →
       responseVariant merged = responseVariant first).
Proof.
  split_and!; [done|done|].
  intros first rest merged. unfold MergeResponse.
  destruct first as [r|r|r|r|ty]; simpl.
  - unfold mergeMetric.
    destruct (mergePromLoop _ _ _) as [[stats proms]|e|m]; simpl; [|done..].
    destruct (PrometheusCodec_MergeResponse proms); simpl; [|done..].
    by intros [= <-].
  - unfold mergeLogStream.
    destruct (mergeLokiLoop _ _ _) as [[stats resps]|e|m]; simpl; [|done..].
    by intros [= <-].
  - unfold mergeSeries.
    destruct (mergeSeriesLoop _ _) as [[data seen]|e|m]; simpl; [|done..].
    by intros [= <-].
  - unfold mergeLabelNames.
    destruct (mergeNamesLoop _ _) as [[names seen]|e|m]; simpl; [|done..].
    by intros [= <-].
  - done.
Qed.

Lemma mergePromLoop_mixed same other rest stats proms :
  Forall (λ r, responseVariant r = VMetric) same →
  responseVariant other ≠ VMetric →
  mergePromLoop (same ++ other :: rest) stats proms
  = conversionPanic other "*queryrange.LokiPromResponse".
Proof.
  intros Hsame Hother. revert stats proms.
  induction Hsame as [|r same Hr _ IH]; intros stats proms; simpl.
  - by destruct other.
  - destruct r; try done. simpl. apply IH.
Qed.

Lemma mergeLokiLoop_mixed same other rest stats resps :
  Forall (λ r, responseVariant r = VLogStream) same →
  responseVariant other ≠ VLogStream →
  mergeLokiLoop (same ++ other :: rest) stats resps
  = conversionPanic other "*queryrange.LokiResponse".
Proof.
  intros Hsame Hother. revert stats resps.
  induction Hsame as [|r same Hr _ IH]; intros stats resps; simpl.
  - by destruct other.
  - destruct r; try done. simpl. apply IH.
Qed.

Lemma mergeSeriesLoop_mixed same other rest acc :
  Forall (λ r, responseVariant r = VSeries) same →
  responseVariant other ≠ VSeries →
  mergeSeriesLoop (same ++ other :: rest) acc
  = conversionPanic other "*queryrange.LokiSeriesResponse".
Proof.
  intros Hsame Hother. revert acc.
  induction Hsame as [|r same Hr _ IH]; intros acc; simpl.
  - by destruct other.
  - destruct r; try done. simpl. apply IH.
Qed.

Lemma mergeNamesLoop_mixed same other rest acc :
  Forall (λ r, responseVariant r = VLabelNames) same →
  responseVariant other ≠ VLabelNames →
  mergeNamesLoop (same ++ other :: rest) acc
  = conversionPanic other "*queryrange.LokiLabelNamesResponse".
Proof.
  intros Hsame Hother. revert acc.
  induction Hsame as [|r same Hr _ IH]; intros acc; simpl.
  - by destruct other.
  - destruct r; try done. simpl. apply IH.
Qed.

(** C7, as the code has it. When the first response has one of the four
    response types and a later one has another type, nothing is returned,
    neither a merged response nor an error: the type assertion on the
    first response of another type panics. *)
Theorem MergeResponse_mixed_panics first same other rest :
  responseVariant first ≠ VOther →
  Forall (λ r, responseVariant r = responseVariant first) same →
  responseVariant other ≠ responseVariant first →
  MergeResponse (first :: same ++ other :: rest)
  = conversionPanic other (dynamicTypeOf first).
Proof.
  intros Hfirst Hsame Hother.
  assert (Hall : Forall (λ r, responseVariant r = responseVariant first)
                   (first :: same)) by by constructor.
  destruct first as [r|r|r|r|ty]; [| | | |done]; unfold MergeResponse;
    rewrite app_comm_cons.
  - unfold mergeMetric. by rewrite mergePromLoop_mixed.
  - unfold mergeLogStream. by rewrite mergeLokiLoop_mixed.
  - unfold mergeSeries. by rewrite mergeSeriesLoop_mixed.
  - unfold mergeLabelNames. by rewrite mergeNamesLoop_mixed.
Qed.
End merge_response_dispatch.

Section merge_response_examples.
Local Existing Instance exampleOpaque.
Local Existing Instance exampleCollaborators.

Lemma MergeResponse_mixed_panics_witness :
  responseVariant (SeriesResponse exampleSeriesResponse) ≠ VOther
  ∧ Forall (λ r, responseVariant r
                 = responseVariant (SeriesResponse exampleSeriesResponse)) []
  ∧ responseVariant (LabelNamesResponse exampleLabelNamesResponse)
    ≠ responseVariant (SeriesResponse exampleSeriesResponse)
  ∧ MergeResponse [SeriesResponse exampleSeriesResponse;
                   LabelNamesResponse exampleLabelNamesResponse]
    = Panic "interface conversion: queryrange.Response is *queryrange.LokiLabelNamesResponse, not *queryrange.LokiSeriesResponse".
Proof.
  split_and!; [done|constructor|done|].
  apply (MergeResponse_mixed_panics (SeriesResponse exampleSeriesResponse) []
           (LabelNamesResponse exampleLabelNamesResponse) []);
    [done|constructor|done].
Defined.

(** C7, as the specification words it, fails: responses of two types give
    a panic, not an error value. *)
Lemma MergeResponse_mixed_is_no_error :
  ¬ ∃ e, MergeResponse [SeriesResponse exampleSeriesResponse;
                        LabelNamesResponse exampleLabelNamesResponse]
         = Err e.
Proof. intros [e He]. vm_compute in He. discriminate. Qed.
(** Scenario 2 of the specification: the series [{a=1,b=2}] of the second
    input is already there. *)
Example MergeResponse_series_scenario :
  MergeResponse
    [SeriesResponse
       (LokiSeriesResponse.mk QueryStatusSuccess
          [SeriesIdentifier.mk {["a" := "1"; "b" := "2"]};
           SeriesIdentifier.mk {["a" := "1"; "b" := "3"]}] 1 []);
     SeriesResponse
       (LokiSeriesResponse.mk QueryStatusSuccess
          [SeriesIdentifier.mk {["a" := "1"; "b" := "2"]};
           SeriesIdentifier.mk {["a" := "1"; "b" := "4"]}] 1 [])]
  = Ok (SeriesResponse
          (LokiSeriesResponse.mk QueryStatusSuccess
             [SeriesIdentifier.mk {["a" := "1"; "b" := "2"]};
              SeriesIdentifier.mk {["a" := "1"; "b" := "3"]};
              SeriesIdentifier.mk {["a" := "1"; "b" := "4"]}] 1 [])).
Proof. vm_compute. reflexivity. Qed.
End merge_response_examples.

(** ** The limits middleware *)

Lemma quot_millis_bounds (t : Z) :
  in_int64 t → in_int64 (t ÷ 1000000 * 1000000).
Proof.
  unfold in_int64, int64_min, int64_max. intros Ht.
  pose proof (Z.quot_rem' t 1000000) as Hqr.
  destruct (decide (0 ≤ t)) as [Hpos|Hneg].
  - pose proof (Z.rem_bound_pos t 1000000 Hpos ltac:(lia)).
    pose proof (Z.quot_pos t 1000000 Hpos ltac:(lia)). lia.
  - pose proof (Z.rem_bound_pos (- t) 1000000 ltac:(lia) ltac:(lia)) as Hr.
    rewrite Z.rem_opp_l in Hr by lia.
    pose proof (Z.quot_pos (- t) 1000000 ltac:(lia) ltac:(lia)) as Hq.
    rewrite Z.quot_opp_l in Hq by lia. lia.
Qed.

(** A millisecond stamp read off a time survives [time.Unix(0, ms*1e6)]
    followed by the reading. *)
Lemma millis_roundtrip (t : Z) :
  in_int64 t →
  int64_mul (t ÷ 1000000) Millisecond ÷ (Millisecond ÷ Nanosecond)
  = t ÷ 1000000.
Proof.
  intros Ht. unfold int64_mul.
  change (Millisecond ÷ Nanosecond) with 1000000.
  change Millisecond with 1000000.
  rewrite wrap64_id by by apply quot_millis_bounds.
  by rewrite Z.quot_mul.
Qed.

Section limits_middleware_facts.
Context {opq : Opaque} {col : Collaborators}.

Lemma NewEmptyResponse_shape (r : Request) :
  (∃ res, NewEmptyResponse r = Ok res ∧ emptyResponseFor r res)
  ∨ (∃ q err, r = RangeQuery q
              ∧ ParseExpr (LokiRequest.Query q) = inl err
              ∧ NewEmptyResponse r = Err (httpgrpc_Errorf StatusBadRequest err [])).
Proof.
  destruct r as [q|q|q|q]; simpl.
  - destruct (ParseExpr (LokiRequest.Query q)) as [err|expr] eqn:Hparse.
    + right. by exists q, err.
    + left. destruct (isSampleExpr expr); eexists; (split; [done|]); simpl;
        [by eexists|done].
  - left. eexists. split; [done|]. simpl. by eexists.
  - left. by eexists.
  - left. by eexists.
Qed.

(** The request that goes on after the clamp of the start. *)
Lemma WithStartEnd_clamp (r : Request) (minStartTime : Z) :
  timesInRange r →
  in_int64 (minStartTime * Millisecond) →
  GetStart r < minStartTime ≤ GetEnd r →
  GetStart (WithStartEnd r minStartTime (GetEnd r)) = minStartTime
  ∧ GetEnd (WithStartEnd r minStartTime (GetEnd r)) = GetEnd r.
Proof.
  unfold timesInRange. intros Htimes Hmin Hlt.
  assert (Hs : int64_mul minStartTime Millisecond ÷ (Millisecond ÷ Nanosecond)
               = minStartTime).
  { unfold int64_mul. rewrite wrap64_id by done.
    change (Millisecond ÷ Nanosecond) with 1000000.
    change Millisecond with 1000000. by rewrite Z.quot_mul. }
  destruct r as [q|q|q|q]; simpl in *;
    unfold LokiRequest.GetStart, LokiRequest.GetEnd,
      LokiInstantRequest.GetStart, LokiInstantRequest.GetEnd,
      LokiSeriesRequest.GetStart, LokiSeriesRequest.GetEnd,
      LokiLabelNamesRequest.GetStart, LokiLabelNamesRequest.GetEnd in *;
    simpl in *; try lia;
    (split; [done|]);
    change (Millisecond ÷ Nanosecond) with 1000000 in *;
    apply millis_roundtrip;
    by repeat match goal with H : Forall _ (_ :: _) |- _ => inversion_clear H end.
Qed.

(** C4, as the code has it. With tenants resolved and a positive resolved
    lookback, let the bound be now minus the lookback, in milliseconds.
    When the end of the request is earlier than the bound, the next handler
    is not called and the result is that of [NewEmptyResponse]: an empty
    typed response of the shape that answers the request, or for a range
    query whose query does not parse the parse error as a bad request.
    Otherwise, when the start is earlier than the bound, the request is
    cloned with the bound as start and the end unchanged, and the clone is
    what the next handler is given, unless the check of the query length
    rejects it. *)
Theorem limitsMiddleware_lookback {S} (l : Limits) (next : Handler S)
    (now : Z) (ctx : RequestContext.t) (r : Request) (w : World.t S)
    (tenantIDs : list string) :
  let maxQueryLookback :=
    SmallestPositiveNonZeroDurationPerTenant tenantIDs (MaxQueryLookback l) in
  let maxQueryLength :=
    SmallestPositiveNonZeroDurationPerTenant tenantIDs (MaxQueryLength l) in
  let minStartTime := TimeToMillis (now - maxQueryLookback) in
  RequestContext.TenantIDs ctx = inr tenantIDs →
  0 < maxQueryLookback →
  timesInRange r →
  in_int64 (now - maxQueryLookback) →
  (GetEnd r < minStartTime →
     limitsMiddleware_Do l next now ctx r w = (NewEmptyResponse r, w)
     ∧ ((∃ res, NewEmptyResponse r = Ok res ∧ emptyResponseFor r res)
        ∨ (∃ q err, r = RangeQuery q
                    ∧ ParseExpr (LokiRequest.Query q) = inl err
                    ∧ NewEmptyResponse r
                      = Err (httpgrpc_Errorf StatusBadRequest err []))))
  ∧ (minStartTime ≤ GetEnd r → GetStart r < minStartTime →
     let clone := WithStartEnd r minStartTime (GetEnd r) in
     GetStart clone = minStartTime
     ∧ GetEnd clone = GetEnd r
     ∧ limitsMiddleware_Do l next now ctx r w
       = if decide (0 < maxQueryLength ∧ maxQueryLength < queryLen clone)
         then (Err (httpgrpc_Errorf StatusBadRequest ErrQueryTooLong
                      [ArgDuration (queryLen clone);
                       ArgDuration maxQueryLength]), w)
         else dispatch next clone w).
Proof.
  intros maxQueryLookback maxQueryLength minStartTime Hctx Hlook Htimes Hnow.
  split.
  - intros Hend. split; [|apply NewEmptyResponse_shape].
    unfold limitsMiddleware_Do, clampLookback. rewrite Hctx.
    fold maxQueryLookback. rewrite decide_True by done.
    replace (now + - maxQueryLookback) with (now - maxQueryLookback) by lia.
    fold minStartTime. by rewrite decide_True by done.
  - intros Hend Hstart clone.
    assert (Hmin : in_int64 (minStartTime * Millisecond)).
    { unfold minStartTime, TimeToMillis.
      change (Millisecond ÷ Nanosecond) with 1000000.
      change Millisecond with 1000000. by apply quot_millis_bounds. }
    destruct (WithStartEnd_clamp r minStartTime Htimes Hmin) as [Hs He]; [lia|].
    split_and!; [done|done|].
    unfold limitsMiddleware_Do, clampLookback. rewrite Hctx.
    fold maxQueryLookback maxQueryLength. rewrite decide_True by done.
    replace (now + - maxQueryLookback) with (now - maxQueryLookback) by lia.
    fold minStartTime.
    rewrite decide_False by lia. rewrite decide_True by done.
    fold clone. done.
Qed.


(** Without overflow the length is the end minus the start. *)
Lemma queryLen_exact (r : Request) :
  in_int64 ((GetEnd r - GetStart r) * Millisecond) →
  queryLen r = (GetEnd r - GetStart r) * Millisecond.
Proof.
  unfold in_int64, queryLen, time_Sub, timestamp_Time. intros Hr.
  repeat case_decide; lia.
Qed.
End limits_middleware_facts.

Section limits_middleware_examples.
Local Existing Instance exampleOpaque.
Local Existing Instance exampleCollaborators.

(** Scenario 3 of the specification: the start moves from second 900 to
    second 940. *)
Lemma limitsMiddleware_lookback_witness :
  RequestContext.TenantIDs exampleContext = inr ["t"]
  ∧ 0 < 60 * Second
  ∧ timesInRange (SeriesQuery exampleSeriesQuery)
  ∧ in_int64 (exampleNow - 60 * Second)
  ∧ limitsMiddleware_Do (exampleLimits (60 * Second) 0) exampleNext
      exampleNow exampleContext (SeriesQuery exampleSeriesQuery) exampleWorld
    = (exampleAnswer, World.mk 1%nat [exampleClamped]).
Proof.
  assert (Hpos : 0 < 60 * Second) by reflexivity.
  assert (Htimes : timesInRange (SeriesQuery exampleSeriesQuery))
    by (repeat constructor; discriminate).
  assert (Hnow : in_int64 (exampleNow - 60 * Second))
    by (split; discriminate).
  split_and!; [reflexivity|exact Hpos|exact Htimes|exact Hnow|].
  destruct (limitsMiddleware_lookback (exampleLimits (60 * Second) 0)
              exampleNext exampleNow exampleContext
              (SeriesQuery exampleSeriesQuery) exampleWorld ["t"]
              eq_refl Hpos Htimes Hnow) as [_ Hclamp].
  destruct Hclamp as (_ & _ & Hdo); [discriminate|reflexivity|].
  rewrite Hdo. reflexivity.
Defined.

(** C4, as the specification words it, fails. A start earlier than the
    bound does not always lead to the next handler: with a maximal length
    of 10 s the clamped query of 59 s is rejected. An end earlier than the
    bound does not always give an empty response: a range query whose
    query does not parse gives a bad request. *)
Lemma limitsMiddleware_lookback_not_always_delegated :
  limitsMiddleware_Do (exampleLimits (60 * Second) (10 * Second)) exampleNext
    exampleNow exampleContext (SeriesQuery exampleSeriesQuery) exampleWorld
  = (Err (httpgrpc_Errorf StatusBadRequest ErrQueryTooLong
            [ArgDuration (59 * Second); ArgDuration (10 * Second)]),
     exampleWorld)
  ∧ limitsMiddleware_Do (exampleLimits (60 * Second) 0) exampleNext
      exampleNow exampleContext
      (RangeQuery (LokiRequest.mk EmptyString 100 0 (900 * Second)
                     (930 * Second) FORWARD "/loki/api/v1/query_range" []))
      exampleWorld
    = (Err (httpgrpc_Errorf StatusBadRequest "syntax error: unexpected $end" []),
       exampleWorld).
Proof. split; vm_compute; reflexivity. Qed.


(** Scenario 4 of the specification: a query that ends at second 930 gets
    an empty response and the next handler is not called. *)
Example limitsMiddleware_short_circuit_scenario :
  limitsMiddleware_Do (exampleLimits (60 * Second) 0) exampleNext
    exampleNow exampleContext
    (SeriesQuery (LokiSeriesRequest.mk ["{a=1}"] (900 * Second) (930 * Second)
                    "/loki/api/v1/series" []))
    exampleWorld
  = (Ok (SeriesResponse (LokiSeriesResponse.mk QueryStatusSuccess [] 1 [])),
     exampleWorld).
Proof. vm_compute. reflexivity. Qed.
End limits_middleware_examples.

(** ** The series limiter *)

Section series_limiter_facts.
Context {opq : Opaque} {col : Collaborators}.
Import seriesLimiter.

Lemma isLimitReached_spec (sl : t) :
  isLimitReached sl = true ↔ maxSeries sl < Z.of_nat (size (hashes sl)).
Proof. unfold isLimitReached. by rewrite bool_decide_eq_true. Qed.

Lemma addHashes_maxSeries (sl : t) result :
  maxSeries (addHashes sl result) = maxSeries sl.
Proof.
  unfold addHashes. revert sl.
  induction result as [|s result IH]; intros sl; simpl; [done|].
  by rewrite IH.
Qed.

Lemma addHashes_hashes (sl : t) result :
  hashes (addHashes sl result)
  = list_to_set (HashWithoutLabels ∘ SampleStream.Labels <$> result)
      ∪ hashes sl.
Proof.
  unfold addHashes. revert sl.
  induction result as [|s result IH]; intros sl; simpl.
  - set_solver.
  - rewrite IH. simpl. set_solver.
Qed.

(** Once the limit is reached, nothing is dispatched any more. *)
Lemma DoAll_reached {S} (next : Handler S) (sl : t) reqs (w : World.t S) :
  isLimitReached sl = true →
  DoAll next sl reqs w
  = (replicate (length reqs) (Err (limitError sl)), sl, w).
Proof.
  intros Hreached. induction reqs as [|req reqs IH]; simpl; [done|].
  unfold Do. rewrite Hreached. by rewrite IH.
Qed.

End series_limiter_facts.

(** ** The request codec *)

Lemma parse_d_fmt_d (z : Z) : parse_d (fmt_d z) = Some z.
Proof.
  unfold parse_d, fmt_d.
  rewrite NilZero.isi.
  - simpl. by rewrite DecimalZ.of_to.
  - destruct z; simpl; [done| |done].
    intros [= Hnil]. by apply DecimalPos.Unsigned.to_uint_nonnil in Hnil.
  - destruct z; simpl; [done|done|].
    intros [= Hnil]. by apply DecimalPos.Unsigned.to_uint_nonnil in Hnil.
Qed.

Lemma parseTimestamp_fmt_d (t : Z) :
  in_int64 t → loghttp.parseTimestamp (fmt_d t) = inr t.
Proof.
  intros Ht. unfold loghttp.parseTimestamp. rewrite parse_d_fmt_d.
  by rewrite decide_True.
Qed.

Lemma parseLimit_fmt_d (n : N) :
  (n < 2 ^ 32)%N → loghttp.parseLimit (fmt_d (Z.of_N n)) = inr n.
Proof.
  intros Hn. unfold loghttp.parseLimit. rewrite parse_d_fmt_d.
  rewrite decide_True by lia. by rewrite N2Z.id.
Qed.

Lemma parseDirection_String (d : Direction) :
  loghttp.parseDirection (Direction_String d) = inr d.
Proof. by destruct d. Qed.

Lemma Values_Encode_lookup_default (v : Values) (key : string) :
  default [] (Values_Encode v !! key) = default [] (v !! key).
Proof.
  unfold Values_Encode.
  destruct (v !! key) as [[|x xs]|] eqn:Hv; simpl.
  - rewrite map_lookup_filter_None_2; [done|].
    right. intros values Hvalues. simplify_eq. simpl. by intros [].
  - by erewrite map_lookup_filter_Some_2.
  - rewrite map_lookup_filter_None_2; [done|]. by left.
Qed.

Lemma Values_Encode_Get (v : Values) (key : string) :
  Values_Get (Values_Encode v) key = Values_Get v key.
Proof.
  unfold Values_Get.
  pose proof (Values_Encode_lookup_default v key) as Hd.
  destruct (v !! key) as [[|x xs]|], (Values_Encode v !! key) as [[|y ys]|];
    by simplify_eq/=.
Qed.

Section codec_facts.
Context {opq : Opaque} {col : Collaborators}.

(** Reads the parameters back out of the values [EncodeRequest] wrote. *)
Ltac read_params :=
  repeat first
    [ rewrite Values_Encode_Get
    | rewrite Values_Encode_lookup_default ];
  unfold Values_Get;
  repeat first
    [ rewrite lookup_insert_eq
    | rewrite lookup_insert_ne by done
    | rewrite lookup_singleton_eq
    | rewrite lookup_singleton_ne by done
    | rewrite lookup_empty ];
  simpl.

(** C3, as the code has it. A request whose times and limit fit their
    machine types, and for a range query whose step is read back without
    error, is encoded and decoded to a request of the same type with the
    same query, times (to the nanosecond, so also in milliseconds), limit,
    direction, shards and matchers. Its path is the path that
    [EncodeRequest] writes for the type, whatever the path of the request
    was. *)
Theorem DecodeRequest_EncodeRequest (ctx : RequestContext.t) (r : Request) :
  timesInRange r →
  limitInRange r →
  match r with
  | RangeQuery q => ∃ step, parseStepSeconds (stepParameter q) = inr step
  | _ => True
  end →
  ∃ r', (req ← EncodeRequest ctx r; DecodeRequest req) = Ok r'
        ∧ sameQuery r r'
        ∧ GetStart r' = GetStart r
        ∧ GetEnd r' = GetEnd r
        ∧ requestPath r' = canonicalPath r.
Proof.
  unfold timesInRange. intros Htimes Hlimit Hstep.
  destruct r as [q|q|q|q]; simpl in *.
  - destruct Hstep as [step Hstep]. unfold stepParameter in Hstep.
    apply Forall_cons in Htimes as [Hs [He _]%Forall_cons].
    unfold DecodeRequest. simpl.
    change (getOperation "/loki/api/v1/query_range") with QueryRangeOp.
    cbv iota. unfold loghttp.ParseRangeQuery, loghttp.shards.
    destruct (decide (0 < length (LokiRequest.Shards q))%nat) as [Hsh|Hsh],
      (decide (LokiRequest.Step q ≠ 0)) as [Hst|Hst];
      read_params.
    all: rewrite !parseTimestamp_fmt_d, parseLimit_fmt_d,
           parseDirection_String by done; simpl.
    all: rewrite Hstep; simpl.
    all: eexists; split; [done|]; simpl.
    all: split_and!; try done.
    all: destruct (LokiRequest.Shards q); simpl in *; [done|lia].
  - apply Forall_cons in Htimes as [Ht _].
    unfold DecodeRequest. simpl.
    change (getOperation "/loki/api/v1/query") with InstantQueryOp.
    cbv iota. unfold loghttp.ParseInstantQuery, loghttp.shards.
    destruct (decide (0 < length (LokiInstantRequest.Shards q))%nat) as [Hsh|Hsh];
      read_params.
    all: rewrite !parseTimestamp_fmt_d, parseLimit_fmt_d,
           parseDirection_String by done; simpl.
    all: eexists; split; [done|]; simpl.
    all: split_and!; try done.
    all: destruct (LokiInstantRequest.Shards q); simpl in *; [done|lia].
  - apply Forall_cons in Htimes as [Hs [He _]%Forall_cons].
    unfold DecodeRequest. simpl.
    change (getOperation "/loki/api/v1/series") with SeriesOp.
    cbv iota. unfold loghttp.ParseAndValidateSeriesQuery, loghttp.shards.
    destruct (decide (0 < length (LokiSeriesRequest.Shards q))%nat) as [Hsh|Hsh];
      read_params.
    all: rewrite !parseTimestamp_fmt_d by done; simpl.
    all: eexists; split; [done|]; simpl.
    all: split_and!; try done.
    all: destruct (LokiSeriesRequest.Shards q); simpl in *; [done|lia].
  - apply Forall_cons in Htimes as [Hs [He _]%Forall_cons].
    unfold DecodeRequest. simpl.
    change (getOperation "/loki/api/v1/labels") with LabelNamesOp.
    cbv iota. unfold loghttp.ParseLabelQuery.
    read_params.
    rewrite !parseTimestamp_fmt_d by done; simpl.
    eexists; split; [done|]; simpl.
    by split_and!.
Qed.
End codec_facts.

Section codec_examples.
Local Existing Instance exampleOpaque.
Local Existing Instance exampleCollaborators.

Lemma DecodeRequest_EncodeRequest_witness :
  timesInRange (RangeQuery exampleLegacyRangeQuery)
  ∧ limitInRange (RangeQuery exampleLegacyRangeQuery)
  ∧ (∃ step, parseStepSeconds (stepParameter exampleLegacyRangeQuery) = inr step)
  ∧ ∃ r', (req ← EncodeRequest exampleContext (RangeQuery exampleLegacyRangeQuery);
           DecodeRequest req) = Ok r'
          ∧ sameQuery (RangeQuery exampleLegacyRangeQuery) r'
          ∧ GetStart r' = GetStart (RangeQuery exampleLegacyRangeQuery)
          ∧ GetEnd r' = GetEnd (RangeQuery exampleLegacyRangeQuery)
          ∧ requestPath r' = "/loki/api/v1/query_range".
Proof.
  assert (Htimes : timesInRange (RangeQuery exampleLegacyRangeQuery))
    by (repeat constructor; discriminate).
  assert (Hlimit : limitInRange (RangeQuery exampleLegacyRangeQuery))
    by reflexivity.
  assert (Hstep : ∃ step, parseStepSeconds
                            (stepParameter exampleLegacyRangeQuery) = inr step)
    by (exists (15 * Second); reflexivity).
  split_and!; [exact Htimes|exact Hlimit|exact Hstep|].
  exact (DecodeRequest_EncodeRequest exampleContext
           (RangeQuery exampleLegacyRangeQuery) Htimes Hlimit Hstep).
Defined.

(** C3, as the specification words it, fails on the path: a request with
    the legacy path comes back with the path of the current API. *)
Lemma DecodeRequest_EncodeRequest_changes_path :
  (req ← EncodeRequest exampleContext (RangeQuery exampleLegacyRangeQuery);
   DecodeRequest req)
  = Ok (RangeQuery exampleRangeQuery)
  ∧ LokiRequest.Path exampleRangeQuery ≠ LokiRequest.Path exampleLegacyRangeQuery.
Proof. split; [vm_compute; reflexivity|discriminate]. Qed.
End codec_examples.

Section series_limiter_examples.
Local Existing Instance exampleOpaque.
Local Existing Instance exampleCollaborators.
Import seriesLimiter.


End series_limiter_examples.

(** ** Merging log streams *)

(** *** Relations between the elements of a list *)

Section pairwise_facts.
Context {A : Type} (R : relation A).

Lemma pairwise_StronglySorted (l : list A) :
  pairwise R l ↔ StronglySorted R l.
Proof.
  unfold pairwise. induction l as [|a l IH].
  - split; [constructor|]. intros _ i j x y _ Hi. by destruct i.
  - rewrite StronglySorted_cons, <-IH. split.
    + intros Hall. split.
      * apply Forall_forall. intros y [j Hj]%list_elem_of_lookup.
        by apply (Hall 0%nat (S j)); [lia|..].
      * intros i j x y Hij Hx Hy. by apply (Hall (S i) (S j)); [lia|..].
    + intros [Hhead Htail] i j x y Hij Hx Hy.
      destruct j as [|j]; [lia|]. destruct i as [|i]; simplify_eq/=.
      * eapply Forall_forall; [done|]. by eapply list_elem_of_lookup_2.
      * eapply (Htail i j); [lia|done..].
Qed.

Lemma StronglySorted_Permutation `{!Symmetric R} (l l' : list A) :
  l ≡ₚ l' → StronglySorted R l → StronglySorted R l'.
Proof.
  induction 1 as [|x l l' Hperm IH|x y l|l l' l'' _ IH1 _ IH2]; intros Hl.
  - done.
  - apply StronglySorted_cons in Hl as [Hx Hl].
    apply StronglySorted_cons. split; [|auto]. by rewrite <-Hperm.
  - apply StronglySorted_cons in Hl as [Hy Hl].
    apply StronglySorted_cons in Hl as [Hx Hl].
    apply Forall_cons in Hy as [Hyx Hy].
    repeat (apply StronglySorted_cons; split); auto.
  - auto.
Qed.

Lemma StronglySorted_sublist (l l' : list A) :
  l' `sublist_of` l → StronglySorted R l → StronglySorted R l'.
Proof.
  induction 1 as [|x l' l Hsub IH|x l' l Hsub IH]; intros Hl.
  - done.
  - apply StronglySorted_cons in Hl as [Hx Hl].
    apply StronglySorted_cons. split; [|auto].
    apply Forall_forall. intros y Hy.
    eapply Forall_forall; [done|]. by eapply elem_of_sublist.
  - apply StronglySorted_cons in Hl as [_ Hl]. auto.
Qed.

Lemma StronglySorted_and (R' : relation A) (l : list A) :
  StronglySorted R l → StronglySorted R' l →
  StronglySorted (λ x y, R x y ∧ R' x y) l.
Proof.
  induction l as [|a l IH]; [constructor|].
  rewrite !StronglySorted_cons. intros [Ha Hl] [Ha' Hl'].
  split; [|auto]. by apply Forall_and.
Qed.

Lemma StronglySorted_impl (R' : relation A) (l : list A) :
  (∀ x y, R x y → R' x y) → StronglySorted R l → StronglySorted R' l.
Proof.
  intros HR. induction 1 as [|a l _ IH Ha]; constructor; [done|].
  eapply Forall_impl; [done|]. auto.
Qed.
End pairwise_facts.

(** *** The merge of the marker runs of one label *)

Section byDir_facts.
Variable d : Direction.

Lemma startBefore_spec (x y : list Entry.t) :
  startBefore d x y ↔
  match d with
  | FORWARD => byDir.start x ≤ byDir.start y
  | BACKWARD => byDir.start y ≤ byDir.start x
  end.
Proof. unfold startBefore, byDir.before. destruct d; apply bool_decide_eq_true. Qed.

Lemma startBefore_total (x y : list Entry.t) :
  byDir.before d x y = false → startBefore d y x.
Proof.
  intros Hf. apply startBefore_spec. revert Hf. unfold byDir.before.
  destruct d; intros Hf%bool_decide_eq_false; lia.
Qed.

Global Instance startBefore_trans : Transitive (startBefore d).
Proof.
  intros x y z. rewrite !startBefore_spec. destruct d; lia.
Qed.

Global Instance nonOverlapping_sym : Symmetric (nonOverlapping d).
Proof. intros a b [Hab|Hba]; [right|left]; intros x y Hx Hy; auto. Qed.

Global Instance entryBefore_trans : Transitive (entryBefore d).
Proof. intros x y z. unfold entryBefore. destruct d; lia. Qed.

Lemma insert_Permutation (m : list Entry.t) (l : list (list Entry.t)) :
  byDir.insert d m l ≡ₚ m :: l.
Proof.
  induction l as [|m' l IH]; simpl; [done|].
  destruct (byDir.before d m m'); [done|].
  rewrite IH. apply Permutation_swap.
Qed.

Lemma sort_Permutation (ms : list (list Entry.t)) : byDir.sort d ms ≡ₚ ms.
Proof.
  unfold byDir.sort. induction ms as [|m ms IH]; simpl; [done|].
  by rewrite insert_Permutation, IH.
Qed.

Lemma insert_sorted (m : list Entry.t) (l : list (list Entry.t)) :
  StronglySorted (startBefore d) l → StronglySorted (startBefore d) (byDir.insert d m l).
Proof.
  induction 1 as [|m' l Hl IH Hm']; simpl; [by repeat constructor|].
  destruct (byDir.before d m m') eqn:Hcmp.
  - apply StronglySorted_cons. split; [|by constructor].
    constructor; [done|].
    eapply Forall_impl; [done|]. intros z Hz. by transitivity m'.
  - apply StronglySorted_cons. split; [|done].
    rewrite insert_Permutation. constructor; [|done].
    by apply startBefore_total.
Qed.

Lemma sort_sorted (ms : list (list Entry.t)) :
  StronglySorted (startBefore d) (byDir.sort d ms).
Proof.
  unfold byDir.sort. induction ms as [|m ms IH]; simpl; [constructor|].
  by apply insert_sorted.
Qed.

Lemma startBefore_nonOverlapping (a b : list Entry.t) :
  startBefore d a b → nonOverlapping d a b → precedes d a b.
Proof.
  intros Hstart Hno x y Hx Hy.
  destruct a as [|ha a]; [by apply elem_of_nil in Hx|].
  destruct b as [|hb b]; [by apply elem_of_nil in Hy|].
  apply startBefore_spec in Hstart. simpl in Hstart.
  destruct Hno as [Hab|Hba].
  - specialize (Hab x y Hx Hy). revert Hab.
    unfold entryStrictlyBefore, entryBefore. destruct d; lia.
  - specialize (Hba ha hb ltac:(left) ltac:(left)). revert Hba.
    unfold entryStrictlyBefore. destruct d; lia.
Qed.

Lemma concat_sorted (runs : list (list Entry.t)) :
  Forall (sortedEntries d) runs →
  StronglySorted (precedes d) runs →
  sortedEntries d (concat runs).
Proof.
  unfold sortedEntries.
  induction runs as [|a runs IH]; simpl; [constructor|].
  intros [Ha Hruns]%Forall_cons [Hprec Hsorted]%StronglySorted_cons.
  apply StronglySorted_app_2; [|done|auto].
  intros x y Hx [b [Hb Hy]]%list_elem_of_In%in_concat.
  apply list_elem_of_In in Hb, Hy.
  eapply Forall_forall in Hprec; [|done]. by apply Hprec.
Qed.

(** Runs that are sorted and do not overlap merge into a sorted run. *)
Lemma merge_sorted (runs : list (list Entry.t)) :
  Forall (sortedEntries d) runs →
  StronglySorted (nonOverlapping d) runs →
  sortedEntries d (concat (byDir.sort d runs)).
Proof.
  intros Hruns Hno.
  assert (Hno' : StronglySorted (nonOverlapping d) (byDir.sort d runs)).
  { apply (StronglySorted_Permutation (nonOverlapping d) runs); [|done].
    symmetry. apply sort_Permutation. }
  apply concat_sorted.
  - by rewrite sort_Permutation.
  - apply (StronglySorted_impl
             (λ a b, startBefore d a b ∧ nonOverlapping d a b)).
    + intros a b [Hstart Hpair]. by apply startBefore_nonOverlapping.
    + apply StronglySorted_and; [apply sort_sorted|done].
Qed.

Lemma length_concat_runs (runs : list (list Entry.t)) :
  length (concat runs) = sum_list_with length runs.
Proof. induction runs as [|a runs IH]; simpl; [done|]. by rewrite length_app, IH. Qed.

Lemma merge_length (runs : list (list Entry.t)) :
  length (concat (byDir.sort d runs)) = sum_list_with length runs.
Proof. by rewrite length_concat_runs, sort_Permutation. Qed.
End byDir_facts.

(** *** Sums over a list of keys *)

Lemma sum_list_with_add {A} (f g : A → nat) (l : list A) :
  sum_list_with (λ x, f x + g x)%nat l
  = (sum_list_with f l + sum_list_with g l)%nat.
Proof. induction l as [|x l IH]; simpl; [done|]. rewrite IH. lia. Qed.

Lemma sum_list_with_ext {A} (f g : A → nat) (l : list A) :
  (∀ x, x ∈ l → f x = g x) → sum_list_with f l = sum_list_with g l.
Proof.
  induction l as [|x l IH]; simpl; intros Hfg; [done|].
  rewrite Hfg, IH; [done| |left]. intros y Hy. apply Hfg. by right.
Qed.

Lemma sum_list_with_indicator (keys : list string) (k0 : string) (a : nat) :
  NoDup keys →
  sum_list_with (λ k, if decide (k0 = k) then a else 0%nat) keys
  = if decide (k0 ∈ keys) then a else 0%nat.
Proof.
  induction 1 as [|k keys Hk Hnd IH].
  - simpl. destruct (decide (k0 ∈ [])) as [Hin|_]; [|done].
    by apply elem_of_nil in Hin.
  - cbn [sum_list_with]. rewrite IH.
    destruct (decide (k0 = k)) as [Heq|Hne], (decide (k0 ∈ keys)) as [Hin|Hout],
      (decide (k0 ∈ k :: keys)) as [Hin'|Hout'];
      subst; try done; try lia; exfalso.
    + apply Hout'. by left.
    + apply Hout'. by right.
    + apply elem_of_cons in Hin' as [?|?]; done.
Qed.

(** *** The grouping of the streams by labels *)

Section grouping_facts.
Context {opq : Opaque}.
Variable d : Direction.

Lemma Count_countEntries (streams : list Stream.t) :
  Count streams = Z.of_nat (countEntries streams).
Proof.
  unfold Count, countEntries.
  assert (Hgen : ∀ a, foldl (λ result s,
                               result + Z.of_nat (length (Stream.Entries s)))
                            a streams
                      = a + Z.of_nat (sum_list_with
                                        (λ s, length (Stream.Entries s)) streams)).
  { induction streams as [|s streams IH]; intros a; simpl; [lia|].
    rewrite IH. lia. }
  rewrite Hgen. lia.
Qed.

Lemma countEntries_app (l1 l2 : list Stream.t) :
  countEntries (l1 ++ l2) = (countEntries l1 + countEntries l2)%nat.
Proof. apply sum_list_with_app. Qed.

Lemma runsOf_app (k : string) (l1 l2 : list Stream.t) :
  runsOf k (l1 ++ l2) = runsOf k l1 ++ runsOf k l2.
Proof. unfold runsOf. by rewrite filter_app, fmap_app. Qed.

Lemma runsOf_singleton (k : string) (s : Stream.t) :
  runsOf k [s] = if decide (Stream.Labels s = k) then [Stream.Entries s] else [].
Proof.
  unfold runsOf. rewrite filter_cons, filter_nil.
  by destruct (decide (Stream.Labels s = k)).
Qed.

Lemma grouped_nil : grouped d [] (∅, 0).
Proof.
  split_and!; simpl.
  - intros k g. by rewrite lookup_empty.
  - done.
  - intros k. unfold markersIn. by rewrite lookup_empty.
  - intros k. rewrite lookup_empty. split; [by intros []|].
    by intros ?%elem_of_nil.
Qed.

Lemma grouped_addStream (streams : list Stream.t) acc (s : Stream.t) :
  grouped d streams acc → grouped d (streams ++ [s]) (addStream d acc s).
Proof.
  destruct acc as [groups total]. intros (Hdir & Htotal & Hruns & Hdom).
  simpl in *. unfold addStream.
  split_and!; simpl.
  - intros k g. destruct (decide (Stream.Labels s = k)) as [<-|Hne].
    + rewrite lookup_insert_eq. intros [= <-]. simpl.
      destruct (groups !! Stream.Labels s) eqn:Hg; [|done]. by eapply Hdir.
    + rewrite lookup_insert_ne by done. apply Hdir.
  - rewrite countEntries_app, Htotal. unfold countEntries at 3. simpl. lia.
  - intros k. rewrite runsOf_app, runsOf_singleton, <-Hruns.
    unfold markersIn. destruct (decide (Stream.Labels s = k)) as [<-|Hne].
    + rewrite lookup_insert_eq. simpl.
      by destruct (groups !! Stream.Labels s).
    + rewrite lookup_insert_ne by done. by rewrite app_nil_r.
  - intros k. rewrite fmap_app, elem_of_app, <-Hdom. simpl.
    rewrite list_elem_of_singleton.
    destruct (decide (Stream.Labels s = k)) as [<-|Hne].
    + rewrite lookup_insert_eq. split; [by right|by eexists].
    + rewrite lookup_insert_ne by done. naive_solver.
Qed.

Lemma grouped_foldl (streams l : list Stream.t) acc :
  grouped d streams acc → grouped d (streams ++ l) (foldl (addStream d) acc l).
Proof.
  revert streams acc. induction l as [|s l IH]; intros streams acc Hacc; simpl.
  - by rewrite app_nil_r.
  - replace (streams ++ s :: l) with ((streams ++ [s]) ++ l)
      by by rewrite <-app_assoc.
    by apply IH, grouped_addStream.
Qed.

Lemma allStreams_app (l1 l2 : list LokiResponse.t) :
  allStreams (l1 ++ l2) = allStreams l1 ++ allStreams l2.
Proof. unfold allStreams. by rewrite fmap_app, concat_app. Qed.

(** The outer loop takes in the responses up to the one that brings the
    total to the limit. *)
Lemma groupStreams_grouped (limit : N) (resps pre : list LokiResponse.t) acc :
  grouped d (allStreams pre) acc →
  ∃ n, (n ≤ length resps)%nat
       ∧ grouped d (allStreams (pre ++ take n resps))
                 (groupStreams d limit resps acc)
       ∧ (n = length resps ∨ Z.of_N limit ≤ (groupStreams d limit resps acc).2).
Proof.
  revert pre acc. induction resps as [|resp resps IH]; intros pre acc Hacc; simpl.
  - exists 0%nat. rewrite app_nil_r. auto.
  - assert (Hstep : grouped d (allStreams (pre ++ [resp]))
              (foldl (addStream d) acc
                     (LokiData.Result (LokiResponse.Data resp)))).
    { rewrite allStreams_app. unfold allStreams at 2. simpl.
      rewrite app_nil_r. by apply grouped_foldl. }
    destruct (decide _) as [Hfull|Hmore].
    + exists 1%nat. simpl. rewrite take_0. split_and!; [lia|done|by right].
    + destruct (IH (pre ++ [resp]) _ Hstep) as (n & Hn & Hg & Hend).
      exists (S n). simpl. rewrite <-app_assoc in Hg. simpl in Hg.
      split_and!; [lia|done|]. destruct Hend as [->|?]; auto.
Qed.
End grouping_facts.

(** *** The sorted keys and the merged entries of a label *)

Section keys_facts.
Context {opq : Opaque}.
Variable d : Direction.

Lemma sortedKeys_Permutation (groups : gmap string byDir.t) :
  sortedKeys d groups ≡ₚ (map_to_list groups).*1.
Proof.
  unfold sortedKeys, sort_Reverse_Strings, sort_Strings.
  destruct (decide (d = BACKWARD)); apply merge_sort_Permutation.
Qed.

Lemma sortedKeys_NoDup (groups : gmap string byDir.t) :
  NoDup (sortedKeys d groups).
Proof. rewrite sortedKeys_Permutation. apply NoDup_fst_map_to_list. Qed.

Lemma elem_of_sortedKeys (groups : gmap string byDir.t) (k : string) :
  k ∈ sortedKeys d groups ↔ is_Some (groups !! k).
Proof.
  rewrite sortedKeys_Permutation, list_elem_of_fmap. split.
  - intros [[k' g] [-> Hin%elem_of_map_to_list]]. by eexists.
  - intros [g Hg]. exists (k, g). split; [done|]. by apply elem_of_map_to_list.
Qed.

Lemma mergedEntries_grouped (streams : list Stream.t) groups total k :
  grouped d streams (groups, total) →
  mergedEntries groups k = concat (byDir.sort d (runsOf k streams)).
Proof.
  intros (Hdir & _ & Hruns & _). simpl in *.
  rewrite <-Hruns. unfold mergedEntries, markersIn, byDir.merge.
  destruct (groups !! k) as [g|] eqn:Hg; [|done].
  by rewrite (Hdir k g Hg).
Qed.

(** Every entry is counted under exactly one key. *)
Lemma sum_runs_over_keys (keys : list string) (streams : list Stream.t) :
  NoDup keys →
  (∀ s, s ∈ streams → Stream.Labels s ∈ keys) →
  sum_list_with (λ k, sum_list_with length (runsOf k streams)) keys
  = countEntries streams.
Proof.
  intros Hnd. induction streams as [|s streams IH]; intros Hin.
  - unfold runsOf. simpl. clear. induction keys; simpl; [done|]. done.
  - rewrite (sum_list_with_ext _
               (λ k, (if decide (Stream.Labels s = k)
                      then length (Stream.Entries s) else 0)
                     + sum_list_with length (runsOf k streams))%nat).
    + rewrite sum_list_with_add, sum_list_with_indicator by done.
      rewrite decide_True by (apply Hin; left).
      rewrite IH by (intros s' Hs'; apply Hin; by right).
      unfold countEntries. simpl. done.
    + intros k _. change (s :: streams) with ([s] ++ streams).
      rewrite runsOf_app, sum_list_with_app, runsOf_singleton.
      destruct (decide (Stream.Labels s = k)); simpl; lia.
Qed.

Lemma sum_merged_over_keys (streams : list Stream.t) groups total :
  grouped d streams (groups, total) →
  sum_list_with (λ k, length (mergedEntries groups k)) (sortedKeys d groups)
  = countEntries streams.
Proof.
  intros Hg.
  rewrite <-(sum_runs_over_keys (sortedKeys d groups) streams).
  - apply sum_list_with_ext. intros k _.
    by rewrite (mergedEntries_grouped streams groups total k Hg), merge_length.
  - apply sortedKeys_NoDup.
  - intros s Hs. apply elem_of_sortedKeys.
    destruct Hg as (_ & _ & _ & Hdom). apply Hdom. simpl.
    by apply list_elem_of_fmap_2.
Qed.

Lemma countEntries_streams_of_keys (f : string → list Entry.t)
    (keys : list string) :
  countEntries ((λ key, Stream.mk key (f key)) <$> keys)
  = sum_list_with (λ k, length (f k)) keys.
Proof.
  unfold countEntries. induction keys as [|k keys IH]; csimpl; [done|].
  by rewrite IH.
Qed.

Lemma countEntries_filter_nonempty (streams : list Stream.t) :
  countEntries (filter (λ stream, 0 < length (Stream.Entries stream))%nat streams)
  = countEntries streams.
Proof.
  unfold countEntries. induction streams as [|s streams IH]; [done|].
  rewrite filter_cons. destruct (decide _) as [Hpos|Hzero]; simpl.
  - by rewrite IH.
  - rewrite IH. lia.
Qed.
End keys_facts.

(** *** The priority queue *)

Section priorityqueue_facts.
Context {opq : Opaque}.

Lemma extract_min_Permutation (d : Direction) (s : Stream.t)
    (rest : list Stream.t) m others :
  priorityqueue.extract_min d s rest = (m, others) →
  s :: rest ≡ₚ m :: others.
Proof.
  revert s m others. induction rest as [|s' rest IH]; intros s m others; simpl.
  - by intros [= <- <-].
  - destruct (priorityqueue.extract_min d s' rest) as [m' others'] eqn:Hrec.
    specialize (IH _ _ _ Hrec).
    destruct (priorityqueue.Less d s m'); intros [= <- <-]; [done|].
    rewrite IH. apply Permutation_swap.
Qed.

(** What one [heap.Pop] does to a queue of streams that all hold entries:
    it takes the first entry of one of them. *)
Lemma Pop_spec (pq : priorityqueue.t) :
  Forall (λ s, Stream.Entries s ≠ []) (priorityqueue.streams pq) →
  priorityqueue.streams pq ≠ [] →
  ∃ m e remaining others,
    priorityqueue.streams pq ≡ₚ m :: others
    ∧ Stream.Entries m = e :: remaining
    ∧ priorityqueue.Pop pq
      = Some (Stream.mk (Stream.Labels m) [e],
              priorityqueue.mk
                (others ++ (if decide (remaining = []) then []
                            else [Stream.mk (Stream.Labels m) remaining]))
                (priorityqueue.direction pq)).
Proof.
  intros Hne Hpq. unfold priorityqueue.Pop.
  destruct (priorityqueue.streams pq) as [|s rest] eqn:Hstreams; [done|].
  destruct (priorityqueue.extract_min _ s rest) as [m others] eqn:Hmin.
  apply extract_min_Permutation in Hmin.
  assert (Hm : Stream.Entries m ≠ []).
  { rewrite Hmin in Hne. by apply Forall_cons in Hne as [? _]. }
  destruct (Stream.Entries m) as [|e remaining] eqn:Hentries; [done|].
  exists m, e, remaining, others. split_and!; [done|done|].
  destruct remaining; simpl; [|done]. by rewrite app_nil_r.
Qed.

Lemma Pop_nil (pq : priorityqueue.t) :
  priorityqueue.streams pq = [] → priorityqueue.Pop pq = None.
Proof. unfold priorityqueue.Pop. by intros ->. Qed.

(** With one stream per labels, the runs under some labels do not depend on
    the order of the streams. *)
Lemma runsOf_Permutation (k : string) (l l' : list Stream.t) :
  NoDup (Stream.Labels <$> l) → l ≡ₚ l' → runsOf k l = runsOf k l'.
Proof.
  intros Hnd Hperm. unfold runsOf.
  assert (Hfilter : filter (λ s, Stream.Labels s = k) l
                    ≡ₚ filter (λ s, Stream.Labels s = k) l')
    by by rewrite Hperm.
  assert (Hnd' : NoDup (Stream.Labels <$> filter (λ s, Stream.Labels s = k) l)).
  { apply (sublist_NoDup _ (Stream.Labels <$> l)); [done|].
    apply fmap_sublist, sublist_filter. }
  assert (Hall : Forall (λ s, Stream.Labels s = k)
                   (filter (λ s, Stream.Labels s = k) l)).
  { apply Forall_forall. by intros s [? _]%list_elem_of_filter. }
  destruct (filter (λ s, Stream.Labels s = k) l) as [|a [|b t]].
  - apply Permutation_nil_l in Hfilter. by rewrite <-Hfilter.
  - apply Permutation_singleton_l in Hfilter. by rewrite <-Hfilter.
  - exfalso. apply Forall_cons in Hall as [Ha [Hb _]%Forall_cons].
    simpl in Hnd'. apply NoDup_cons in Hnd' as [Hnotin _].
    apply Hnotin. rewrite Ha, <-Hb. left.
Qed.

Lemma runsOf_not_elem (k : string) (l : list Stream.t) :
  k ∉ Stream.Labels <$> l → runsOf k l = [].
Proof.
  intros Hk. unfold runsOf.
  induction l as [|s l IH]; [done|].
  rewrite filter_cons. rewrite fmap_cons, not_elem_of_cons in Hk.
  destruct Hk as [Hne Hk]. rewrite decide_False by done. auto.
Qed.
End priorityqueue_facts.

(** *** The loop that pops the entries *)

Section popEntries_facts.
Context {opq : Opaque}.
(** The keys, and the merged entries of each key. *)
Variable keys : list string.
Variable merged : string → list Entry.t.

Lemma pqEntries_cons_eq (m : Stream.t) (others : list Stream.t) :
  Stream.Labels m ∉ Stream.Labels <$> others →
  pqEntries (Stream.Labels m) (m :: others) = Stream.Entries m.
Proof.
  intros Hm. unfold pqEntries.
  change (m :: others) with ([m] ++ others).
  rewrite runsOf_app, runsOf_singleton, decide_True by done.
  rewrite runsOf_not_elem by done. simpl. by rewrite app_nil_r.
Qed.

Lemma pqEntries_cons_ne (k : string) (m : Stream.t) (others : list Stream.t) :
  Stream.Labels m ≠ k →
  pqEntries k (m :: others) = pqEntries k others.
Proof.
  intros Hm. unfold pqEntries.
  change (m :: others) with ([m] ++ others).
  by rewrite runsOf_app, runsOf_singleton, decide_False by done.
Qed.

Lemma pqEntries_snoc (k : string) (others : list Stream.t) (lm : string)
    (remaining : list Entry.t) :
  pqEntries k (others ++ (if decide (remaining = []) then []
                          else [Stream.mk lm remaining]))
  = pqEntries k others ++ (if decide (lm = k) then remaining else []).
Proof.
  unfold pqEntries. rewrite runsOf_app, concat_app. f_equal.
  destruct (decide (remaining = [])) as [->|Hne].
  - by destruct (decide (lm = k)).
  - rewrite runsOf_singleton. simpl.
    destruct (decide (lm = k)); simpl; [by rewrite app_nil_r|done].
Qed.

Lemma queueInv_pop (pq : priorityqueue.t) (resultDict : gmap string Stream.t)
    (m : Stream.t) (e : Entry.t) (remaining : list Entry.t)
    (others : list Stream.t) (s : Stream.t) :
  queueInv keys merged pq resultDict →
  priorityqueue.streams pq ≡ₚ m :: others →
  Stream.Entries m = e :: remaining →
  s = match resultDict !! Stream.Labels m with
      | Some s => s
      | None => Stream.mk (Stream.Labels m) []
      end →
  let streams' :=
    others ++ (if decide (remaining = []) then []
               else [Stream.mk (Stream.Labels m) remaining]) in
  queueInv keys merged (priorityqueue.mk streams' (priorityqueue.direction pq))
           (<[Stream.Labels m :=
                Stream.mk (Stream.Labels s) (Stream.Entries s ++ [e])]>
              resultDict)
  ∧ (countEntries streams' + 1
     = countEntries (priorityqueue.streams pq))%nat.
Proof.
  intros (Hnd & Hne & Hkeys & Hsplit & Hlabels) Hperm Hentries Hs streams'.
  assert (Hnd' : NoDup (Stream.Labels m :: (Stream.Labels <$> others))).
  { change (NoDup (Stream.Labels <$> m :: others)). by rewrite <-Hperm. }
  apply NoDup_cons in Hnd' as [Hm Hothers].
  rewrite Hperm in Hne, Hkeys.
  apply Forall_cons in Hne as [_ Hne]. apply Forall_cons in Hkeys as [Hmk Hkeys].
  assert (Hsl : Stream.Labels s = Stream.Labels m).
  { subst s. destruct (resultDict !! Stream.Labels m) eqn:Hrd; [|done].
    by eapply Hlabels. }
  assert (Hse : Stream.Entries s = rdEntries resultDict (Stream.Labels m)).
  { subst s. unfold rdEntries. by destruct (resultDict !! Stream.Labels m). }
  split.
  - split_and!; simpl.
    + unfold streams'. rewrite fmap_app. apply NoDup_app. split_and!; [done| |].
      * intros k Hk. destruct (decide (remaining = [])); simpl.
        -- apply not_elem_of_nil.
        -- intros ->%list_elem_of_singleton. done.
      * destruct (decide (remaining = [])); simpl;
          [constructor|apply NoDup_singleton].
    + unfold streams'. apply Forall_app. split; [done|].
      destruct (decide (remaining = [])); by repeat constructor.
    + unfold streams'. apply Forall_app. split; [done|].
      destruct (decide (remaining = [])); by repeat constructor.
    + intros k. unfold streams'. rewrite pqEntries_snoc, <-Hsplit.
      unfold pqEntries at 2.
      rewrite (runsOf_Permutation k _ (m :: others)) by done.
      fold (pqEntries k (m :: others)).
      unfold rdEntries at 1.
      destruct (decide (Stream.Labels m = k)) as [<-|Hne'].
      * rewrite lookup_insert_eq. simpl.
        rewrite pqEntries_cons_eq, Hentries, Hse by done.
        unfold pqEntries. rewrite runsOf_not_elem by done. simpl.
        by rewrite <-!app_assoc.
      * rewrite lookup_insert_ne by done.
        rewrite pqEntries_cons_ne by done. by rewrite app_nil_r.
    + intros k s'. destruct (decide (Stream.Labels m = k)) as [<-|Hne'].
      * rewrite lookup_insert_eq. by intros [= <-].
      * rewrite lookup_insert_ne by done. apply Hlabels.
  - unfold streams', countEntries. rewrite Hperm, sum_list_with_app. simpl.
    rewrite Hentries. destruct (decide (remaining = [])) as [->|_]; simpl; lia.
Qed.

Lemma popEntries_inv (n : nat) (pq : priorityqueue.t)
    (resultDict : gmap string Stream.t) :
  queueInv keys merged pq resultDict →
  ∃ pq', queueInv keys merged pq' (popEntries n pq resultDict)
         ∧ (countEntries (priorityqueue.streams pq')
            + n `min` countEntries (priorityqueue.streams pq)
            = countEntries (priorityqueue.streams pq))%nat.
Proof.
  revert pq resultDict.
  induction n as [|n IH]; intros pq resultDict Hinv; cbn [popEntries].
  - exists pq. split; [done|lia].
  - destruct (decide (priorityqueue.streams pq = [])) as [Hnil|Hcons].
    + rewrite Pop_nil by done. exists pq. split; [done|].
      rewrite Hnil. unfold countEntries. simpl. lia.
    + destruct (Pop_spec pq) as (m & e & remaining & others & Hperm & Hentries & HPop);
        [apply Hinv|done|].
      rewrite HPop. cbn [Stream.Labels Stream.Entries].
      edestruct (queueInv_pop pq resultDict m e remaining others)
        as [Hinv' Hcount]; [done..|].
      destruct (IH _ _ Hinv') as (pq' & Hinv'' & Hcount').
      exists pq'. split; [done|].
      cbv zeta in Hcount. cbn [priorityqueue.streams] in Hcount'. lia.
Qed.
End popEntries_facts.

(** *** The merge of the responses *)

Section merge_streams_correct.
Context {opq : Opaque}.

Lemma StronglySorted_impl_Forall {A} (R R' : relation A) (P : A → Prop)
    (l : list A) :
  (∀ x y, P x → P y → R x y → R' x y) →
  Forall P l → StronglySorted R l → StronglySorted R' l.
Proof.
  intros HR HP. induction 1 as [|a l _ IH Ha]; [constructor|].
  apply Forall_cons in HP as [Hpa HP]. constructor; [auto|].
  apply Forall_forall. intros y Hy.
  apply HR; [done| |]; by eapply Forall_forall.
Qed.

(** The merged entries of every label are sorted. *)
Lemma runs_sorted (d : Direction) (resps : list LokiResponse.t)
    (ingested : list Stream.t) (k : string) :
  orderedNonOverlapping d resps →
  ingested `sublist_of` allStreams resps →
  sortedEntries d (concat (byDir.sort d (runsOf k ingested))).
Proof.
  intros [Hsorted Hpair] Hsub.
  assert (Hsub' : filter (λ s, Stream.Labels s = k) ingested
                  `sublist_of` allStreams resps)
    by (etrans; [apply sublist_filter|done]).
  apply merge_sorted; unfold runsOf.
  - apply Forall_fmap, Forall_forall. intros s Hs.
    eapply Forall_forall in Hsorted; [done|]. by eapply elem_of_sublist.
  - apply pairwise_StronglySorted in Hpair.
    eapply StronglySorted_fmap;
      [|eapply (StronglySorted_impl_Forall _
                  (λ s1 s2, nonOverlapping d (Stream.Entries s1)
                                             (Stream.Entries s2))
                  (λ s, Stream.Labels s = k));
        [| |by eapply StronglySorted_sublist]].
    + done.
    + intros s1 s2 H1 H2 Hno. apply Hno. congruence.
    + apply Forall_forall. by intros s [? _]%list_elem_of_filter.
Qed.

Lemma pqEntries_initial (f : string → list Entry.t) (keys : list string)
    (k : string) :
  NoDup keys →
  pqEntries k (filter (λ stream, 0 < length (Stream.Entries stream))%nat
                      ((λ key, Stream.mk key (f key)) <$> keys))
  = if decide (k ∈ keys) then f k else [].
Proof.
  induction 1 as [|k0 keys Hk0 Hnd IH]; [done|].
  rewrite fmap_cons, filter_cons. simpl.
  destruct (decide (0 < length (f k0))%nat) as [Hpos|Hzero].
  - destruct (decide (k0 = k)) as [->|Hne].
    + rewrite decide_True by left.
      rewrite (pqEntries_cons_eq (Stream.mk k (f k))); [done|].
      simpl. intros [s [Hs [_ Hin]%list_elem_of_filter]]%list_elem_of_fmap.
      apply list_elem_of_fmap in Hin as [k' [-> Hk']]. simpl in Hs. by subst.
    + rewrite pqEntries_cons_ne by done. rewrite IH.
      destruct (decide (k ∈ keys)) as [Hin|Hout].
      * by rewrite decide_True by by right.
      * rewrite decide_False; [done|]. by intros [?|?]%elem_of_cons.
  - rewrite IH. destruct (decide (k0 = k)) as [->|Hne].
    + rewrite decide_False by done. rewrite decide_True by left.
      destruct (f k); [done|simpl in Hzero; lia].
    + destruct (decide (k ∈ keys)) as [Hin|Hout].
      * by rewrite decide_True by by right.
      * rewrite decide_False; [done|]. by intros [?|?]%elem_of_cons.
Qed.

Lemma labels_streams_of_keys (f : string → list Entry.t) (keys : list string) :
  Stream.Labels <$> ((λ key, Stream.mk key (f key)) <$> keys) = keys.
Proof. induction keys as [|k keys IH]; csimpl; [done|]. by rewrite IH. Qed.

Lemma countEntries_omap (resultDict : gmap string Stream.t)
    (keys : list string) :
  countEntries (omap (λ key, resultDict !! key) keys)
  = sum_list_with (λ k, length (rdEntries resultDict k)) keys.
Proof.
  unfold countEntries, rdEntries.
  induction keys as [|k keys IH]; csimpl; [done|].
  destruct (resultDict !! k); simpl; by rewrite IH.
Qed.

Lemma labels_omap_sublist (resultDict : gmap string Stream.t)
    (keys : list string) :
  (∀ k s, resultDict !! k = Some s → Stream.Labels s = k) →
  Stream.Labels <$> omap (λ key, resultDict !! key) keys `sublist_of` keys.
Proof.
  intros Hlabels. induction keys as [|k keys IH]; csimpl; [done|].
  destruct (resultDict !! k) as [s|] eqn:Hk; csimpl.
  - rewrite (Hlabels k s Hk). by apply sublist_skip.
  - by apply sublist_cons.
Qed.
End merge_streams_correct.

Section merge_streams_main.
Context {opq : Opaque}.

(** C1. For responses whose streams are sorted by the direction and, under
    the same labels, do not overlap in time, the merge returns one stream
    per labels; their entries number the smaller of the limit and the
    number of entries of all the responses, and the entries of each stream
    are sorted by the direction. *)
Theorem mergeOrderedNonOverlappingStreams_count_sorted
    (resps : list LokiResponse.t) (limit : N) (direction : Direction) :
  orderedNonOverlapping direction resps →
  Count (mergeOrderedNonOverlappingStreams resps limit direction)
  = Z.of_N limit `min` Count (allStreams resps)
  ∧ Forall (λ s, sortedEntries direction (Stream.Entries s))
           (mergeOrderedNonOverlappingStreams resps limit direction)
  ∧ NoDup (Stream.Labels
             <$> mergeOrderedNonOverlappingStreams resps limit direction).
Proof.
  intros Hpre. unfold mergeOrderedNonOverlappingStreams.
  destruct (groupStreams_grouped direction limit resps [] (∅, 0)
              (grouped_nil direction)) as (n & Hn & Hg & Hend).
  rewrite app_nil_l in Hg.
  destruct (groupStreams direction limit resps (∅, 0))
    as [groups total] eqn:Hgroups.
  simpl in Hend.
  set (ingested := allStreams (take n resps)) in *.
  set (keys := sortedKeys direction groups).
  set (merged := mergedEntries groups).
  assert (Hall : allStreams resps
                 = ingested ++ allStreams (drop n resps)).
  { unfold ingested. by rewrite <-allStreams_app, take_drop. }
  assert (Hsub : ingested `sublist_of` allStreams resps).
  { rewrite Hall. by apply sublist_inserts_r. }
  assert (Htotal : total = Z.of_nat (countEntries ingested)) by apply Hg.
  assert (Hcount_all : Count (allStreams resps)
                       = Z.of_nat (countEntries ingested
                                   + countEntries (allStreams (drop n resps)))).
  { by rewrite Count_countEntries, Hall, countEntries_app. }
  assert (Hend' : Count (allStreams resps) = total ∨ Z.of_N limit ≤ total).
  { destruct Hend as [->|?]; [left|by right].
    rewrite Hcount_all, drop_all, Htotal. unfold allStreams, countEntries.
    simpl. lia. }
  assert (Hsum : sum_list_with (λ k, length (merged k)) keys
                 = countEntries ingested)
    by by eapply sum_merged_over_keys.
  assert (Hmerged : ∀ k, sortedEntries direction (merged k)).
  { intros k. unfold merged.
    rewrite (mergedEntries_grouped direction ingested groups total k Hg).
    by eapply runs_sorted. }
  assert (Hnd : NoDup keys) by apply sortedKeys_NoDup.
  destruct (decide (total ≤ Z.of_N limit)) as [Hfits|Hover].
  - split_and!.
    + rewrite Count_countEntries, countEntries_streams_of_keys.
      fold merged. rewrite Hsum. lia.
    + apply Forall_fmap, Forall_forall. intros k _. apply Hmerged.
    + by rewrite labels_streams_of_keys.
  - set (pq := priorityqueue.mk _ direction).
    assert (Hinv : queueInv keys merged pq ∅).
    { split_and!; simpl.
      - apply (sublist_NoDup _ keys); [done|].
        etrans; [apply fmap_sublist, sublist_filter|].
        by rewrite labels_streams_of_keys.
      - apply Forall_forall. intros s [Hs _]%list_elem_of_filter.
        destruct (Stream.Entries s); simpl in Hs; [lia|done].
      - apply Forall_forall. intros s [_ Hs]%list_elem_of_filter.
        by apply list_elem_of_fmap in Hs as [k [-> Hk]].
      - intros k. unfold rdEntries. rewrite lookup_empty. simpl.
        rewrite pqEntries_initial by done.
        destruct (decide (k ∈ keys)) as [Hin|Hout]; [done|].
        unfold merged, mergedEntries.
        destruct (groups !! k) eqn:Hk; [|done].
        exfalso. apply Hout, elem_of_sortedKeys. by eexists.
      - intros k s. by rewrite lookup_empty. }
    destruct (popEntries_inv keys merged (N.to_nat limit) pq ∅ Hinv)
      as (pq' & (Hnd' & _ & Hkeys' & Hsplit' & Hlabels') & Hcount).
    set (resultDict := popEntries (N.to_nat limit) pq ∅) in *.
    assert (Hpq : countEntries (priorityqueue.streams pq)
                  = countEntries ingested).
    { unfold pq. simpl.
      by rewrite countEntries_filter_nonempty, countEntries_streams_of_keys. }
    assert (Hqueued : sum_list_with
                        (λ k, length (pqEntries k (priorityqueue.streams pq')))
                        keys
                      = countEntries (priorityqueue.streams pq')).
    { rewrite <-(sum_runs_over_keys keys (priorityqueue.streams pq')).
      - apply sum_list_with_ext. intros k _. apply length_concat_runs.
      - done.
      - intros s Hs. by eapply Forall_forall in Hkeys'. }
    assert (Hpopped : (sum_list_with (λ k, length (rdEntries resultDict k)) keys
                       + countEntries (priorityqueue.streams pq')
                       = countEntries ingested)%nat).
    { rewrite <-Hqueued, <-sum_list_with_add, <-Hsum.
      apply sum_list_with_ext. intros k _.
      by rewrite <-Hsplit', length_app. }
    split_and!.
    + rewrite Count_countEntries, countEntries_omap. lia.
    + apply Forall_forall. intros s [k [_ Hk]]%list_elem_of_omap.
      specialize (Hmerged k). rewrite <-Hsplit' in Hmerged.
      unfold rdEntries in Hmerged. rewrite Hk in Hmerged.
      by apply StronglySorted_app_1_l in Hmerged.
    + apply (sublist_NoDup _ keys); [done|].
      by apply labels_omap_sublist.
Qed.
End merge_streams_main.

Lemma nonOverlapping_before (d : Direction) (a b : list Entry.t) :
  Forall (λ x, Forall (entryStrictlyBefore d x) b) a → nonOverlapping d a b.
Proof.
  intros Hab. left. intros x y Hx Hy.
  eapply Forall_forall in Hab; [|done]. by eapply Forall_forall in Hab.
Qed.

Section merge_streams_examples.
Local Existing Instance exampleOpaque.

Lemma mergeOrderedNonOverlappingStreams_count_sorted_witness :
  orderedNonOverlapping BACKWARD [exampleResponseA; exampleResponseB]
  ∧ mergeOrderedNonOverlappingStreams [exampleResponseA; exampleResponseB]
      3 BACKWARD
    = [Stream.mk "foo=1" [Entry.mk 10 "a"; Entry.mk 9 "b"; Entry.mk 8 "c"]]
  ∧ Count (mergeOrderedNonOverlappingStreams
             [exampleResponseA; exampleResponseB] 3 BACKWARD)
    = 3 `min` Count (allStreams [exampleResponseA; exampleResponseB])
  ∧ Forall (λ s, sortedEntries BACKWARD (Stream.Entries s))
           (mergeOrderedNonOverlappingStreams
              [exampleResponseA; exampleResponseB] 3 BACKWARD)
  ∧ NoDup (Stream.Labels
             <$> mergeOrderedNonOverlappingStreams
                   [exampleResponseA; exampleResponseB] 3 BACKWARD).
Proof.
  assert (Hpre : orderedNonOverlapping BACKWARD
                   [exampleResponseA; exampleResponseB]).
  { split.
    - apply (bool_decide_unpack _). vm_compute. exact I.
    - apply pairwise_StronglySorted.
      apply SSorted_cons; [apply SSorted_cons; [apply SSorted_nil|apply Forall_nil_2]|].
      apply Forall_cons_2; [|apply Forall_nil_2].
      intros _. apply nonOverlapping_before.
      apply (bool_decide_unpack _). vm_compute. exact I. }
  split; [exact Hpre|]. split; [vm_compute; reflexivity|].
  exact (mergeOrderedNonOverlappingStreams_count_sorted
           [exampleResponseA; exampleResponseB] 3 BACKWARD Hpre).
Defined.
End merge_streams_examples.

(** * Further properties of the code *)

(** ** The split duration seen through the wrappers *)

(** [WithSplitByLimits] fixes the split duration for every tenant, whatever
    the overrides say; [WithDefaultLimits] lets a tenant's own value win and
    falls back to the configured interval only when that value is zero.
    Neither touches the other limits. *)
Theorem QuerySplitDuration_wrappers (l : Limits) (d : Z) (user : string) :
  QuerySplitDuration (WithSplitByLimits l d) user = d
  ∧ QuerySplitDuration (WithDefaultLimits l d) user
    = (if decide (QuerySplitDuration l user = 0) then d
       else QuerySplitDuration l user)
  ∧ (∀ wrapped, wrapped = WithSplitByLimits l d ∨ wrapped = WithDefaultLimits l d →
       MaxQueryLookback wrapped = MaxQueryLookback l
       ∧ MaxQueryLength wrapped = MaxQueryLength l
       ∧ MaxQueryParallelism wrapped = MaxQueryParallelism l
       ∧ MaxQuerySeries wrapped = MaxQuerySeries l
       ∧ MaxEntriesLimitPerQuery wrapped = MaxEntriesLimitPerQuery l
       ∧ MinShardingLookback wrapped = MinShardingLookback l).
Proof.
  split_and!.
  - done.
  - unfold WithDefaultLimits. simpl. unfold limits.QuerySplitDuration. simpl.
    destruct (decide (QuerySplitDuration l user = 0)) as [Hz|Hnz]; [|done].
    by destruct (decide (d ≠ 0)) as [?|?%dec_stable].
  - by intros wrapped [->| ->].
Qed.

(** ** Cache keys *)

(** The key generator never returns an error; it panics exactly when the
    split duration is shorter than one millisecond in absolute value, zero
    included, and returns a key otherwise. *)
Theorem GenerateCacheKey_panics_iff (l : Limits) (userID : string) (r : Request) :
  (∀ e, GenerateCacheKey l userID r ≠ Err e)
  ∧ ((∃ msg, GenerateCacheKey l userID r = Panic msg)
     ↔ - Millisecond < QuerySplitDuration l userID < Millisecond)
  ∧ ((∃ key, GenerateCacheKey l userID r = Ok key)
     ↔ ¬ (- Millisecond < QuerySplitDuration l userID < Millisecond)).
Proof.
  unfold GenerateCacheKey, int64_div.
  assert (Hzero : QuerySplitDuration l userID ÷ Millisecond = 0
                  ↔ - Millisecond < QuerySplitDuration l userID < Millisecond).
  { rewrite Z.quot_small_iff by done. unfold Millisecond. lia. }
  destruct (decide (QuerySplitDuration l userID ÷ Millisecond = 0)) as [Hq|Hq];
    simpl.
  - split_and!; [done| |].
    + split; [intros _; by apply Hzero|by eexists].
    + split; [by intros [? ?]|]. intros Hn. destruct Hn. by apply Hzero.
  - split_and!; [done| |].
    + split; [by intros [? ?]|]. intros Hn. destruct Hq. by apply Hzero.
    + split; [intros _ Hn; apply Hq; by apply Hzero|by eexists].
Qed.

Lemma append_String (c : Ascii.ascii) (a b : string) :
  String c a +:+ b = String c (a +:+ b).
Proof. done. Qed.

Lemma append_EmptyString (b : string) : EmptyString +:+ b = b.
Proof. done. Qed.

Lemma append_assoc_string (a b c : string) : (a +:+ b) +:+ c = a +:+ b +:+ c.
Proof.
  induction a as [|x a IH]; [done|]. rewrite !append_String. by f_equal.
Qed.

Lemma noColon_append_colon (a b : string) : ¬ noColon (a +:+ ":" +:+ b).
Proof.
  induction a as [|x a IH].
  - rewrite append_EmptyString, append_String. by intros [? _].
  - rewrite append_String. by intros [_ ?].
Qed.

(** A string is cut in one way only at its last colon. *)
Lemma append_colon_inj (a b x y : string) :
  noColon x → noColon y →
  a +:+ ":" +:+ x = b +:+ ":" +:+ y → a = b ∧ x = y.
Proof.
  intros Hx Hy. revert b. induction a as [|c a IH]; intros [|c' b];
    rewrite ?append_String, ?append_EmptyString.
  - by intros [= ->].
  - intros [= <- ->]. by apply noColon_append_colon in Hx.
  - intros [= -> <-]. by apply noColon_append_colon in Hy.
  - intros [= -> Hrest]. by destruct (IH _ Hrest) as [-> ->].
Qed.

Lemma noColon_string_of_uint (d : Decimal.uint) :
  noColon (NilEmpty.string_of_uint d).
Proof. induction d; simpl; try done; split; done. Qed.

Lemma noColon_fmt_d (z : Z) : noColon (fmt_d z).
Proof.
  unfold fmt_d, NilZero.string_of_int, NilZero.string_of_uint.
  destruct (Z.to_int z) as [d|d]; destruct d; simpl;
    repeat split; try done; apply noColon_string_of_uint.
Qed.

Lemma fmt_d_inj (z1 z2 : Z) : fmt_d z1 = fmt_d z2 → z1 = z2.
Proof.
  intros Heq. pose proof (parse_d_fmt_d z1) as H1.
  rewrite Heq, parse_d_fmt_d in H1. by injection H1.
Qed.

(** Two keys that the generator returns are equal exactly when they were
    made with the same split duration, for the same interval and the same
    step, and from the same text of tenant and query: the end of a request,
    its limit, direction, shards, matchers and path never enter the key, and
    after a change of the split duration no old key is met again. *)
Theorem GenerateCacheKey_equal_iff (l1 l2 : Limits) (user1 user2 : string)
    (r1 r2 : Request) (key1 key2 : string) :
  GenerateCacheKey l1 user1 r1 = Ok key1 →
  GenerateCacheKey l2 user2 r2 = Ok key2 →
  key1 = key2
  ↔ QuerySplitDuration l1 user1 = QuerySplitDuration l2 user2
    ∧ wrap64 (GetStart r1 ÷ (QuerySplitDuration l1 user1 ÷ Millisecond))
      = wrap64 (GetStart r2 ÷ (QuerySplitDuration l2 user2 ÷ Millisecond))
    ∧ GetStep r1 = GetStep r2
    ∧ user1 +:+ ":" +:+ GetQuery r1 = user2 +:+ ":" +:+ GetQuery r2.
Proof.
  unfold GenerateCacheKey, int64_div.
  destruct (decide (QuerySplitDuration l1 user1 ÷ Millisecond = 0)); [done|].
  destruct (decide (QuerySplitDuration l2 user2 ÷ Millisecond = 0)); [done|].
  simpl. intros [= <-] [= <-]. split.
  - intros Heq.
    rewrite <-!append_assoc_string in Heq.
    rewrite !(append_assoc_string _ ":" (fmt_d (QuerySplitDuration _ _))) in Heq.
    apply append_colon_inj in Heq as [Heq Hsplit]; [|apply noColon_fmt_d..].
    rewrite !(append_assoc_string _ ":" (fmt_d (wrap64 _))) in Heq.
    apply append_colon_inj in Heq as [Heq Hinterval]; [|apply noColon_fmt_d..].
    rewrite !(append_assoc_string _ ":" (fmt_d (GetStep _))) in Heq.
    apply append_colon_inj in Heq as [Heq Hstep]; [|apply noColon_fmt_d..].
    rewrite !append_assoc_string in Heq.
    split_and!; [by apply fmt_d_inj|by apply fmt_d_inj|by apply fmt_d_inj|done].
  - intros (Hsplit & Hinterval & Hstep & Htext).
    rewrite Hinterval, Hsplit, Hstep.
    rewrite <-(append_assoc_string user1 ":"), <-(append_assoc_string user2 ":").
    rewrite <-(append_assoc_string (user1 +:+ ":")).
    rewrite <-(append_assoc_string (user2 +:+ ":")).
    rewrite !(append_assoc_string user1 ":"), !(append_assoc_string user2 ":").
    by rewrite Htext.
Qed.

Lemma GenerateCacheKey_equal_iff_witness :
  GenerateCacheKey (WithSplitByLimits noLimits (30 * Second)) "t"
    (RangeQuery exampleRangeQuery) = Ok "t:{a=1}:15000:2:30000000000"
  ∧ GenerateCacheKey (WithSplitByLimits noLimits (30 * Second)) "t"
      (RangeQuery exampleLegacyRangeQuery) = Ok "t:{a=1}:15000:2:30000000000"
  ∧ GetStep (RangeQuery exampleRangeQuery)
    = GetStep (RangeQuery exampleLegacyRangeQuery).
Proof.
  assert (H1 : GenerateCacheKey (WithSplitByLimits noLimits (30 * Second)) "t"
                 (RangeQuery exampleRangeQuery)
               = Ok "t:{a=1}:15000:2:30000000000")
    by (vm_compute; reflexivity).
  assert (H2 : GenerateCacheKey (WithSplitByLimits noLimits (30 * Second)) "t"
                 (RangeQuery exampleLegacyRangeQuery)
               = Ok "t:{a=1}:15000:2:30000000000")
    by (vm_compute; reflexivity).
  split; [exact H1|]. split; [exact H2|].
  exact (proj1 (proj2 (proj2
           (proj1 (GenerateCacheKey_equal_iff _ _ _ _ _ _ _ _ H1 H2) eq_refl)))).
Defined.

(** ** The limits middleware and the next handler *)

Section limits_middleware_forwarding.
Context {opq : Opaque} {col : Collaborators}.

(** The middleware calls the next handler at most once. Without a tenant
    the answer is a bad request with the text of the resolver's error and
    the handler is not called. With tenants, either the handler is not
    called and the world behind it is untouched, or it is called once, its
    answer is returned as it is, and the request it is given is the
    incoming one or its clone with a later start: same end, query and step,
    no start before the lookback bound when a lookback is set, and no length
    above the maximal length when one is set. When neither limit is
    positive the incoming request is forwarded untouched. *)
Theorem limitsMiddleware_forwards_within_limits {S} (l : Limits)
    (next : Handler S) (now : Z) (ctx : RequestContext.t) (r : Request)
    (w : World.t S) :
  (∀ err, RequestContext.TenantIDs ctx = inl err →
     limitsMiddleware_Do l next now ctx r w
     = (Err (httpgrpc_Errorf StatusBadRequest err []), w))
  ∧ (∀ tenantIDs,
       let maxQueryLookback :=
         SmallestPositiveNonZeroDurationPerTenant tenantIDs (MaxQueryLookback l) in
       let maxQueryLength :=
         SmallestPositiveNonZeroDurationPerTenant tenantIDs (MaxQueryLength l) in
       let minStartTime := TimeToMillis (now - maxQueryLookback) in
       RequestContext.TenantIDs ctx = inr tenantIDs →
       (maxQueryLookback ≤ 0 → maxQueryLength ≤ 0 →
          limitsMiddleware_Do l next now ctx r w = dispatch next r w)
       ∧ (timesInRange r →
          in_int64 (now - maxQueryLookback) →
          ∀ res w', limitsMiddleware_Do l next now ctx r w = (res, w') →
            w' = w
            ∨ ∃ r', World.calls w' = World.calls w ++ [r']
                    ∧ next r' (World.state w) = (res, World.state w')
                    ∧ (r' = r ∨ r' = WithStartEnd r minStartTime (GetEnd r))
                    ∧ GetEnd r' = GetEnd r
                    ∧ GetQuery r' = GetQuery r
                    ∧ GetStep r' = GetStep r
                    ∧ GetStart r ≤ GetStart r'
                    ∧ (0 < maxQueryLookback → minStartTime ≤ GetStart r')
                    ∧ (0 < maxQueryLength → queryLen r' ≤ maxQueryLength))).
Proof.
  split.
  { intros err Herr. unfold limitsMiddleware_Do. by rewrite Herr. }
  intros tenantIDs maxQueryLookback maxQueryLength minStartTime Htenants.
  unfold limitsMiddleware_Do. rewrite Htenants.
  fold maxQueryLookback maxQueryLength. split.
  { intros Hlook Hlen. unfold clampLookback.
    rewrite decide_False by lia. rewrite decide_False by lia. done. }
  intros Htimes Hnow res w'. unfold clampLookback.
  replace (now + - maxQueryLookback) with (now - maxQueryLookback) by lia.
  fold minStartTime.
  assert (Hforward : ∀ r',
    dispatch next r' w = (res, w') →
    World.calls w' = World.calls w ++ [r']
    ∧ next r' (World.state w) = (res, World.state w')).
  { intros r'. unfold dispatch.
    destruct (next r' (World.state w)) as [res0 s0]. by intros [= <- <-]. }
  destruct (decide (0 < maxQueryLookback)) as [Hlook|Hlook].
  - destruct (decide (GetEnd r < minStartTime)) as [Hend|Hend].
    { intros [= _ <-]. by left. }
    destruct (decide (GetStart r < minStartTime)) as [Hstart|Hstart].
    + assert (Hmin : in_int64 (minStartTime * Millisecond)).
      { unfold minStartTime, TimeToMillis.
        change (Millisecond ÷ Nanosecond) with 1000000.
        change Millisecond with 1000000. by apply quot_millis_bounds. }
      destruct (WithStartEnd_clamp r minStartTime Htimes Hmin ltac:(lia))
        as [Hs He].
      destruct (decide (0 < maxQueryLength ∧ _)) as [Hlong|Hlong].
      { intros [= _ <-]. by left. }
      intros [Hcalls Hnext]%Hforward. right.
      exists (WithStartEnd r minStartTime (GetEnd r)).
      split_and!; [done|done|by right|done| | |lia|lia|lia];
        by destruct r.
    + destruct (decide (0 < maxQueryLength ∧ _)) as [Hlong|Hlong].
      { intros [= _ <-]. by left. }
      intros [Hcalls Hnext]%Hforward. right. exists r.
      split_and!; [done|done|by left|done|done|done|lia|lia|lia].
  - destruct (decide (0 < maxQueryLength ∧ _)) as [Hlong|Hlong].
    { intros [= _ <-]. by left. }
    intros [Hcalls Hnext]%Hforward. right. exists r.
    split_and!; [done|done|by left|done|done|done|lia|lia|lia].
Qed.
End limits_middleware_forwarding.

Section limits_middleware_forwarding_examples.
Local Existing Instance exampleOpaque.
Local Existing Instance exampleCollaborators.

Lemma limitsMiddleware_forwards_within_limits_witness :
  RequestContext.TenantIDs exampleContext = inr ["t"]
  ∧ timesInRange (SeriesQuery exampleSeriesQuery)
  ∧ in_int64 (exampleNow - 60 * Second)
  ∧ limitsMiddleware_Do (exampleLimits (60 * Second) (70 * Second)) exampleNext
      exampleNow exampleContext (SeriesQuery exampleSeriesQuery) exampleWorld
    = (exampleAnswer, exampleWorldAfter)
  ∧ (exampleWorldAfter = exampleWorld
     ∨ ∃ r', World.calls exampleWorldAfter = World.calls exampleWorld ++ [r']
             ∧ GetEnd r' = GetEnd (SeriesQuery exampleSeriesQuery)
             ∧ queryLen r' ≤ 70 * Second).
Proof.
  assert (Htimes : timesInRange (SeriesQuery exampleSeriesQuery))
    by (repeat constructor; discriminate).
  assert (Hnow : in_int64 (exampleNow - 60 * Second))
    by (split; discriminate).
  assert (Hdo : limitsMiddleware_Do (exampleLimits (60 * Second) (70 * Second))
                  exampleNext exampleNow exampleContext
                  (SeriesQuery exampleSeriesQuery) exampleWorld
                = (exampleAnswer, exampleWorldAfter))
    by (vm_compute; reflexivity).
  split_and!; [reflexivity|exact Htimes|exact Hnow|exact Hdo|].
  destruct (proj2 (proj2 (limitsMiddleware_forwards_within_limits
                     (exampleLimits (60 * Second) (70 * Second)) exampleNext
                     exampleNow exampleContext
                     (SeriesQuery exampleSeriesQuery) exampleWorld)
                   ["t"] eq_refl) Htimes Hnow _ _ Hdo)
    as [Hsame|(r' & Hcalls & _ & _ & Hend & _ & _ & _ & _ & Hlen)].
  - by left.
  - right. exists r'. split_and!; [done|done|]. by apply Hlen.
Defined.
End limits_middleware_forwarding_examples.

(** ** The series limiter over a run of sub-requests *)

Section series_limiter_runs.
Context {opq : Opaque} {col : Collaborators}.
Import seriesLimiter.

(** A sub-request that meets a limiter below its limit is dispatched once;
    the limit stays and the hashes only grow. *)
Lemma Do_dispatched {S} (next : Handler S) (sl : t) (req : Request)
    (w : World.t S) res sl' w' :
  isLimitReached sl = false →
  Do next sl req w = (res, sl', w') →
  World.calls w' = World.calls w ++ [req]
  ∧ World.state w' = (next req (World.state w)).2
  ∧ maxSeries sl' = maxSeries sl
  ∧ hashes sl ⊆ hashes sl'
  ∧ (res = (next req (World.state w)).1 ∨ res = Err (limitError sl)).
Proof.
  intros Hpre. unfold Do, dispatch. rewrite Hpre.
  destruct (next req (World.state w)) as [res0 s0]. simpl.
  destruct res0 as [[p|?|?|?|?]|e|m];
    try (intros [= <- <- <-]; split_and!; [done|done|done|done|by left]).
  destruct (LokiPromResponse.Response p) as [response|];
    [|intros [= <- <- <-]; split_and!; [done|done|done|done|by left]].
  set (result := PrometheusData.Result (PrometheusResponse.Data response)).
  pose proof (addHashes_maxSeries sl result) as Hmax.
  pose proof (addHashes_hashes sl result) as Hhashes.
  destruct (isLimitReached (addHashes sl result));
    intros [= <- <- <-]; split_and!; try done; try set_solver;
    try (by left).
  right. unfold limitError. by rewrite Hmax.
Qed.

(** An answer that is no metric response passes the limiter untouched and
    leaves it as it was: errors of the next handler, log streams, series and
    label names are never counted. *)
Theorem seriesLimiter_counts_metric_only {S} (next : Handler S) (sl : t)
    (req : Request) (w : World.t S) :
  isLimitReached sl = false →
  (∀ p response,
     (next req (World.state w)).1 = Ok (MetricResponse p) →
     LokiPromResponse.Response p ≠ Some response) →
  Do next sl req w
  = ((next req (World.state w)).1, sl,
     World.mk (next req (World.state w)).2 (World.calls w ++ [req])).
Proof.
  intros Hpre Hother. unfold Do, dispatch. rewrite Hpre.
  destruct (next req (World.state w)) as [res0 s0]. simpl in *.
  destruct res0 as [[p|?|?|?|?]|e|m]; try done.
  destruct (LokiPromResponse.Response p) as [response|] eqn:Hresp; [|done].
  by destruct (Hother p response).
Qed.

(** Over the sub-requests of one outer request the limiter dispatches a
    prefix of them, in their order, and answers every later one with its
    error: there is one result per sub-request, the limit never changes,
    the hashes only grow, and a sub-request is left out only once the limit
    is reached. *)
Theorem seriesLimiter_DoAll_prefix {S} (next : Handler S) (sl : t)
    (reqs : list Request) (w : World.t S) ress sl' w' :
  DoAll next sl reqs w = (ress, sl', w') →
  length ress = length reqs
  ∧ maxSeries sl' = maxSeries sl
  ∧ hashes sl ⊆ hashes sl'
  ∧ ∃ n, (n ≤ length reqs)%nat
         ∧ World.calls w' = World.calls w ++ take n reqs
         ∧ drop n ress = replicate (length reqs - n) (Err (limitError sl))
         ∧ ((n < length reqs)%nat → isLimitReached sl' = true).
Proof.
  revert sl w ress sl' w'.
  induction reqs as [|req reqs IH]; intros sl w ress sl' w'.
  { simpl. intros [= <- <- <-]. split_and!; [done..|].
    exists 0%nat. split_and!; [done|by rewrite app_nil_r|done|]. simpl. lia. }
  destruct (isLimitReached sl) eqn:Hpre.
  { rewrite DoAll_reached by done. intros [= <- <- <-].
    split_and!; [simpl; by rewrite length_replicate|done|done|].
    exists 0%nat. split_and!; [lia|by rewrite app_nil_r|done|done]. }
  simpl.
  destruct (Do next sl req w) as [[res sl1] w1] eqn:HDo.
  destruct (DoAll next sl1 reqs w1) as [[ress1 sl2] w2] eqn:HAll.
  intros [= <- <- <-].
  destruct (Do_dispatched _ _ _ _ _ _ _ Hpre HDo)
    as (Hcalls & _ & Hmax & Hhashes & _).
  destruct (IH _ _ _ _ _ HAll)
    as (Hlen & Hmax' & Hhashes' & n & Hn & Hcalls' & Hdrop & Hreached).
  split_and!; [simpl; by rewrite Hlen|congruence|set_solver|].
  exists (Datatypes.S n). split_and!.
  - simpl. lia.
  - rewrite Hcalls', Hcalls. simpl. by rewrite <-app_assoc.
  - simpl. rewrite Hdrop. unfold limitError. by rewrite Hmax.
  - simpl. intros Hlt. apply Hreached. lia.
Qed.

(** A limiter made for a negative maximum has reached its limit before the
    first sub-request: nothing is ever dispatched. *)
Theorem seriesLimiter_negative_maximum {S} (next : Handler S) (slm : Z)
    (reqs : list Request) (w : World.t S) :
  slm < 0 →
  DoAll next (Wrap slm) reqs w
  = (replicate (length reqs) (Err (limitError (Wrap slm))), Wrap slm, w).
Proof.
  intros Hneg. apply DoAll_reached, isLimitReached_spec.
  cbn [Wrap maxSeries hashes]. rewrite size_empty. lia.
Qed.

(** A limiter made for a maximum that is not negative dispatches its
    first sub-request exactly once, whatever the next handler answers; and
    with the maximum zero it rejects every metric answer that carries a
    series. *)
Theorem seriesLimiter_zero_maximum {S} (next : Handler S) (slm : Z)
    (req : Request) (w : World.t S) :
  0 ≤ slm →
  (Do next (Wrap slm) req w).2
  = World.mk (next req (World.state w)).2 (World.calls w ++ [req])
  ∧ (slm = 0 →
     ∀ p response,
       (next req (World.state w)).1 = Ok (MetricResponse p) →
       LokiPromResponse.Response p = Some response →
       PrometheusData.Result (PrometheusResponse.Data response) ≠ [] →
       (Do next (Wrap slm) req w).1.1 = Err (limitError (Wrap slm))).
Proof.
  intros Hslm. unfold Do, dispatch.
  assert (Hpre : isLimitReached (Wrap slm) = false).
  { apply not_true_is_false. rewrite isLimitReached_spec.
    cbn [Wrap maxSeries hashes]. rewrite size_empty. lia. }
  rewrite Hpre.
  destruct (next req (World.state w)) as [res0 s0]. simpl.
  split.
  - destruct res0 as [[p|?|?|?|?]|e|m]; try reflexivity.
    destruct (LokiPromResponse.Response p) as [response|]; [|reflexivity].
    destruct (isLimitReached
                (addHashes (Wrap slm)
                   (PrometheusData.Result (PrometheusResponse.Data response))));
      reflexivity.
  - intros -> p response -> Hresp Hne. rewrite Hresp.
    set (result := PrometheusData.Result (PrometheusResponse.Data response))
      in *.
    assert (Hpost : isLimitReached (addHashes (Wrap 0) result) = true).
    { apply isLimitReached_spec. rewrite addHashes_maxSeries, addHashes_hashes.
      simpl. destruct result as [|x result]; [done|].
      assert (Hsize : size (list_to_set (C:=gset N)
                       (HashWithoutLabels ∘ SampleStream.Labels <$> x :: result)
                      ∪ (∅ : gset N)) ≠ 0%nat).
      { apply size_non_empty_iff. set_solver. }
      lia. }
    rewrite Hpost. simpl. unfold limitError. by rewrite addHashes_maxSeries.
Qed.
End series_limiter_runs.

Section series_limiter_runs_examples.
Local Existing Instance exampleOpaque.
Local Existing Instance exampleCollaborators.
Import seriesLimiter.

Lemma seriesLimiter_counts_metric_only_witness :
  isLimitReached exampleLimiter = false
  ∧ Do exampleNext exampleLimiter exampleClamped exampleWorld
    = (exampleAnswer, exampleLimiter, exampleWorldAfter).
Proof.
  assert (Hpre : isLimitReached exampleLimiter = false) by reflexivity.
  split; [exact Hpre|].
  exact (seriesLimiter_counts_metric_only exampleNext exampleLimiter
           exampleClamped exampleWorld Hpre
           ltac:(intros p response Hres; discriminate Hres)).
Defined.

Lemma seriesLimiter_DoAll_prefix_witness :
  DoAll exampleMetricNext exampleLimiter [exampleClamped; exampleClamped]
    exampleWorld
  = ([exampleRejection; exampleRejection], exampleLimiterAfter,
     exampleWorldAfter)
  ∧ length [exampleRejection; exampleRejection]
    = length [exampleClamped; exampleClamped]
  ∧ maxSeries exampleLimiterAfter = maxSeries exampleLimiter.
Proof.
  assert (Hall : DoAll exampleMetricNext exampleLimiter
                   [exampleClamped; exampleClamped] exampleWorld
                 = ([exampleRejection; exampleRejection], exampleLimiterAfter,
                    exampleWorldAfter))
    by (vm_compute; reflexivity).
  split; [exact Hall|].
  destruct (seriesLimiter_DoAll_prefix _ _ _ _ _ _ _ Hall)
    as (Hlen & Hmax & _).
  split; [exact Hlen|exact Hmax].
Defined.

Lemma seriesLimiter_negative_maximum_witness :
  -1 < 0
  ∧ DoAll exampleMetricNext (Wrap (-1)) [exampleClamped; exampleClamped]
      exampleWorld
    = ([Err (limitError (Wrap (-1))); Err (limitError (Wrap (-1)))],
       Wrap (-1), exampleWorld).
Proof.
  split; [reflexivity|].
  exact (seriesLimiter_negative_maximum exampleMetricNext (-1)
           [exampleClamped; exampleClamped] exampleWorld eq_refl).
Defined.

(** A fresh limiter for no series dispatches a sub-request that is
    answered with an error, and rejects an answer with two series. *)
Lemma seriesLimiter_zero_maximum_witness :
  0 ≤ 0
  ∧ (Do exampleRejectingNext (Wrap 0) exampleClamped exampleWorld).2
    = exampleWorldAfter
  ∧ (Do exampleMetricNext (Wrap 0) exampleClamped exampleWorld).1.1
    = Err (limitError (Wrap 0)).
Proof.
  assert (Hslm : 0 ≤ 0) by discriminate.
  split; [exact Hslm|]. split.
  - exact (proj1 (seriesLimiter_zero_maximum exampleRejectingNext 0
                    exampleClamped exampleWorld Hslm)).
  - refine (proj2 (seriesLimiter_zero_maximum exampleMetricNext 0
                     exampleClamped exampleWorld Hslm)
                  eq_refl _ _ eq_refl eq_refl ltac:(discriminate)).
Defined.
End series_limiter_runs_examples.

(** ** Requests and their clones *)

(** A clone made for a new time range reads back the new start and end, to
    the millisecond, when they fit the range of a time in nanoseconds; an
    instant request keeps one time only, the start, and its end follows it.
    Query, step and path are those of the original, and a clone of a clone
    is the clone of the original. *)
Theorem WithStartEnd_getters (r : Request) (s e : Z) :
  in_int64 (s * Millisecond) →
  in_int64 (e * Millisecond) →
  GetStart (WithStartEnd r s e) = s
  ∧ GetEnd (WithStartEnd r s e)
    = match r with InstantQuery _ => s | _ => e end
  ∧ GetQuery (WithStartEnd r s e) = GetQuery r
  ∧ GetStep (WithStartEnd r s e) = GetStep r
  ∧ requestPath (WithStartEnd r s e) = requestPath r
  ∧ ∀ s' e', WithStartEnd (WithStartEnd r s e) s' e' = WithStartEnd r s' e'.
Proof.
  intros Hs He.
  assert (Hback : ∀ t, in_int64 (t * Millisecond) →
            int64_mul t Millisecond ÷ (Millisecond ÷ Nanosecond) = t).
  { intros t Ht. unfold int64_mul. rewrite wrap64_id by done.
    change (Millisecond ÷ Nanosecond) with 1000000.
    change Millisecond with 1000000. by rewrite Z.quot_mul. }
  destruct r as [q|q|q|q]; simpl;
    unfold LokiRequest.GetStart, LokiRequest.GetEnd,
      LokiInstantRequest.GetStart, LokiInstantRequest.GetEnd,
      LokiSeriesRequest.GetStart, LokiSeriesRequest.GetEnd,
      LokiLabelNamesRequest.GetStart, LokiLabelNamesRequest.GetEnd; simpl;
    rewrite ?Hback by done; done.
Qed.

Lemma WithStartEnd_getters_witness :
  in_int64 (940000 * Millisecond)
  ∧ in_int64 (999000 * Millisecond)
  ∧ GetStart (WithStartEnd (SeriesQuery exampleSeriesQuery) 940000 999000)
    = 940000.
Proof.
  assert (Hs : in_int64 (940000 * Millisecond)) by (split; discriminate).
  assert (He : in_int64 (999000 * Millisecond)) by (split; discriminate).
  split; [exact Hs|]. split; [exact He|].
  exact (proj1 (WithStartEnd_getters (SeriesQuery exampleSeriesQuery)
                  940000 999000 Hs He)).
Defined.

(** A clone made for a new query reads back the new query for a range and
    for an instant request. A series or label-names request has no query:
    its clone is the request itself and reads back the empty query. Times
    and step are untouched, the last query wins, and the clones for a query
    and for a time range can be made in either order. *)
Theorem WithQuery_getters (r : Request) (query : string) :
  GetQuery (WithQuery r query)
  = match r with
    | RangeQuery _ | InstantQuery _ => query
    | SeriesQuery _ | LabelNamesQuery _ => EmptyString
    end
  ∧ match r with
    | RangeQuery _ | InstantQuery _ => True
    | SeriesQuery _ | LabelNamesQuery _ => WithQuery r query = r
    end
  ∧ GetStart (WithQuery r query) = GetStart r
  ∧ GetEnd (WithQuery r query) = GetEnd r
  ∧ GetStep (WithQuery r query) = GetStep r
  ∧ (∀ query', WithQuery (WithQuery r query) query' = WithQuery r query')
  ∧ (∀ s e, WithStartEnd (WithQuery r query) s e
            = WithQuery (WithStartEnd r s e) query).
Proof. by destruct r. Qed.

(** ** What the codec writes and reads *)

Section codec_shape.
Context {opq : Opaque} {col : Collaborators}.

(** Encoding never fails. The request written is a GET to the path of the
    request type, whatever path the request came in on, with a query string
    in which no parameter is left without a value; it carries the query tags
    of the context when there are some, and no other header. *)
Theorem EncodeRequest_shape (ctx : RequestContext.t) (r : Request) :
  ∃ req form,
    EncodeRequest ctx r = Ok req
    ∧ http_Request.Method req = "GET"
    ∧ http_Request.URL_Path req = canonicalPath r
    ∧ http_Request.URL_RawQuery req = Some form
    ∧ (∀ key, form !! key ≠ Some [])
    ∧ http_Request.Header req !! QueryTagsHTTPHeader
      = (if decide (RequestContext.QueryTags ctx = EmptyString) then None
         else Some [RequestContext.QueryTags ctx])
    ∧ ∀ name, name ≠ QueryTagsHTTPHeader →
              http_Request.Header req !! name = None.
Proof.
  assert (Hform : ∀ (params : Values) key, Values_Encode params !! key ≠ Some []).
  { intros params key. unfold Values_Encode.
    by intros [_ ?]%map_lookup_filter_Some. }
  assert (Htags : encodeHeader ctx !! QueryTagsHTTPHeader
                  = (if decide (RequestContext.QueryTags ctx = EmptyString)
                     then None else Some [RequestContext.QueryTags ctx])).
  { unfold encodeHeader.
    destruct (decide (RequestContext.QueryTags ctx = EmptyString)) as [->|Hne].
    - by rewrite decide_False by by intros [].
    - rewrite decide_True by done. by rewrite lookup_singleton_eq. }
  assert (Hother : ∀ name, name ≠ QueryTagsHTTPHeader →
                           encodeHeader ctx !! name = None).
  { intros name Hname. unfold encodeHeader. cbv zeta.
    destruct (decide (RequestContext.QueryTags ctx ≠ EmptyString));
      [by rewrite lookup_singleton_ne|done]. }
  destruct r as [q|q|q|q]; simpl; eexists _, _;
    (split_and!; [reflexivity|done|done|reflexivity|apply Hform|done|done]).
Qed.

(** Encoding reads the query, the times, the limit, the direction, the
    shards, the matchers and the step, and nothing else: two requests that
    agree on these are written alike, whatever their paths. *)
Theorem EncodeRequest_ignores_path (ctx : RequestContext.t) (r r' : Request) :
  sameQuery r r' →
  GetStep r' = GetStep r →
  EncodeRequest ctx r' = EncodeRequest ctx r.
Proof.
  destruct r as [q|q|q|q], r' as [q'|q'|q'|q']; simpl; try done;
    destruct q, q'; simpl.
  - unfold LokiRequest.GetStep. simpl. by intros (-> & -> & -> & -> & -> & ->) ->.
  - by intros (-> & -> & -> & -> & ->) _.
  - by intros (-> & -> & -> & ->) _.
  - by intros (-> & ->) _.
Qed.

(** Decoding gives a request or a bad request, never another error, also
    when the form or one of its parameters does not parse. The request has
    the type that the suffix of the URL path selects and keeps that path as
    it was received. *)
Theorem DecodeRequest_outcomes (r : http_Request.t) :
  (∀ e, DecodeRequest r = Err e →
        ∃ msg, e = httpgrpc_Errorf StatusBadRequest msg [])
  ∧ (∀ req, DecodeRequest r = Ok req →
       requestPath req = http_Request.URL_Path r
       ∧ match getOperation (http_Request.URL_Path r), req with
         | QueryRangeOp, RangeQuery _
         | InstantQueryOp, InstantQuery _
         | SeriesOp, SeriesQuery _
         | LabelNamesOp, LabelNamesQuery _ => True
         | _, _ => False
         end).
Proof.
  split.
  - intros e. unfold DecodeRequest, badRequest.
    destruct (http_Request.ParseForm r) as [err|form];
      [intros [= <-]; by eexists|].
    destruct (getOperation (http_Request.URL_Path r)).
    + destruct (loghttp.ParseRangeQuery form); [intros [= <-]; by eexists|done].
    + destruct (loghttp.ParseInstantQuery form); [intros [= <-]; by eexists|done].
    + destruct (loghttp.ParseAndValidateSeriesQuery form);
        [intros [= <-]; by eexists|done].
    + destruct (loghttp.ParseLabelQuery form) as [?|[[?|] [?|]]];
        [intros [= <-]; by eexists|done..].
    + intros [= <-]. by eexists.
  - intros req. unfold DecodeRequest, badRequest.
    destruct (http_Request.ParseForm r) as [err|form]; [done|].
    destruct (getOperation (http_Request.URL_Path r)).
    + destruct (loghttp.ParseRangeQuery form); [done|]. by intros [= <-].
    + destruct (loghttp.ParseInstantQuery form); [done|]. by intros [= <-].
    + destruct (loghttp.ParseAndValidateSeriesQuery form); [done|].
      by intros [= <-].
    + destruct (loghttp.ParseLabelQuery form) as [?|[[?|] [?|]]]; try done.
      by intros [= <-].
    + done.
Qed.
End codec_shape.

Section codec_shape_examples.
Local Existing Instance exampleOpaque.
Local Existing Instance exampleCollaborators.

Lemma EncodeRequest_ignores_path_witness :
  sameQuery (RangeQuery exampleRangeQuery) (RangeQuery exampleLegacyRangeQuery)
  ∧ GetStep (RangeQuery exampleLegacyRangeQuery)
    = GetStep (RangeQuery exampleRangeQuery)
  ∧ EncodeRequest exampleContext (RangeQuery exampleLegacyRangeQuery)
    = EncodeRequest exampleContext (RangeQuery exampleRangeQuery).
Proof.
  assert (Hsame : sameQuery (RangeQuery exampleRangeQuery)
                    (RangeQuery exampleLegacyRangeQuery))
    by (simpl; split_and!; reflexivity).
  split; [exact Hsame|]. split; [reflexivity|].
  exact (EncodeRequest_ignores_path exampleContext
           (RangeQuery exampleRangeQuery) (RangeQuery exampleLegacyRangeQuery)
           Hsame eq_refl).
Defined.

Lemma DecodeRequest_outcomes_witness :
  DecodeRequest (http_Request.mk "GET" "/loki/api/v1/unknown" (Some ∅) ∅)
  = Err (httpgrpc_Errorf StatusBadRequest
           "unknown request path: /loki/api/v1/unknown" [])
  ∧ ∃ msg, httpgrpc_Errorf StatusBadRequest
             "unknown request path: /loki/api/v1/unknown" []
           = httpgrpc_Errorf StatusBadRequest msg [].
Proof.
  assert (Herr : DecodeRequest
                   (http_Request.mk "GET" "/loki/api/v1/unknown" (Some ∅) ∅)
                 = Err (httpgrpc_Errorf StatusBadRequest
                          "unknown request path: /loki/api/v1/unknown" []))
    by (vm_compute; reflexivity).
  split; [exact Herr|].
  exact (proj1 (DecodeRequest_outcomes
                  (http_Request.mk "GET" "/loki/api/v1/unknown" (Some ∅) ∅))
               _ Herr).
Defined.
End codec_shape_examples.

(** ** Merging responses of one type *)

Section merge_response_homogeneous.
Context {opq : Opaque} {col : Collaborators}.

Lemma mergePromLoop_metric (rs : list LokiPromResponse.t) stats proms :
  mergePromLoop (MetricResponse <$> rs) stats proms
  = Ok (foldl stats_Result_Merge stats (LokiPromResponse.Statistics <$> rs),
        proms ++ (LokiPromResponse.Response <$> rs)).
Proof.
  revert stats proms. induction rs as [|r rs IH]; intros stats proms; simpl.
  - by rewrite app_nil_r.
  - by rewrite IH, <-app_assoc.
Qed.

Lemma mergeLokiLoop_streams (rs : list LokiResponse.t) stats resps :
  mergeLokiLoop (LogStreamResponse <$> rs) stats resps
  = Ok (foldl stats_Result_Merge stats (LokiResponse.Statistics <$> rs),
        resps ++ rs).
Proof.
  revert stats resps. induction rs as [|r rs IH]; intros stats resps; simpl.
  - by rewrite app_nil_r.
  - by rewrite IH, <-app_assoc.
Qed.

Lemma mergeLokiLoop_outcome (rs : list Response) stats resps :
  match mergeLokiLoop rs stats resps with
  | Ok _ => Forall (λ r, responseVariant r = VLogStream) rs
  | Err _ => False
  | Panic _ => ¬ Forall (λ r, responseVariant r = VLogStream) rs
  end.
Proof.
  revert stats resps. induction rs as [|r rs IH]; intros stats resps; simpl.
  { constructor. }
  destruct r as [p|p|p|p|ty]; simpl;
    try (by intros [=]%Forall_cons_1%proj1).
  specialize (IH (stats_Result_Merge stats (LokiResponse.Statistics p))
                 (resps ++ [p])).
  destruct (mergeLokiLoop rs _ _); [by constructor|done|].
  by intros [_ ?]%Forall_cons_1.
Qed.

Lemma mergeSeriesLoop_outcome (rs : list Response) acc :
  match mergeSeriesLoop rs acc with
  | Ok _ => Forall (λ r, responseVariant r = VSeries) rs
  | Err _ => False
  | Panic _ => ¬ Forall (λ r, responseVariant r = VSeries) rs
  end.
Proof.
  revert acc. induction rs as [|r rs IH]; intros acc; simpl.
  { constructor. }
  destruct r as [p|p|p|p|ty]; simpl;
    try (by intros [=]%Forall_cons_1%proj1).
  specialize (IH (foldl addSeries acc (LokiSeriesResponse.Data p))).
  destruct (mergeSeriesLoop rs _); [by constructor|done|].
  by intros [_ ?]%Forall_cons_1.
Qed.

Lemma mergeNamesLoop_outcome (rs : list Response) acc :
  match mergeNamesLoop rs acc with
  | Ok _ => Forall (λ r, responseVariant r = VLabelNames) rs
  | Err _ => False
  | Panic _ => ¬ Forall (λ r, responseVariant r = VLabelNames) rs
  end.
Proof.
  revert acc. induction rs as [|r rs IH]; intros acc; simpl.
  { constructor. }
  destruct r as [p|p|p|p|ty]; simpl;
    try (by intros [=]%Forall_cons_1%proj1).
  specialize (IH (foldl addName acc (LokiLabelNamesResponse.Data p))).
  destruct (mergeNamesLoop rs _); [by constructor|done|].
  by intros [_ ?]%Forall_cons_1.
Qed.

(** When the first response is a log-stream, series or label-names
    response, the merge returns a merged response exactly when every later
    response has the type of the first one, and panics exactly when one has
    not; it never returns an error. *)
Theorem MergeResponse_homogeneous (first : Response) (rest : list Response) :
  responseVariant first ≠ VOther →
  responseVariant first ≠ VMetric →
  ((∃ merged, MergeResponse (first :: rest) = Ok merged)
   ↔ Forall (λ r, responseVariant r = responseVariant first) rest)
  ∧ ((∃ msg, MergeResponse (first :: rest) = Panic msg)
     ↔ ¬ Forall (λ r, responseVariant r = responseVariant first) rest)
  ∧ ∀ e, MergeResponse (first :: rest) ≠ Err e.
Proof.
  intros Hother Hmetric.
  destruct first as [p|p|p|p|ty]; [done| | | |done]; unfold MergeResponse.
  - unfold mergeLogStream.
    pose proof (mergeLokiLoop_outcome (LogStreamResponse p :: rest)
                  stats_Result_zero []) as Hloop.
    destruct (mergeLokiLoop _ _ _) as [[stats resps]|e|m]; [| done |]; simpl.
    + apply Forall_cons_1 in Hloop as [_ Hrest].
      split_and!; [split; [done|by eexists]| |done].
      split; [by intros [? ?]|done].
    + assert (Hrest : ¬ Forall (λ r, responseVariant r = VLogStream) rest).
      { intros Hrest. apply Hloop. by constructor. }
      split_and!; [split; [by intros [? ?]|done]| |done].
      split; [done|by eexists].
  - unfold mergeSeries.
    pose proof (mergeSeriesLoop_outcome (SeriesResponse p :: rest) ([], ∅))
      as Hloop.
    destruct (mergeSeriesLoop _ _) as [[data seen]|e|m]; [| done |]; simpl.
    + apply Forall_cons_1 in Hloop as [_ Hrest].
      split_and!; [split; [done|by eexists]| |done].
      split; [by intros [? ?]|done].
    + assert (Hrest : ¬ Forall (λ r, responseVariant r = VSeries) rest).
      { intros Hrest. apply Hloop. by constructor. }
      split_and!; [split; [by intros [? ?]|done]| |done].
      split; [done|by eexists].
  - unfold mergeLabelNames.
    pose proof (mergeNamesLoop_outcome (LabelNamesResponse p :: rest) ([], ∅))
      as Hloop.
    destruct (mergeNamesLoop _ _) as [[data seen]|e|m]; [| done |]; simpl.
    + apply Forall_cons_1 in Hloop as [_ Hrest].
      split_and!; [split; [done|by eexists]| |done].
      split; [by intros [? ?]|done].
    + assert (Hrest : ¬ Forall (λ r, responseVariant r = VLabelNames) rest).
      { intros Hrest. apply Hloop. by constructor. }
      split_and!; [split; [by intros [? ?]|done]| |done].
      split; [done|by eexists].
Qed.

(** What a merged response takes from where. The statistics of all the
    responses are merged into the zero statistics in the order of the
    responses. A merged log-stream response has the limit, the direction,
    the version and the error fields of the first response and the status
    "success" whatever the statuses were; its streams are merged under the
    limit and the direction of the first response. For metric responses the
    Prometheus responses go to the Prometheus merge in their order, and its
    error is the error of the merge. The headers of the responses are
    dropped. *)
Theorem MergeResponse_metadata :
  (∀ (first : LokiResponse.t) (rest : list LokiResponse.t),
     MergeResponse (LogStreamResponse <$> first :: rest)
     = Ok (LogStreamResponse
             (LokiResponse.mk QueryStatusSuccess
                (LokiData.mk ResultTypeStream
                   (mergeOrderedNonOverlappingStreams (first :: rest)
                      (LokiResponse.Limit first) (LokiResponse.Direction first)))
                (foldl stats_Result_Merge stats_Result_zero
                   (LokiResponse.Statistics <$> first :: rest))
                (LokiResponse.Direction first)
                (LokiResponse.Limit first)
                (LokiResponse.Version first)
                (LokiResponse.ErrorType first)
                (LokiResponse.Error first)
                [])))
  ∧ (∀ (first : LokiPromResponse.t) (rest : list LokiPromResponse.t),
       MergeResponse (MetricResponse <$> first :: rest)
       = match PrometheusCodec_MergeResponse
                 (LokiPromResponse.Response <$> first :: rest) with
         | Ok promRes =>
             Ok (MetricResponse
                   (LokiPromResponse.mk (Some promRes)
                      (foldl stats_Result_Merge stats_Result_zero
                         (LokiPromResponse.Statistics <$> first :: rest))))
         | Err e => Err e
         | Panic msg => Panic msg
         end).
Proof.
  split; intros first rest.
  - change (MergeResponse (LogStreamResponse <$> first :: rest))
      with (mergeLogStream first (LogStreamResponse <$> first :: rest)).
    unfold mergeLogStream. by rewrite mergeLokiLoop_streams.
  - change (MergeResponse (MetricResponse <$> first :: rest))
      with (mergeMetric (MetricResponse <$> first :: rest)).
    unfold mergeMetric. rewrite mergePromLoop_metric. simpl.
    by destruct (PrometheusCodec_MergeResponse _).
Qed.

Lemma firstAppearances_absorb {A} (key : A → string) (l l' : list A) :
  (∀ x, x ∈ l' → key x ∈ key <$> l) →
  firstAppearances key (l ++ l') = firstAppearances key l.
Proof.
  induction l' as [|x l' IH] using rev_ind; intros Hin.
  { by rewrite app_nil_r. }
  rewrite app_assoc, firstAppearances_snoc.
  rewrite decide_True.
  - rewrite app_nil_r. apply IH. intros y Hy. apply Hin. set_solver.
  - rewrite fmap_app. apply elem_of_app. left. apply Hin. set_solver.
Qed.

Lemma firstAppearances_NoDup_id {A} (key : A → string) (l : list A) :
  NoDup (key <$> l) → firstAppearances key l = l.
Proof.
  induction l as [|x l IH] using rev_ind; [done|].
  rewrite fmap_app. intros (Hl & Hx & _)%NoDup_app.
  rewrite firstAppearances_snoc, IH by done.
  rewrite decide_False; [done|].
  intros Hin. apply (Hx _ Hin). set_solver.
Qed.

Lemma mergeSeries_data (r : LokiSeriesResponse.t)
    (rs : list LokiSeriesResponse.t) :
  MergeResponse (SeriesResponse <$> r :: rs)
  = Ok (SeriesResponse
          (LokiSeriesResponse.mk (LokiSeriesResponse.Status r)
             (firstAppearances SeriesIdentifier_String
                (concat (LokiSeriesResponse.Data <$> r :: rs)))
             (LokiSeriesResponse.Version r) [])).
Proof.
  pose proof (foldl_addKeyed SeriesIdentifier_String []
                (concat (LokiSeriesResponse.Data <$> r :: rs))) as Hfold.
  rewrite <-(foldl_ext_eq _ _ _ _ addSeries_keyed) in Hfold.
  change (MergeResponse (SeriesResponse <$> r :: rs))
    with (mergeSeries r (SeriesResponse <$> r :: rs)).
  unfold mergeSeries. rewrite mergeSeriesLoop_series.
  change (firstAppearances SeriesIdentifier_String [], list_to_set
            (SeriesIdentifier_String <$> []))
    with (@nil SeriesIdentifier.t, ∅ : gset string) in Hfold.
  by rewrite Hfold.
Qed.

Lemma mergeLabelNames_data (r : LokiLabelNamesResponse.t)
    (rs : list LokiLabelNamesResponse.t) :
  MergeResponse (LabelNamesResponse <$> r :: rs)
  = Ok (LabelNamesResponse
          (LokiLabelNamesResponse.mk (LokiLabelNamesResponse.Status r)
             (firstAppearances id
                (concat (LokiLabelNamesResponse.Data <$> r :: rs)))
             (LokiLabelNamesResponse.Version r) [])).
Proof.
  pose proof (foldl_addKeyed id []
                (concat (LokiLabelNamesResponse.Data <$> r :: rs))) as Hfold.
  rewrite <-(foldl_ext_eq _ _ _ _ addName_keyed) in Hfold.
  change (MergeResponse (LabelNamesResponse <$> r :: rs))
    with (mergeLabelNames r (LabelNamesResponse <$> r :: rs)).
  unfold mergeLabelNames. rewrite mergeNamesLoop_names.
  change (firstAppearances id [], list_to_set (id <$> []))
    with (@nil string, ∅ : gset string) in Hfold.
  by rewrite Hfold.
Qed.

(** A merged series or label-names response absorbs its inputs: merged
    alone it is returned as it is, and merged once more after the responses
    it was made from it comes out again. *)
Theorem MergeResponse_absorbs :
  (∀ (rs : list LokiSeriesResponse.t) (merged : LokiSeriesResponse.t),
     MergeResponse (SeriesResponse <$> rs) = Ok (SeriesResponse merged) →
     MergeResponse [SeriesResponse merged] = Ok (SeriesResponse merged)
     ∧ MergeResponse (SeriesResponse <$> rs ++ [merged])
       = Ok (SeriesResponse merged))
  ∧ (∀ (rs : list LokiLabelNamesResponse.t) (merged : LokiLabelNamesResponse.t),
       MergeResponse (LabelNamesResponse <$> rs) = Ok (LabelNamesResponse merged) →
       MergeResponse [LabelNamesResponse merged] = Ok (LabelNamesResponse merged)
       ∧ MergeResponse (LabelNamesResponse <$> rs ++ [merged])
         = Ok (LabelNamesResponse merged)).
Proof.
  split.
  - intros [|r rs] merged; [done|].
    rewrite mergeSeries_data. intros [= <-]. split.
    + change (MergeResponse [SeriesResponse ?m])
        with (MergeResponse (SeriesResponse <$> [m])).
      rewrite (mergeSeries_data _ []). simpl. rewrite app_nil_r.
      by rewrite firstAppearances_NoDup_id by apply firstAppearances_NoDup.
    + change ((r :: rs) ++ [?m]) with (r :: (rs ++ [m])).
      rewrite mergeSeries_data. do 3 f_equal.
      change (r :: rs ++ [?m]) with ((r :: rs) ++ [m]).
      rewrite fmap_app, concat_app. simpl. rewrite app_nil_r.
      apply firstAppearances_absorb. intros x Hx.
      apply firstAppearances_keys. by apply list_elem_of_fmap_2.
  - intros [|r rs] merged; [done|].
    rewrite mergeLabelNames_data. intros [= <-]. split.
    + change (MergeResponse [LabelNamesResponse ?m])
        with (MergeResponse (LabelNamesResponse <$> [m])).
      rewrite (mergeLabelNames_data _ []). simpl. rewrite app_nil_r.
      rewrite firstAppearances_NoDup_id; [done|].
      apply firstAppearances_NoDup.
    + change ((r :: rs) ++ [?m]) with (r :: (rs ++ [m])).
      rewrite mergeLabelNames_data. do 3 f_equal.
      change (r :: rs ++ [?m]) with ((r :: rs) ++ [m]).
      rewrite fmap_app, concat_app. simpl. rewrite app_nil_r.
      apply firstAppearances_absorb. intros x Hx.
      apply firstAppearances_keys. by apply list_elem_of_fmap_2.
Qed.

(** The empty response that answers a series or a label-names request is
    neutral at the end of a merge, and merged alone it is returned as it
    is. *)
Theorem NewEmptyResponse_neutral :
  (∀ (q : LokiSeriesRequest.t) (rs : list LokiSeriesResponse.t),
     ∃ empty,
       NewEmptyResponse (SeriesQuery q) = Ok (SeriesResponse empty)
       ∧ MergeResponse [SeriesResponse empty] = Ok (SeriesResponse empty)
       ∧ (rs ≠ [] →
          MergeResponse (SeriesResponse <$> rs ++ [empty])
          = MergeResponse (SeriesResponse <$> rs)))
  ∧ (∀ (q : LokiLabelNamesRequest.t) (rs : list LokiLabelNamesResponse.t),
       ∃ empty,
         NewEmptyResponse (LabelNamesQuery q) = Ok (LabelNamesResponse empty)
         ∧ MergeResponse [LabelNamesResponse empty]
           = Ok (LabelNamesResponse empty)
         ∧ (rs ≠ [] →
            MergeResponse (LabelNamesResponse <$> rs ++ [empty])
            = MergeResponse (LabelNamesResponse <$> rs))).
Proof.
  split.
  - intros q rs. eexists. split; [done|]. split; [done|].
    destruct rs as [|r rs]; [done|]. intros _.
    change ((r :: rs) ++ [?m]) with (r :: (rs ++ [m])).
    rewrite !mergeSeries_data. do 3 f_equal.
    change (r :: rs ++ [?m]) with ((r :: rs) ++ [m]).
    rewrite fmap_app, concat_app. simpl. by rewrite !app_nil_r.
  - intros q rs. eexists. split; [done|]. split; [done|].
    destruct rs as [|r rs]; [done|]. intros _.
    change ((r :: rs) ++ [?m]) with (r :: (rs ++ [m])).
    rewrite !mergeLabelNames_data. do 3 f_equal.
    change (r :: rs ++ [?m]) with ((r :: rs) ++ [m]).
    rewrite fmap_app, concat_app. simpl. by rewrite !app_nil_r.
Qed.
End merge_response_homogeneous.

Section merge_response_homogeneous_examples.
Local Existing Instance exampleOpaque.
Local Existing Instance exampleCollaborators.

Lemma MergeResponse_homogeneous_witness :
  responseVariant (SeriesResponse exampleSeriesResponse) ≠ VOther
  ∧ responseVariant (SeriesResponse exampleSeriesResponse) ≠ VMetric
  ∧ ¬ ∃ merged, MergeResponse [SeriesResponse exampleSeriesResponse;
                               LabelNamesResponse exampleLabelNamesResponse]
                = Ok merged.
Proof.
  split; [discriminate|]. split; [discriminate|].
  intros Hok.
  apply (proj1 (proj1 (MergeResponse_homogeneous
                         (SeriesResponse exampleSeriesResponse)
                         [LabelNamesResponse exampleLabelNamesResponse]
                         ltac:(discriminate) ltac:(discriminate)))) in Hok.
  apply Forall_cons_1 in Hok as [Hvariant _]. discriminate Hvariant.
Defined.
End merge_response_homogeneous_examples.

(** ** The streams of a merged log-stream response *)

Section merge_streams_labels.
Context {opq : Opaque}.

Lemma foldl_addStream_total (d : Direction) (streams : list Stream.t) acc :
  (foldl (addStream d) acc streams).2 = acc.2 + Z.of_nat (countEntries streams).
Proof.
  revert acc. induction streams as [|s streams IH]; intros [groups total].
  { unfold countEntries. simpl. lia. }
  simpl. rewrite IH. unfold countEntries. simpl. lia.
Qed.

(** Once a response has brought the total to the limit, the loop over the
    responses is left. *)
Lemma groupStreams_app (d : Direction) (limit : N)
    (resps extra : list LokiResponse.t) acc :
  resps ≠ [] →
  Z.of_N limit ≤ acc.2 + Z.of_nat (countEntries (allStreams resps)) →
  groupStreams d limit (resps ++ extra) acc = groupStreams d limit resps acc.
Proof.
  revert acc. induction resps as [|resp rest IH]; intros acc Hne Hlimit; [done|].
  simpl.
  pose proof (foldl_addStream_total d
                (LokiData.Result (LokiResponse.Data resp)) acc) as Htotal.
  destruct (decide _) as [Hstop|Hgo]; [done|].
  change (allStreams (resp :: rest))
    with (LokiData.Result (LokiResponse.Data resp) ++ allStreams rest) in Hlimit.
  rewrite countEntries_app in Hlimit.
  destruct rest as [|resp' rest].
  { change (countEntries (allStreams [])) with 0%nat in Hlimit. lia. }
  apply IH; [done|]. lia.
Qed.

(** The responses after the one that fills the limit are not read: adding
    responses after them changes nothing in the merged streams, whatever
    their entries are and wherever they lie in time. *)
Theorem mergeOrderedNonOverlappingStreams_ignores_after_limit
    (resps extra : list LokiResponse.t) (limit : N) (direction : Direction) :
  resps ≠ [] →
  Z.of_N limit ≤ Count (allStreams resps) →
  mergeOrderedNonOverlappingStreams (resps ++ extra) limit direction
  = mergeOrderedNonOverlappingStreams resps limit direction.
Proof.
  intros Hne Hlimit. unfold mergeOrderedNonOverlappingStreams.
  rewrite groupStreams_app; [done|done|].
  rewrite Count_countEntries in Hlimit. simpl. lia.
Qed.

Lemma popEntries_labels (n : nat) (pq : priorityqueue.t)
    (resultDict : gmap string Stream.t) :
  (∀ k s, resultDict !! k = Some s → Stream.Labels s = k) →
  ∀ k s, popEntries n pq resultDict !! k = Some s → Stream.Labels s = k.
Proof.
  revert pq resultDict. induction n as [|n IH]; intros pq resultDict Hinv;
    [done|].
  cbn [popEntries].
  destruct (priorityqueue.Pop pq) as [[next pq']|]; [|done].
  apply IH. intros k s.
  destruct (decide (k = Stream.Labels next)) as [->|Hk].
  - rewrite lookup_insert_eq. intros [= <-]. simpl.
    destruct (resultDict !! Stream.Labels next) as [s0|] eqn:Hs0; [|done].
    by apply Hinv.
  - rewrite lookup_insert_ne by done. apply Hinv.
Qed.

Lemma StronglySorted_NoDup_strict {A} (R : relation A) (l : list A) :
  StronglySorted R l → NoDup l → StronglySorted (λ a b, a ≠ b ∧ R a b) l.
Proof.
  induction 1 as [|a l Hl IH Ha]; [constructor|].
  intros [Hnotin Hnd]%NoDup_cons. constructor; [by apply IH|].
  apply Forall_forall. intros b Hb. split.
  - by intros ->.
  - by eapply Forall_forall in Ha.
Qed.

Lemma sortedKeys_sorted (d : Direction) (groups : gmap string byDir.t) :
  StronglySorted (labelsBefore d) (sortedKeys d groups).
Proof.
  pose proof (sortedKeys_NoDup d groups) as Hnd.
  unfold labelsBefore, sortedKeys, sort_Reverse_Strings, sort_Strings in *.
  destruct d; simpl in *.
  - apply StronglySorted_NoDup_strict; [|done].
    apply (StronglySorted_merge_sort String.le); apply _.
  - apply StronglySorted_NoDup_strict; [|done].
    assert (Htrans : Transitive (flip String.le)).
    { intros x y z Hxy Hyz. unfold flip in *. by etrans. }
    assert (Htotal : Total (flip String.le)).
    { intros x y. unfold flip. destruct (total String.le x y); auto. }
    apply (StronglySorted_merge_sort (flip String.le)).
Qed.

(** The streams of the merged response come in the order of their labels,
    going up for a forward query and down for a backward one, with no
    labels twice; all labels come from the responses; and when the
    responses hold fewer entries than the limit, every labels of the
    responses has its stream. *)
Theorem mergeOrderedNonOverlappingStreams_labels
    (resps : list LokiResponse.t) (limit : N) (direction : Direction) :
  let merged := mergeOrderedNonOverlappingStreams resps limit direction in
  StronglySorted (labelsBefore direction) (Stream.Labels <$> merged)
  ∧ (∀ labels, labels ∈ Stream.Labels <$> merged →
               labels ∈ Stream.Labels <$> allStreams resps)
  ∧ (Count (allStreams resps) < Z.of_N limit →
     ∀ labels, labels ∈ Stream.Labels <$> allStreams resps →
               labels ∈ Stream.Labels <$> merged).
Proof.
  unfold mergeOrderedNonOverlappingStreams.
  destruct (groupStreams_grouped direction limit resps [] (∅, 0)
              (grouped_nil direction)) as (n & Hn & Hg & Hend).
  rewrite app_nil_l in Hg.
  destruct (groupStreams direction limit resps (∅, 0))
    as [groups total] eqn:Hgroups.
  simpl in Hend.
  set (ingested := allStreams (take n resps)) in *.
  set (keys := sortedKeys direction groups).
  assert (Hall : allStreams resps = ingested ++ allStreams (drop n resps)).
  { unfold ingested. by rewrite <-allStreams_app, take_drop. }
  assert (Htotal : total = Z.of_nat (countEntries ingested)) by apply Hg.
  assert (Hkeys : ∀ k, k ∈ keys ↔ k ∈ Stream.Labels <$> ingested).
  { intros k. unfold keys. rewrite elem_of_sortedKeys. apply Hg. }
  assert (Hsorted : StronglySorted (labelsBefore direction) keys)
    by apply sortedKeys_sorted.
  assert (Hfrom : ∀ k, k ∈ keys → k ∈ Stream.Labels <$> allStreams resps).
  { intros k Hk%Hkeys. rewrite Hall, fmap_app. apply elem_of_app. by left. }
  assert (Hbelow : Count (allStreams resps) < Z.of_N limit →
                   total ≤ Z.of_N limit ∧ ingested = allStreams resps).
  { intros Hlt. rewrite Count_countEntries, Hall, countEntries_app in Hlt.
    destruct Hend as [->|Hstop]; [|lia].
    split; [lia|]. rewrite Hall, drop_all. unfold allStreams. simpl.
    by rewrite app_nil_r. }
  destruct (decide (total ≤ Z.of_N limit)) as [Hfits|Hover]; simpl.
  - rewrite labels_streams_of_keys. split_and!; [done|done|].
    intros [_ Hingested]%Hbelow labels Hlabels. apply Hkeys.
    by rewrite Hingested.
  - set (resultDict := popEntries _ _ _).
    assert (Hsub : Stream.Labels <$> omap (λ key, resultDict !! key) keys
                   `sublist_of` keys).
    { apply labels_omap_sublist. apply popEntries_labels.
      intros k s. by rewrite lookup_empty. }
    split_and!.
    + by eapply StronglySorted_sublist.
    + intros labels Hlabels. apply Hfrom. by eapply elem_of_sublist.
    + intros [? _]%Hbelow. lia.
Qed.
End merge_streams_labels.

Section merge_streams_labels_examples.
Local Existing Instance exampleOpaque.
Local Existing Instance exampleCollaborators.

Lemma mergeOrderedNonOverlappingStreams_ignores_after_limit_witness :
  [exampleResponseA; exampleResponseB] ≠ []
  ∧ Z.of_N 3 ≤ Count (allStreams [exampleResponseA; exampleResponseB])
  ∧ mergeOrderedNonOverlappingStreams
      ([exampleResponseA; exampleResponseB] ++ [exampleResponseA]) 3 BACKWARD
    = mergeOrderedNonOverlappingStreams
        [exampleResponseA; exampleResponseB] 3 BACKWARD.
Proof.
  assert (Hne : [exampleResponseA; exampleResponseB] ≠ []) by discriminate.
  assert (Hlimit : Z.of_N 3
                   ≤ Count (allStreams [exampleResponseA; exampleResponseB]))
    by discriminate.
  split; [exact Hne|]. split; [exact Hlimit|].
  exact (mergeOrderedNonOverlappingStreams_ignores_after_limit
           [exampleResponseA; exampleResponseB] [exampleResponseA] 3 BACKWARD
           Hne Hlimit).
Defined.
End merge_streams_labels_examples.

(** ** The Cloudflare target *)

Section cloudflare_facts.
Import cloudflare.

Lemma time_Sub_exact (t u : Z) : in_int64 (t - u) → time_Sub t u = t - u.
Proof.
  unfold time_Sub, in_int64. intros [Hlo Hhi].
  rewrite decide_False by lia. by rewrite decide_False by lia.
Qed.

Lemma quot_mul_le (a b : Z) : 0 ≤ a → 0 < b → 0 ≤ a ÷ b ∧ b * (a ÷ b) ≤ a.
Proof.
  intros Ha Hb. split; [by apply Z.quot_pos|].
  apply Z.mul_quot_le; lia.
Qed.

(** For a window that does not run backward and at least one worker, the
    requests are as many as the workers and cut the window into pieces that
    follow one another without a gap: the first starts where the window
    starts, each one starts where the one before ends, and the last ends
    where the window ends. All pieces but the last have the same length,
    the length of the window divided by the number of workers. *)
Theorem splitRequests_partition (start end_ workers : Z) :
  0 < workers →
  start ≤ end_ →
  in_int64 (end_ - start) →
  ∃ reqs,
    splitRequests start end_ workers = Ok reqs
    ∧ Z.of_nat (length reqs) = workers
    ∧ pullRequest_start <$> head reqs = Some start
    ∧ pullRequest_end <$> last reqs = Some end_
    ∧ (∀ i r r', reqs !! i = Some r → reqs !! S i = Some r' →
                 pullRequest_end r = pullRequest_start r')
    ∧ (∀ r, r ∈ reqs →
            start ≤ pullRequest_start r ≤ pullRequest_end r
            ∧ pullRequest_end r ≤ end_)
    ∧ (∀ i r, reqs !! i = Some r → Z.of_nat i < workers - 1 →
              pullRequest_end r - pullRequest_start r
              = (end_ - start) ÷ workers).
Proof.
  intros Hworkers Hle Hrange. unfold splitRequests.
  rewrite time_Sub_exact by done.
  rewrite int64_div_pos by done. simpl.
  set (d := end_ - start) in *. set (pw := d ÷ workers).
  destruct (quot_mul_le d workers ltac:(lia) Hworkers) as [Hpw Hmul].
  fold pw in Hpw, Hmul.
  assert (Hmulid : ∀ k, 0 ≤ k ≤ workers → int64_mul k pw = k * pw).
  { intros k Hk. unfold int64_mul. apply wrap64_id.
    unfold in_int64, int64_min, int64_max in *. nia. }
  set (f := λ i : nat, _).
  assert (Hf : ∀ i : nat, Z.of_nat i < workers →
            pullRequest_start (f i) = start + Z.of_nat i * pw
            ∧ pullRequest_end (f i)
              = (if decide (Z.of_nat i = workers - 1) then end_
                 else start + (Z.of_nat i + 1) * pw)).
  { intros i Hi. unfold f. simpl.
    rewrite !Hmulid by lia. split; [done|].
    destruct (decide (Z.of_nat i = workers - 1)) as [Hlast|Hlast].
    - destruct (decide (_ ∧ _)) as [_|Hn]; [done|].
      apply not_and_l in Hn as [?|Hn]; [done|]. by apply dec_stable in Hn.
    - by rewrite decide_False by tauto. }
  assert (Hlookup : ∀ i r, (f <$> seq 0 (Z.to_nat workers)) !! i = Some r →
            Z.of_nat i < workers ∧ r = f i).
  { intros i r. rewrite list_lookup_fmap.
    destruct (seq 0 (Z.to_nat workers) !! i) as [j|] eqn:Hj; [|done].
    apply lookup_seq in Hj as [-> Hj]. simpl. intros [= <-]. split; [lia|done]. }
  eexists. split; [done|]. split_and!.
  - rewrite length_fmap, length_seq. lia.
  - destruct (Z.to_nat workers) as [|n] eqn:Hn; [lia|]. simpl.
    f_equal. rewrite Hmulid by lia. lia.
  - rewrite fmap_last, last_lookup, length_seq.
    rewrite lookup_seq_lt by lia.
    change (Some (pullRequest_end (f (Nat.pred (Z.to_nat workers))))
            = Some end_).
    destruct (Hf (Nat.pred (Z.to_nat workers)) ltac:(lia)) as [_ ->].
    by rewrite decide_True by lia.
  - intros i r r' [Hi ->]%Hlookup [Hi' ->]%Hlookup.
    destruct (Hf i Hi) as [_ ->]. destruct (Hf (S i) Hi') as [-> _].
    rewrite decide_False by lia. lia.
  - intros r [i Hr]%list_elem_of_lookup.
    apply Hlookup in Hr as [Hi ->].
    destruct (Hf i Hi) as [-> ->].
    destruct (decide _); nia.
  - intros i r [Hi ->]%Hlookup Hlt.
    destruct (Hf i Hi) as [-> ->].
    rewrite decide_False by lia. fold pw. lia.
Qed.

Lemma splitRequests_partition_witness :
  0 < 3
  ∧ 0 ≤ 60 * Second
  ∧ in_int64 (60 * Second - 0)
  ∧ splitRequests 0 (60 * Second) 3
    = Ok [mkPullRequest 0 (20 * Second);
          mkPullRequest (20 * Second) (40 * Second);
          mkPullRequest (40 * Second) (60 * Second)].
Proof.
  assert (Hw : 0 < 3) by reflexivity.
  assert (Hle : 0 ≤ 60 * Second) by discriminate.
  assert (Hrange : in_int64 (60 * Second - 0)) by (split; discriminate).
  split_and!; [exact Hw|exact Hle|exact Hrange|].
  destruct (splitRequests_partition 0 (60 * Second) 3 Hw Hle Hrange)
    as (reqs & Hreqs & _).
  reflexivity.
Defined.

(** Without a worker the division by the number of workers panics; with a
    negative number of workers no request is made, whatever the window. *)
Theorem splitRequests_without_workers (start end_ workers : Z) :
  workers ≤ 0 →
  if decide (workers = 0)
  then ∃ msg, splitRequests start end_ workers = Panic msg
  else splitRequests start end_ workers = Ok [].
Proof.
  intros Hworkers. unfold splitRequests, int64_div.
  destruct (decide (workers = 0)) as [->|Hne]; simpl; [by eexists|].
  by replace (Z.to_nat workers) with 0%nat by lia.
Qed.

Lemma splitRequests_without_workers_witness :
  -2 ≤ 0 ∧ splitRequests 0 (60 * Second) (-2) = Ok [].
Proof.
  split; [discriminate|].
  exact (splitRequests_without_workers 0 (60 * Second) (-2) ltac:(discriminate)).
Defined.

(** What validation does to a configuration. A token and a zone are
    required, in this order, and nothing else is: negative numbers of
    workers and negative pull ranges pass. The fields type gets its default
    before the checks, also when they fail; the pull range and the number of
    workers get theirs, one minute and three, only when they pass. A second
    validation gives the same answer and changes nothing; and a
    configuration that passed never makes the split of a window panic. *)
Theorem validateConfig_outcomes (FieldsTypeDefault : string)
    (cfg : CloudflareConfig) :
  let err := (validateConfig FieldsTypeDefault cfg).1 in
  let cfg' := (validateConfig FieldsTypeDefault cfg).2 in
  validateConfig FieldsTypeDefault cfg' = (err, cfg')
  ∧ APIToken cfg' = APIToken cfg
  ∧ ZoneID cfg' = ZoneID cfg
  ∧ FieldsType cfg'
    = (if decide (FieldsType cfg = EmptyString) then FieldsTypeDefault
       else FieldsType cfg)
  ∧ err
    = (if decide (APIToken cfg = EmptyString)
       then Some (errors_New "cloudflare api token is required")
       else if decide (ZoneID cfg = EmptyString)
       then Some (errors_New "cloudflare zone id is required")
       else None)
  ∧ (err ≠ None →
     PullRange cfg' = PullRange cfg ∧ Workers cfg' = Workers cfg)
  ∧ (err = None →
     PullRange cfg'
     = (if decide (PullRange cfg = 0) then Minute else PullRange cfg)
     ∧ Workers cfg' = (if decide (Workers cfg = 0) then 3 else Workers cfg)
     ∧ ∀ start end_,
         ∃ reqs, splitRequests start end_ (Workers cfg') = Ok reqs).
Proof.
  destruct cfg as [token zone workers range fields].
  assert (Hsplit : ∀ w, w ≠ 0 → ∀ start end_,
            ∃ reqs, splitRequests start end_ w = Ok reqs).
  { intros w Hw start end_. unfold splitRequests, int64_div.
    rewrite decide_False by done. by eexists. }
  unfold validateConfig. simpl.
  repeat (case_decide; simpl in *; simplify_eq);
    split_and!; try done; try (intros _; split_and!; try done; by apply Hsplit).
Qed.

(** The window at the head of the loop never reaches into the last minute
    and never past the end of the interval that is due. For a pull range
    that is not negative its length is the pull range. After the pull, the
    end of the next interval is one pull range later, and once the loop has
    slept the time it computes, the next window starts exactly where this
    one ended: between two windows no log line is left out and none is
    pulled twice. *)
Theorem pullWindow_contiguous (to now pullRange now1 now2 : Z) :
  0 ≤ pullRange →
  in_int64 pullRange →
  let '(start, end_) := pullWindow to now pullRange in
  let to' := nextTo end_ pullRange in
  in_int64 (to' - (now1 - minDelay)) →
  now1 + sleepBeforeNext to' now1 ≤ now2 →
  end_ ≤ now - minDelay
  ∧ end_ ≤ to
  ∧ end_ - start = pullRange
  ∧ pullWindow to' now2 pullRange = (end_, to').
Proof.
  intros Hpos Hrange. unfold pullWindow, nextTo, sleepBeforeNext.
  assert (Hneg : wrap64 (- pullRange) = - pullRange).
  { apply wrap64_id. unfold in_int64, int64_min, int64_max in *. lia. }
  rewrite Hneg. cbv zeta. intros Hdiff.
  replace (now1 + - minDelay) with (now1 - minDelay) by lia.
  rewrite time_Sub_exact by done.
  set (end_ := if decide (now + - minDelay < to) then _ else _).
  assert (Hend : end_ ≤ now - minDelay ∧ end_ ≤ to).
  { unfold end_. destruct (decide _); lia. }
  intros Hslept.
  assert (Hdue : ¬ now2 + - minDelay < end_ + pullRange).
  { destruct (decide (0 < _)) in Hslept; lia. }
  rewrite decide_False by done.
  split_and!; [lia|lia|lia|f_equal; lia].
Qed.

Lemma pullWindow_contiguous_witness :
  0 ≤ Minute
  ∧ in_int64 Minute
  ∧ pullWindow (1000 * Second) (1000 * Second) Minute
    = (880 * Second, 940 * Second)
  ∧ pullWindow (1000 * Second) (1060 * Second) Minute
    = (940 * Second, 1000 * Second).
Proof.
  assert (Hpos : 0 ≤ Minute) by discriminate.
  assert (Hrange : in_int64 Minute) by (split; discriminate).
  split_and!; [exact Hpos|exact Hrange|reflexivity|].
  pose proof (pullWindow_contiguous (1000 * Second) (1000 * Second) Minute
                (1000 * Second) (1060 * Second) Hpos Hrange) as Hwin.
  change (pullWindow (1000 * Second) (1000 * Second) Minute)
    with (880 * Second, 940 * Second) in Hwin.
  cbv beta iota zeta in Hwin.
  exact (proj2 (proj2 (proj2 (Hwin ltac:(split; discriminate)
                                   ltac:(discriminate))))).
Defined.
End cloudflare_facts.

(** ** Decoding responses *)

Lemma quot_100_is_2 (code : Z) : code ÷ 100 = 2 ↔ 200 ≤ code ≤ 299.
Proof.
  destruct (decide (0 ≤ code)) as [Hpos|Hneg].
  - rewrite Z.quot_div_nonneg by lia.
    pose proof (Z.div_mod code 100 ltac:(lia)).
    pose proof (Z.mod_pos_bound code 100 ltac:(lia)). lia.
  - pose proof (Z.quot_pos (- code) 100 ltac:(lia) ltac:(lia)) as Hq.
    rewrite Z.quot_opp_l in Hq by lia. lia.
Qed.

Section decode_response_facts.
Context {opq : Opaque} {col : Collaborators} {wr : Wire} {um : Unmarshal}.

Lemma DecodeResponse_2xx (r : http_Response.t) (req : Request) res :
  DecodeResponse r req = Ok res → 200 ≤ http_Response.StatusCode r ≤ 299.
Proof.
  unfold DecodeResponse. destruct (decide _) as [?|Hcode]; [done|].
  intros _. apply quot_100_is_2. by apply dec_stable in Hcode.
Qed.

Lemma DecodeResponse_series_inv (r : http_Response.t)
    (q : LokiSeriesRequest.t) res :
  DecodeResponse r (SeriesQuery q) = Ok res →
  ∃ s, res = SeriesResponse s
       ∧ LokiSeriesResponse.Version s = GetVersion (LokiSeriesRequest.Path q)
       ∧ LokiSeriesResponse.Headers s
         = httpResponseHeadersToPromResponseHeaders (http_Response.Header r).
Proof.
  unfold DecodeResponse. destruct (decide _); [done|].
  destruct (readBody r) as [buf|e|m]; simpl; [|done..].
  destruct (Unmarshal_SeriesResponse buf); [done|].
  intros [= <-]. by eexists.
Qed.

Lemma DecodeResponse_labels_inv (r : http_Response.t)
    (q : LokiLabelNamesRequest.t) res :
  DecodeResponse r (LabelNamesQuery q) = Ok res →
  ∃ s, res = LabelNamesResponse s
       ∧ LokiLabelNamesResponse.Version s
         = GetVersion (LokiLabelNamesRequest.Path q)
       ∧ LokiLabelNamesResponse.Headers s
         = httpResponseHeadersToPromResponseHeaders (http_Response.Header r).
Proof.
  unfold DecodeResponse. destruct (decide _); [done|].
  destruct (readBody r) as [buf|e|m]; simpl; [|done..].
  destruct (Unmarshal_LabelResponse buf); [done|].
  intros [= <-]. by eexists.
Qed.

Lemma readBody_error (r : http_Response.t) e :
  readBody r = Err e →
  ∃ format args, e = httpgrpc_Errorf StatusInternalServerError format args.
Proof.
  unfold readBody. destruct (http_Response.Body_Bytes r); [done|].
  destruct (http_Response.Body_ReadAll r) as [buf [err|]]; [|done].
  intros [= <-]. by eexists _, _.
Qed.

(** A response is decoded only for a status from 200 to 299. Any other
    status gives an error that carries this status and, as its message, the
    body as far as it could be read, whatever the request. For a status
    from 200 to 299 every error is an internal server error: the body that
    cannot be read, the JSON that cannot be parsed, the result type that is
    not supported. *)
Theorem DecodeResponse_errors (r : http_Response.t) (req : Request) :
  (¬ 200 ≤ http_Response.StatusCode r ≤ 299 →
   DecodeResponse r req
   = Err (httpgrpc_Errorf (http_Response.StatusCode r)
            (http_Response.Body_ReadAll r).1 []))
  ∧ (200 ≤ http_Response.StatusCode r ≤ 299 →
     ∀ e, DecodeResponse r req = Err e →
          ∃ format args,
            e = httpgrpc_Errorf StatusInternalServerError format args).
Proof.
  split.
  - intros Hcode. unfold DecodeResponse.
    rewrite decide_True; [done|]. by rewrite quot_100_is_2.
  - intros Hcode e. unfold DecodeResponse.
    rewrite decide_False by (rewrite quot_100_is_2; tauto).
    pose proof (readBody_error r) as Hbody.
    destruct (readBody r) as [buf|e'|m]; simpl; [|intros [= <-]; eauto|done].
    destruct req as [q|q|q|q].
    + destruct (QueryResponse_UnmarshalJSON buf) as [err|resp];
        [intros [= <-]; by eexists _, _|].
      cbv zeta. repeat case_decide; simpl.
      * by destruct (wire.QueryResponse_Result resp).
      * by destruct (wire.QueryResponse_Result resp).
      * by destruct (wire.QueryResponse_Result resp).
      * intros [= <-]. by eexists _, _.
    + destruct (QueryResponse_UnmarshalJSON buf) as [err|resp];
        [intros [= <-]; by eexists _, _|].
      cbv zeta. repeat case_decide; simpl.
      * by destruct (wire.QueryResponse_Result resp).
      * by destruct (wire.QueryResponse_Result resp).
      * by destruct (wire.QueryResponse_Result resp).
      * intros [= <-]. by eexists _, _.
    + destruct (Unmarshal_SeriesResponse buf);
        [intros [= <-]; by eexists _, _|done].
    + destruct (Unmarshal_LabelResponse buf);
        [intros [= <-]; by eexists _, _|done].
Qed.

(** The type of a decoded response follows the type of the request and,
    for a range or an instant request, the result type that the body
    names: series for a series request, label names for a label-names
    request, and a metric or a log-stream response otherwise. The version
    is read off the path of the request; a log-stream response takes its
    limit and its direction from the request, not from the body; and the
    headers of the HTTP response are kept, each name once. *)
Theorem DecodeResponse_variant (r : http_Response.t) (req : Request) res :
  DecodeResponse r req = Ok res →
  200 ≤ http_Response.StatusCode r ≤ 299
  ∧ match req, res with
    | SeriesQuery q, SeriesResponse s =>
        LokiSeriesResponse.Version s = GetVersion (LokiSeriesRequest.Path q)
        ∧ PrometheusResponseHeader.Name <$> LokiSeriesResponse.Headers s
          ≡ₚ (map_to_list (http_Response.Header r)).*1
    | LabelNamesQuery q, LabelNamesResponse s =>
        LokiLabelNamesResponse.Version s
        = GetVersion (LokiLabelNamesRequest.Path q)
        ∧ PrometheusResponseHeader.Name <$> LokiLabelNamesResponse.Headers s
          ≡ₚ (map_to_list (http_Response.Header r)).*1
    | (RangeQuery _ | InstantQuery _), LogStreamResponse s =>
        LokiResponse.Version s = GetVersion (requestPath req)
        ∧ Some (LokiResponse.Limit s, LokiResponse.Direction s)
          = match req with
            | RangeQuery q =>
                Some (LokiRequest.Limit q, LokiRequest.Direction q)
            | InstantQuery q =>
                Some (LokiInstantRequest.Limit q, LokiInstantRequest.Direction q)
            | _ => None
            end
        ∧ PrometheusResponseHeader.Name <$> LokiResponse.Headers s
          ≡ₚ (map_to_list (http_Response.Header r)).*1
    | (RangeQuery _ | InstantQuery _), MetricResponse p =>
        ∃ prom, LokiPromResponse.Response p = Some prom
                ∧ (PrometheusData.ResultType (PrometheusResponse.Data prom)
                   = ResultTypeMatrix
                   ∨ PrometheusData.ResultType (PrometheusResponse.Data prom)
                     = ResultTypeVector)
    | _, _ => False
    end.
Proof.
  intros Hres. split; [by eapply DecodeResponse_2xx|].
  assert (Hheaders :
    PrometheusResponseHeader.Name
      <$> httpResponseHeadersToPromResponseHeaders (http_Response.Header r)
    ≡ₚ (map_to_list (http_Response.Header r)).*1).
  { unfold httpResponseHeadersToPromResponseHeaders.
    rewrite <-list_fmap_compose. by rewrite rangeHeader_Permutation. }
  destruct req as [q|q|q|q].
  - revert Hres. unfold DecodeResponse. destruct (decide _); [done|].
    destruct (readBody r) as [buf|e|m]; simpl; [|done..].
    destruct (QueryResponse_UnmarshalJSON buf) as [err|resp]; [done|].
    cbv zeta. repeat case_decide; simpl; [| | |done];
      destruct (wire.QueryResponse_Result resp); simpl; try done;
      intros [= <-]; simpl; eauto.
  - revert Hres. unfold DecodeResponse. destruct (decide _); [done|].
    destruct (readBody r) as [buf|e|m]; simpl; [|done..].
    destruct (QueryResponse_UnmarshalJSON buf) as [err|resp]; [done|].
    cbv zeta. repeat case_decide; simpl; [| | |done];
      destruct (wire.QueryResponse_Result resp); simpl; try done;
      intros [= <-]; simpl; eauto.
  - apply DecodeResponse_series_inv in Hres as (s & -> & Hversion & Hh).
    split; [done|]. by rewrite Hh.
  - apply DecodeResponse_labels_inv in Hres as (s & -> & Hversion & Hh).
    split; [done|]. by rewrite Hh.
Qed.

(** The responses decoded for the series requests of one split query can
    always be merged, whatever the bodies were: the merge neither panics nor
    fails, and the merged response has the version of the first and no
    headers. The same holds for label-names requests. *)
Theorem DecodeResponse_then_MergeResponse :
  (∀ (answers : list (http_Response.t * LokiSeriesRequest.t))
     (ress : list Response),
     answers ≠ [] →
     Forall2 (λ a res, DecodeResponse a.1 (SeriesQuery a.2) = Ok res)
             answers ress →
     ∃ merged,
       MergeResponse ress = Ok (SeriesResponse merged)
       ∧ Some (LokiSeriesResponse.Version merged)
         = (GetVersion ∘ LokiSeriesRequest.Path ∘ snd) <$> head answers
       ∧ LokiSeriesResponse.Headers merged = [])
  ∧ (∀ (answers : list (http_Response.t * LokiLabelNamesRequest.t))
       (ress : list Response),
       answers ≠ [] →
       Forall2 (λ a res, DecodeResponse a.1 (LabelNamesQuery a.2) = Ok res)
               answers ress →
       ∃ merged,
         MergeResponse ress = Ok (LabelNamesResponse merged)
         ∧ Some (LokiLabelNamesResponse.Version merged)
           = (GetVersion ∘ LokiLabelNamesRequest.Path ∘ snd) <$> head answers
         ∧ LokiLabelNamesResponse.Headers merged = []).
Proof.
  split.
  - intros answers ress Hne Hall.
    assert (Hseries : ∃ ss, ress = SeriesResponse <$> ss
              ∧ Forall2 (λ a s, LokiSeriesResponse.Version s
                                = GetVersion (LokiSeriesRequest.Path a.2))
                        answers ss).
    { clear Hne. induction Hall as [|a res answers ress Ha _ (ss & -> & IH)].
      - by exists [].
      - apply DecodeResponse_series_inv in Ha as (s & -> & Hversion & _).
        exists (s :: ss). split; [done|]. by constructor. }
    destruct Hseries as (ss & -> & Hversions).
    destruct Hversions as [|a s answers ss Hversion _]; [done|].
    rewrite mergeSeries_data. eexists. split; [done|]. simpl.
    by rewrite Hversion.
  - intros answers ress Hne Hall.
    assert (Hnames : ∃ ss, ress = LabelNamesResponse <$> ss
              ∧ Forall2 (λ a s, LokiLabelNamesResponse.Version s
                                = GetVersion (LokiLabelNamesRequest.Path a.2))
                        answers ss).
    { clear Hne. induction Hall as [|a res answers ress Ha _ (ss & -> & IH)].
      - by exists [].
      - apply DecodeResponse_labels_inv in Ha as (s & -> & Hversion & _).
        exists (s :: ss). split; [done|]. by constructor. }
    destruct Hnames as (ss & -> & Hversions).
    destruct Hversions as [|a s answers ss Hversion _]; [done|].
    rewrite mergeLabelNames_data. eexists. split; [done|]. simpl.
    by rewrite Hversion.
Qed.

Import seriesLimiter.

Lemma addHashes_size (sl : t) (result : list SampleStream.t) :
  (size (hashes (addHashes sl result)) ≤ size (hashes sl) + length result)%nat.
Proof.
  unfold addHashes. revert sl.
  induction result as [|s result IH]; intros sl; simpl; [lia|].
  etrans; [apply IH|]. simpl.
  assert (size ({[HashWithoutLabels (SampleStream.Labels s)]} ∪ hashes sl)
          ≤ S (size (hashes sl)))%nat; [|lia].
  rewrite size_union_alt, size_singleton.
  assert (size (hashes sl ∖ {[HashWithoutLabels (SampleStream.Labels s)]})
          ≤ size (hashes sl))%nat; [|lia].
  apply subseteq_size. set_solver.
Qed.

(** A matrix or a vector is decoded series by series, in their order; a
    series of a vector has exactly one sample and a series of a matrix as
    many as it had. A decoded result of [n] series adds at most [n] hashes
    to a series limiter, so a limiter with room for [n] more series does
    not reach its limit on it. *)
Theorem toProto_series_count (sl : t) (m : list wire.SampleStream)
    (v : list wire.Sample) :
  length (toProtoMatrix m) = length m
  ∧ length (toProtoVector v) = length v
  ∧ (length ∘ SampleStream.Samples <$> toProtoMatrix m)
    = (length ∘ wire.SampleStream_Values <$> m)
  ∧ Forall (λ s, length (SampleStream.Samples s) = 1%nat) (toProtoVector v)
  ∧ (Z.of_nat (size (hashes sl)) + Z.of_nat (length m) ≤ maxSeries sl →
     isLimitReached (addHashes sl (toProtoMatrix m)) = false)
  ∧ (Z.of_nat (size (hashes sl)) + Z.of_nat (length v) ≤ maxSeries sl →
     isLimitReached (addHashes sl (toProtoVector v)) = false).
Proof.
  assert (Hroom : ∀ result,
            Z.of_nat (size (hashes sl)) + Z.of_nat (length result) ≤ maxSeries sl →
            isLimitReached (addHashes sl result) = false).
  { intros result Hle. apply not_true_is_false.
    rewrite isLimitReached_spec, addHashes_maxSeries.
    pose proof (addHashes_size sl result). lia. }
  unfold toProtoMatrix, toProtoVector. split_and!.
  - by rewrite length_fmap.
  - by rewrite length_fmap.
  - rewrite <-list_fmap_compose. apply list_fmap_ext. intros i s _. simpl.
    by rewrite length_fmap.
  - apply Forall_fmap, Forall_forall. by intros s _.
  - intros Hle. apply Hroom. by rewrite length_fmap.
  - intros Hle. apply Hroom. by rewrite length_fmap.
Qed.
End decode_response_facts.

Section decode_response_examples.
Local Existing Instance exampleOpaque.
Local Existing Instance exampleCollaborators.
Local Existing Instance exampleWire.
Local Existing Instance exampleUnmarshal.

Lemma DecodeResponse_variant_witness :
  DecodeResponse (exampleHttpResponse "streams") (RangeQuery exampleLegacyRangeQuery)
  = Ok (LogStreamResponse
          (LokiResponse.mk "success" (LokiData.mk ResultTypeStream []) 0%nat
             FORWARD 100 0 EmptyString EmptyString []))
  ∧ 200 ≤ http_Response.StatusCode (exampleHttpResponse "streams") ≤ 299.
Proof.
  assert (Hres : DecodeResponse (exampleHttpResponse "streams")
                   (RangeQuery exampleLegacyRangeQuery)
                 = Ok (LogStreamResponse
                         (LokiResponse.mk "success"
                            (LokiData.mk ResultTypeStream []) 0%nat
                            FORWARD 100 0 EmptyString EmptyString [])))
    by (vm_compute; reflexivity).
  split; [exact Hres|].
  exact (proj1 (DecodeResponse_variant _ _ _ Hres)).
Defined.
End decode_response_examples.

(** ** The validation of the root configuration *)

Section loki_facts.
Context {parts : ConfigParts} {validators : loki.Validators}.
Import loki.

Lemma foldr_andThen_stop (steps : list Step) (rest : Step) (k : nat)
    (step : Step) c c_k e c' :
  steps !! k = Some step →
  foldr andThen (λ c, (None, c)) (take k steps) c = (None, c_k) →
  step c_k = (Some e, c') →
  foldr andThen rest steps c = (Some e, c').
Proof.
  revert k c. induction steps as [|s steps IH]; intros k c Hk; [done|].
  destruct k as [|k]; simpl in *.
  - injection Hk as ->. intros [= ->] Hstep. unfold andThen. by rewrite Hstep.
  - unfold andThen at 1 3. destruct (s c) as [[e0|] c0]; [done|].
    by apply IH.
Qed.

Lemma foldr_andThen_pass (steps : list Step) (rest : Step) c c1 :
  foldr andThen (λ c, (None, c)) steps c = (None, c1) →
  foldr andThen rest steps c = rest c1.
Proof.
  revert c. induction steps as [|s steps IH]; intros c; simpl.
  - by intros [= ->].
  - unfold andThen at 1 3. destruct (s c) as [[e0|] c0]; [done|]. apply IH.
Qed.

(** The validations run in their order and stop at the first one that
    fails: when the first [k] of them pass and the next one fails, its error
    is the error of [Validate], the validations after it are not run, the
    look-back period is not copied and the shards are not checked. The
    error wraps the error of the part under one of ten messages; the
    message "invalid storage config" is that of the storage configuration
    and also that of the worker. *)
Theorem Validate_stops_at_first_error (c : Config) (k : nat) (step : Step)
    c_k e c' :
  validations !! k = Some step →
  foldr andThen (λ c, (None, c)) (take k validations) c = (None, c_k) →
  step c_k = (Some e, c') →
  Validate c = (Some e, c')
  ∧ ∃ cause message,
      e = errors_Wrap cause message
      ∧ message ∈ ["invalid schema config"; "invalid storage config";
                   "invalid queryrange config"; "invalid tablemanager config";
                   "invalid ruler config"; "invalid ingester config";
                   "invalid limits config"; "invalid boltdb-shipper config";
                   "invalid compactor config"; "invalid chunk store config"]
      ∧ (message = "invalid storage config" ↔ k = 1%nat ∨ k = 7%nat).
Proof.
  intros Hk Hpass Hstep. split.
  { unfold Validate. by eapply foldr_andThen_stop. }
  clear Hpass. unfold validations in Hk.
  do 11 (destruct k as [|k];
         [injection Hk as <-; unfold check in Hstep;
          match type of Hstep with
          | (let '(_, _) := ?v in _) = _ => destruct v as [[cause|] part]
          end; [|done];
          injection Hstep as <- <-; eexists _, _;
          split; [done|]; split; [set_solver|];
          split; [try done; auto|intros [?|?]; done]
         |simpl in Hk]).
  done.
Qed.

Lemma rem_pos_iff (n r : Z) :
  0 < r → 0 < Z.rem n r ↔ 0 < n ∧ ¬ (r | n).
Proof.
  intros Hr. rewrite <-(Z.rem_divide n r) by lia.
  destruct (decide (0 < n)) as [Hn|Hn].
  - pose proof (Z.rem_nonneg n r ltac:(lia) ltac:(lia)). lia.
  - pose proof (Z.rem_nonpos n r ltac:(lia) ltac:(lia)). lia.
Qed.

Lemma divide_or_not (n r : Z) : 0 < r → (r | n) ∨ ¬ (r | n).
Proof.
  intros Hr. rewrite <-(Z.rem_divide n r) by lia.
  destruct (decide (Z.rem n r = 0)); auto.
Qed.

Lemma checkRowShards_spec (n : Z) (i : nat) (configs : list PeriodConfig) :
  match checkRowShards n i configs with
  | None =>
      ∀ sc, sc ∈ configs →
            ¬ ((0 < RowShards sc)%N ∧ 0 < Z.rem n (Z.of_N (RowShards sc)))
  | Some e =>
      ∃ j sc,
        configs !! j = Some sc
        ∧ (0 < RowShards sc)%N
        ∧ 0 < Z.rem n (Z.of_N (RowShards sc))
        ∧ e = fmt_Errorf incompatibleShards
                [ArgInt n; ArgInt (Z.of_N (RowShards sc));
                 ArgInt (Z.of_nat (i + j))]
        ∧ ∀ j' sc', (j' < j)%nat → configs !! j' = Some sc' →
                    ¬ ((0 < RowShards sc')%N
                       ∧ 0 < Z.rem n (Z.of_N (RowShards sc')))
  end.
Proof.
  revert i. induction configs as [|sc configs IH]; intros i; simpl.
  { by intros sc ?%elem_of_nil. }
  destruct (decide _) as [[Hr Hrem]|Hfine].
  - exists 0%nat, sc. rewrite Nat.add_0_r.
    split_and!; [done..|]. intros j' sc' Hlt. lia.
  - specialize (IH (S i)).
    destruct (checkRowShards n (S i) configs) as [e|].
    + destruct IH as (j & sc' & Hj & Hr & Hrem & -> & Hfirst).
      exists (S j), sc'. split_and!; [done..| |].
      * by replace (i + S j)%nat with (S i + j)%nat by lia.
      * intros [|j'] sc'' Hlt; simpl.
        -- by intros [= <-].
        -- apply Hfirst. lia.
    + intros sc' [->|Hin]%elem_of_cons; [done|by apply IH].
Qed.

(** When all the validations pass, the deprecated look-back period of the
    chunk store, if it is positive, replaces the look-back of the limits,
    and nothing else is changed; this is done before the shards are
    checked and stays when that check fails. The check passes exactly when
    the number of index shards of the ingester is not positive, or every
    positive row-shard factor of a period configuration divides it; when it
    fails, the error names the first period configuration whose positive
    factor does not divide the number of index shards. *)
Theorem Validate_row_shards (c c1 : Config) :
  foldr andThen (λ c, (None, c)) validations c = (None, c1) →
  let err := (Validate c).1 in
  let c2 := (Validate c).2 in
  let indexShards := IndexShards (Ingester c1) in
  c2 = copyMaxLookBackPeriod c1
  ∧ LimitsConfig_MaxQueryLookback (Limits_ c2)
    = (if decide (0 < MaxLookBackPeriod (ChunkStore c1))
       then MaxLookBackPeriod (ChunkStore c1)
       else LimitsConfig_MaxQueryLookback (Limits_ c1))
  ∧ (Schema c2, Storage c2, QueryRange c2, TableManager c2, Ruler c2,
     Ingester c2, LimitsConfig_rest (Limits_ c2), Worker c2, Compactor c2,
     ChunkStore c2)
    = (Schema c1, Storage c1, QueryRange c1, TableManager c1, Ruler c1,
       Ingester c1, LimitsConfig_rest (Limits_ c1), Worker c1, Compactor c1,
       ChunkStore c1)
  ∧ (err = None
     ↔ (0 < indexShards →
        ∀ sc, sc ∈ Configs (Schema c1) → (0 < RowShards sc)%N →
              (Z.of_N (RowShards sc) | indexShards)))
  ∧ (∀ e, err = Some e →
       ∃ i sc,
         Configs (Schema c1) !! i = Some sc
         ∧ e = fmt_Errorf incompatibleShards
                 [ArgInt indexShards; ArgInt (Z.of_N (RowShards sc));
                  ArgInt (Z.of_nat i)]
         ∧ (0 < RowShards sc)%N
         ∧ 0 < indexShards
         ∧ ¬ (Z.of_N (RowShards sc) | indexShards)
         ∧ ∀ j sc', (j < i)%nat → Configs (Schema c1) !! j = Some sc' →
                    (0 < RowShards sc')%N →
                    (Z.of_N (RowShards sc') | indexShards)).
Proof.
  intros Hpass. unfold Validate. rewrite (foldr_andThen_pass _ _ _ _ Hpass).
  unfold finish. cbv zeta. simpl.
  assert (Hsame : Schema (copyMaxLookBackPeriod c1) = Schema c1
                  ∧ Ingester (copyMaxLookBackPeriod c1) = Ingester c1).
  { unfold copyMaxLookBackPeriod. by destruct (decide _). }
  destruct Hsame as [-> ->].
  split_and!.
  - done.
  - unfold copyMaxLookBackPeriod. by destruct (decide _).
  - unfold copyMaxLookBackPeriod. by destruct (decide _).
  - pose proof (checkRowShards_spec (IndexShards (Ingester c1)) 0
                  (Configs (Schema c1))) as Hspec.
    destruct (checkRowShards _ _ _) as [e|].
    + destruct Hspec as (j & sc & Hj & Hr & Hrem & _).
      split; [done|]. intros Hall.
      apply rem_pos_iff in Hrem as [Hn Hndiv]; [|lia].
      destruct Hndiv. apply Hall; [done| |done].
      by eapply list_elem_of_lookup_2.
    + split; [|done]. intros _ Hn sc Hsc Hr.
      destruct (divide_or_not (IndexShards (Ingester c1))
                  (Z.of_N (RowShards sc)) ltac:(lia)) as [?|Hndiv]; [done|].
      destruct (Hspec sc Hsc). split; [done|].
      apply rem_pos_iff; [lia|done].
  - intros e He.
    pose proof (checkRowShards_spec (IndexShards (Ingester c1)) 0
                  (Configs (Schema c1))) as Hspec.
    rewrite He in Hspec.
    destruct Hspec as (j & sc & Hj & Hr & Hrem & -> & Hfirst).
    apply rem_pos_iff in Hrem as [Hn Hndiv]; [|lia].
    exists j, sc. split_and!; [done..|].
    intros j' sc' Hlt Hj' Hr'.
    destruct (divide_or_not (IndexShards (Ingester c1))
                (Z.of_N (RowShards sc')) ltac:(lia)) as [?|Hndiv']; [done|].
    destruct (Hfirst j' sc' Hlt Hj'). split; [done|].
    apply rem_pos_iff; [lia|done].
Qed.
End loki_facts.

Section loki_examples.
Local Existing Instance exampleConfigParts.
Local Existing Instance exampleValidators.
Import loki.

Lemma Validate_stops_at_first_error_witness :
  Validate (exampleConfig 32 false)
  = (Some (errors_Wrap "worker" "invalid storage config"),
     exampleConfig 32 false).
Proof.
  refine (proj1 (Validate_stops_at_first_error (exampleConfig 32 false) 7
                   _ (exampleConfig 32 false) _ _ eq_refl _ _)).
  - vm_compute. reflexivity.
  - vm_compute. reflexivity.
Defined.

Lemma Validate_row_shards_witness :
  foldr andThen (λ c, (None, c)) validations (exampleConfig 32 true)
  = (None, exampleConfig 32 true)
  ∧ LimitsConfig_MaxQueryLookback
      (Limits_ (Validate (exampleConfig 32 true)).2) = 3600 * Second
  ∧ (Validate (exampleConfig 32 true)).1
    = Some (fmt_Errorf incompatibleShards [ArgInt 32; ArgInt 7; ArgInt 2]).
Proof.
  assert (Hpass : foldr andThen (λ c, (None, c)) validations
                    (exampleConfig 32 true)
                  = (None, exampleConfig 32 true))
    by (vm_compute; reflexivity).
  split; [exact Hpass|]. split.
  - exact (proj1 (proj2 (Validate_row_shards _ _ Hpass))).
  - vm_compute. reflexivity.
Defined.
End loki_examples.

(** ** The limits middleware applied twice *)

Section limits_middleware_twice.
Context {opq : Opaque} {col : Collaborators}.

Lemma limitsMiddleware_forwarded {S} (l : Limits) (next : Handler S) (now : Z)
    (ctx : RequestContext.t) (r : Request) (w : World.t S)
    (tenantIDs : list string) res w' :
  let maxQueryLookback :=
    SmallestPositiveNonZeroDurationPerTenant tenantIDs (MaxQueryLookback l) in
  let maxQueryLength :=
    SmallestPositiveNonZeroDurationPerTenant tenantIDs (MaxQueryLength l) in
  let minStartTime := TimeToMillis (now - maxQueryLookback) in
  RequestContext.TenantIDs ctx = inr tenantIDs →
  timesInRange r →
  in_int64 (now - maxQueryLookback) →
  limitsMiddleware_Do l next now ctx r w = (res, w') →
  w' = w
  ∨ ∃ r', World.calls w' = World.calls w ++ [r']
          ∧ (0 < maxQueryLookback →
             minStartTime ≤ GetStart r' ∧ minStartTime ≤ GetEnd r')
          ∧ ¬ (0 < maxQueryLength ∧ maxQueryLength < queryLen r').
Proof.
  intros maxQueryLookback maxQueryLength minStartTime Htenants Htimes Hnow.
  unfold limitsMiddleware_Do. rewrite Htenants.
  fold maxQueryLookback maxQueryLength. unfold clampLookback.
  replace (now + - maxQueryLookback) with (now - maxQueryLookback) by lia.
  fold minStartTime.
  assert (Hforward : ∀ r', dispatch next r' w = (res, w') →
                           World.calls w' = World.calls w ++ [r']).
  { intros r'. unfold dispatch.
    destruct (next r' (World.state w)) as [res0 s0]. by intros [= <- <-]. }
  destruct (decide (0 < maxQueryLookback)) as [Hlook|Hlook].
  - destruct (decide (GetEnd r < minStartTime)) as [Hend|Hend].
    { intros [= _ <-]. by left. }
    destruct (decide (GetStart r < minStartTime)) as [Hstart|Hstart].
    + assert (Hmin : in_int64 (minStartTime * Millisecond)).
      { unfold minStartTime, TimeToMillis.
        change (Millisecond ÷ Nanosecond) with 1000000.
        change Millisecond with 1000000. by apply quot_millis_bounds. }
      destruct (WithStartEnd_clamp r minStartTime Htimes Hmin ltac:(lia))
        as [Hs He].
      destruct (decide (0 < maxQueryLength ∧ _)) as [Hlong|Hlong].
      { intros [= _ <-]. by left. }
      intros Hcalls%Hforward. right. eexists. split_and!; [done| |done]. lia.
    + destruct (decide (0 < maxQueryLength ∧ _)) as [Hlong|Hlong].
      { intros [= _ <-]. by left. }
      intros Hcalls%Hforward. right. eexists. split_and!; [done| |done]. lia.
  - destruct (decide (0 < maxQueryLength ∧ _)) as [Hlong|Hlong].
    { intros [= _ <-]. by left. }
    intros Hcalls%Hforward. right. eexists. split_and!; [done| |done]. lia.
Qed.

(** The middleware is idempotent: a request that it has handed to the next
    handler passes, at the same instant and for the same tenants, through
    the middleware as it is, whatever handler comes next. *)
Theorem limitsMiddleware_idempotent {S S'} (l : Limits) (next : Handler S)
    (next' : Handler S') (now : Z) (ctx : RequestContext.t) (r r' : Request)
    (w : World.t S) (w2 : World.t S') (tenantIDs : list string) res w' :
  RequestContext.TenantIDs ctx = inr tenantIDs →
  timesInRange r →
  in_int64 (now - SmallestPositiveNonZeroDurationPerTenant tenantIDs
                    (MaxQueryLookback l)) →
  limitsMiddleware_Do l next now ctx r w = (res, w') →
  World.calls w' = World.calls w ++ [r'] →
  limitsMiddleware_Do l next' now ctx r' w2 = dispatch next' r' w2.
Proof.
  intros Htenants Htimes Hnow HDo Hcalls.
  destruct (limitsMiddleware_forwarded l next now ctx r w tenantIDs res w'
              Htenants Htimes Hnow HDo)
    as [->|(r'' & Hcalls' & Hlook & Hlen)].
  { apply (f_equal length) in Hcalls. rewrite length_app in Hcalls.
    simpl in Hcalls. lia. }
  rewrite Hcalls in Hcalls'. apply app_inv_head in Hcalls'.
  injection Hcalls' as <-.
  unfold limitsMiddleware_Do. rewrite Htenants. unfold clampLookback.
  replace (now + - SmallestPositiveNonZeroDurationPerTenant tenantIDs
                     (MaxQueryLookback l))
    with (now - SmallestPositiveNonZeroDurationPerTenant tenantIDs
                  (MaxQueryLookback l)) by lia.
  destruct (decide (0 < _)) as [Hpos|Hpos].
  - destruct (Hlook Hpos) as [Hs He].
    rewrite decide_False by lia. rewrite decide_False by lia.
    by rewrite decide_False by done.
  - by rewrite decide_False by done.
Qed.
End limits_middleware_twice.

Section limits_middleware_twice_examples.
Local Existing Instance exampleOpaque.
Local Existing Instance exampleCollaborators.

Lemma limitsMiddleware_idempotent_witness :
  limitsMiddleware_Do (exampleLimits (60 * Second) (70 * Second)) exampleNext
    exampleNow exampleContext (SeriesQuery exampleSeriesQuery) exampleWorld
  = (exampleAnswer, exampleWorldAfter)
  ∧ limitsMiddleware_Do (exampleLimits (60 * Second) (70 * Second)) exampleNext
      exampleNow exampleContext exampleClamped exampleWorld
    = dispatch exampleNext exampleClamped exampleWorld.
Proof.
  assert (Hdo : limitsMiddleware_Do (exampleLimits (60 * Second) (70 * Second))
                  exampleNext exampleNow exampleContext
                  (SeriesQuery exampleSeriesQuery) exampleWorld
                = (exampleAnswer, exampleWorldAfter))
    by (vm_compute; reflexivity).
  split; [exact Hdo|].
  refine (limitsMiddleware_idempotent
            (exampleLimits (60 * Second) (70 * Second)) exampleNext exampleNext
            exampleNow exampleContext (SeriesQuery exampleSeriesQuery)
            exampleClamped exampleWorld exampleWorld ["t"] _ _
            eq_refl _ _ Hdo eq_refl).
  - repeat constructor; discriminate.
  - split; discriminate.
Defined.
End limits_middleware_twice_examples.
